(** * G+Smo: scaled Dirichlet preconditioner (gsIeti) and BiCGStab (gsSolver)

    A shallow embedding of
      - src/gsIeti/gsScaledDirichletPrec.h, src/gsIeti/gsScaledDirichletPrec.hpp
      - src/gsSolver/gsBiCgStab.hpp
    and the properties of these two components.

    Conventions of the embedding.
      - The scalar type [T] (the template parameter, [real_t] in practice) is
        the field of rationals [Qc]: exact arithmetic, Leibniz equality.
      - A quotient whose denominator is zero has no value in that field; the
        operation that performs it stops with [DivisionByZero] and the place
        of the division (the C++ code continues with an infinity or a NaN).
      - An integer division by zero stops the call in the same way.
      - [GISMO_ASSERT] is a checked precondition: a failed assertion stops
        the call with a [Fault].
      - Indexed accesses through caller-supplied indices, triplets handed
        to [setFrom] by [schurComplement] and the dimensions of its blocks
        are checked ([IndexOutOfRange]), as Eigen does in a checked build.
      - A sum or a difference of two vectors has the length of the shorter
        one; the code only adds vectors of one length. *)

From Stdlib Require Import List Arith PeanoNat ZArith QArith Qcanon Qcabs Lia Bool Permutation Sorted.
Import ListNotations.
Close Scope Q_scope.
Open Scope nat_scope.

(* ================================================================= *)
(** ** Outcomes of fallible calls *)

Module Outcome.

(** Where [gsBiCgStab::step], [initIteration], [preconditioner] and
    [schurComplement] divide. *)
Inductive DivSite : Type :=
| SiteBetaRho      (* m_rho / rho_old *)
| SiteBetaOmega    (* m_alpha / m_w *)
| SiteAlpha        (* m_rho / <m_r0, m_v> *)
| SiteOmega        (* <m_t, m_s> / <m_t, m_t> *)
| SiteError        (* m_res.norm() / m_rhs_norm *)
| SiteScaling      (* 1. / m_localScaling[k](i,0) *)
| SiteReserve.     (* 2 * mat.nonZeros() * dofs.size() / mat.rows() *)

(** The error taxonomy.  The first five names are the kinds the design
    distinguishes; the source raises every precondition failure through
    [GISMO_ASSERT]. *)
Inductive Error : Type :=
| StructuralMismatch
| SingularBlock
| NumericalBreakdown
| NonConvergence
| InvalidConfiguration
| IndexOutOfRange
| DivisionByZero (site : DivSite).

Inductive Outcome (A : Type) : Type :=
| Ok (a : A)
| Fault (e : Error).

Arguments Ok {A} a.
Arguments Fault {A} e.

Definition ret {A : Type} (a : A) : Outcome A := Ok a.

Definition bind {A B : Type} (m : Outcome A) (k : A -> Outcome B) : Outcome B :=
  match m with
  | Ok a => k a
  | Fault e => Fault e
  end.

(** [GISMO_ASSERT(cond, message)] *)
Definition GISMO_ASSERT (cond : bool) (e : Error) : Outcome unit :=
  if cond then Ok tt else Fault e.

(** A loop whose body may stop the call: the elements are visited in
    order, the accumulator is threaded through. *)
Fixpoint foldM {A B : Type} (f : B -> A -> Outcome B) (l : list A) (acc : B) : Outcome B :=
  match l with
  | [] => Ok acc
  | a :: l' => bind (f acc a) (foldM f l')
  end.

(** A loop that collects one result per element ([push_back] in the body). *)
Fixpoint mapM {A B : Type} (f : A -> Outcome B) (l : list A) : Outcome (list B) :=
  match l with
  | [] => Ok []
  | a :: l' => bind (f a) (fun b => bind (mapM f l') (fun bs => Ok (b :: bs)))
  end.

Definition is_ok {A : Type} (m : Outcome A) : bool :=
  match m with Ok _ => true | Fault _ => false end.

End Outcome.

Export Outcome.

Declare Scope outcome_scope.
Delimit Scope outcome_scope with outcome.
Notation "x <- m ;; k" := (bind m (fun x => k))
  (at level 61, m at next level, right associativity) : outcome_scope.
Notation "m ;;; k" := (bind m (fun _ => k))
  (at level 61, right associativity) : outcome_scope.
Open Scope outcome_scope.

(* ================================================================= *)
(** ** Scalars and dense vectors *)

Module Dense.

Local Open Scope Qc_scope.

(** The scalar type. *)
Abbreviation T := Qc (only parsing).

Definition of_nat (n : nat) : T := Q2Qc (inject_Z (Z.of_nat n)).

Definition T_eqb (a b : T) : bool := Qc_eq_bool a b.

Definition T_ltb (a b : T) : bool :=
  match a ?= b with Lt => true | _ => false end.

(** [a / b] at the division [site]. *)
Definition divide (site : DivSite) (a b : T) : Outcome T :=
  if T_eqb b 0 then Fault (DivisionByZero site) else Ok (a / b).

(** [a / b] on [index_t] at the division [site]: the integer division by
    zero has no result, the call stops there. *)
Definition idivide (site : DivSite) (a b : nat) : Outcome nat :=
  if (b =? 0)%nat then Fault (DivisionByZero site) else Ok (a / b)%nat.

(** [gsMatrix<T>] with one column, [gsVector<T>]. *)
Definition Vec : Type := list T.

Definition setZero (n : nat) : Vec := repeat 0 n.

Definition vsum (l : list T) : T := fold_right Qcplus 0 l.

(** [u + v], [u - v], [a * v], coefficient-wise as Eigen's expressions. *)
Definition vadd (u v : Vec) : Vec := map (fun p => fst p + snd p) (combine u v).
Definition vsub (u v : Vec) : Vec := map (fun p => fst p - snd p) (combine u v).
Definition vscale (a : T) (v : Vec) : Vec := map (fun x => a * x) v.
Definition vopp (v : Vec) : Vec := map Qcopp v.

(** [u.col(0).dot(v.col(0))] *)
Definition dot (u v : Vec) : T := vsum (map (fun p => fst p * snd p) (combine u v)).

(** [sum_{j<n} f j] *)
Definition bigsum (n : nat) (f : nat -> T) : T := vsum (map f (seq 0 n)).

(** The value of [v.norm()] is a square root, in general not a rational:
    it is kept as its radicand, [Sqrt q] standing for the real number
    [sqrt q]. *)
Inductive Root : Type := Sqrt (radicand : T).

Definition radicand (r : Root) : T := match r with Sqrt q => q end.

(** [v.norm()] *)
Definition norm (v : Vec) : Root := Sqrt (dot v v).

(** [sqrt a / sqrt b = sqrt (a / b)] *)
Definition Root_div (site : DivSite) (a b : Root) : Outcome Root :=
  q <- divide site (radicand a) (radicand b) ;; Ok (Sqrt q).

(** [sqrt e < tol], for a radicand [e >= 0]. *)
Definition Root_ltb (e : Root) (tol : T) : bool :=
  T_ltb 0 tol && T_ltb (radicand e) (tol * tol).

(** Checked indexed access. *)
Definition read {A : Type} (v : list A) (i : nat) : Outcome A :=
  match nth_error v i with
  | Some a => Ok a
  | None => Fault IndexOutOfRange
  end.

Fixpoint update {A : Type} (v : list A) (i : nat) (f : A -> A) : Outcome (list A) :=
  match v, i with
  | [], _ => Fault IndexOutOfRange
  | a :: v', O => Ok (f a :: v')
  | a :: v', S i' => v'' <- update v' i' f ;; Ok (a :: v'')
  end.

Definition write {A : Type} (v : list A) (i : nat) (a : A) : Outcome (list A) :=
  update v i (fun _ => a).

Close Scope Qc_scope.

End Dense.

Export Dense.

(* ================================================================= *)
(** ** Sparse matrices ([gsSparseMatrix<T>], Eigen's compressed storage) *)

Module Sparse.

Inductive StorageOrder : Type := ColMajor | RowMajor.

(** A stored coefficient, and a triplet of [gsSparseEntries<T>]. *)
Record Entry : Type := mkEntry { e_row : nat; e_col : nat; e_val : T }.

Record SparseMatrix : Type := mkSparse {
  sm_order : StorageOrder;
  sm_rows : nat;
  sm_cols : nat;
  sm_entries : list Entry
}.

(** [gsSparseMatrix<T,RowMajor>] *)
Abbreviation JumpMatrix := SparseMatrix (only parsing).

Definition outer (o : StorageOrder) (e : Entry) : nat :=
  match o with RowMajor => e_row e | ColMajor => e_col e end.

Definition inner (o : StorageOrder) (e : Entry) : nat :=
  match o with RowMajor => e_col e | ColMajor => e_row e end.

Definition outerSize (m : SparseMatrix) : nat :=
  match sm_order m with RowMajor => sm_rows m | ColMajor => sm_cols m end.

(** [for (InnerIterator it(m, i); it; ++it)]: the stored coefficients of
    the outer index [i], in storage order. *)
Definition InnerIterator (m : SparseMatrix) (i : nat) : list Entry :=
  filter (fun e => outer (sm_order m) e =? i) (sm_entries m).

(** [for (i = 0; i < m.outerSize(); ++i) for (InnerIterator it(m, i); it; ++it)]:
    every stored coefficient, in the order the double loop visits them. *)
Definition stored (m : SparseMatrix) : list Entry :=
  flat_map (InnerIterator m) (seq 0 (outerSize m)).

(** [m.nonZeros()]: the number of stored coefficients. *)
Definition nonZeros (m : SparseMatrix) : nat := length (stored m).

Definition at_pos (r c : nat) (e : Entry) : bool :=
  (e_row e =? r) && (e_col e =? c).

(** The coefficient at [(r, c)]: the stored value, zero where nothing is
    stored. *)
Definition coeff (m : SparseMatrix) (r c : nat) : T :=
  vsum (map e_val (filter (at_pos r c) (stored m))).

(** [(r, c)] belongs to the nonzero pattern: a coefficient is stored there. *)
Definition occupied (m : SparseMatrix) (r c : nat) : Prop :=
  exists e, In e (stored m) /\ e_row e = r /\ e_col e = c.

(** The invariant of the storage: indices within the dimensions, one
    stored coefficient per position. *)
Definition wf (m : SparseMatrix) : Prop :=
  Forall (fun e => e_row e < sm_rows m /\ e_col e < sm_cols m) (sm_entries m)
  /\ NoDup (map (fun e => (e_row e, e_col e)) (sm_entries m)).

(** No stored coefficient has the value zero. *)
Definition no_explicit_zero (m : SparseMatrix) : Prop :=
  Forall (fun e => e_val e <> 0%Qc) (sm_entries m).

Definition same_pos (a b : Entry) : bool :=
  (e_row a =? e_row b) && (e_col a =? e_col b).

(** Storage order of two positions. *)
Definition before (o : StorageOrder) (a b : Entry) : bool :=
  (outer o a <? outer o b) || ((outer o a =? outer o b) && (inner o a <? inner o b)).

(** One triplet enters the storage: summed into the coefficient already
    stored at its position, placed in storage order otherwise. *)
Fixpoint add_triplet (o : StorageOrder) (t : Entry) (l : list Entry) : list Entry :=
  match l with
  | [] => [t]
  | e :: l' =>
      if same_pos t e then mkEntry (e_row e) (e_col e) (e_val e + e_val t)%Qc :: l'
      else if before o t e then t :: l
      else e :: add_triplet o t l'
  end.

(** [gsSparseMatrix<T> result(rows, cols); result.setFrom(triplets);]
    (Eigen's [setFromTriplets]: triplets at one position are summed). *)
Definition setFrom (o : StorageOrder) (rows cols : nat) (triplets : list Entry) : SparseMatrix :=
  mkSparse o rows cols (fold_left (fun acc t => add_triplet o t acc) triplets []).

(** A triplet within the dimensions [rows] x [cols]. *)
Definition fits (rows cols : nat) (t : Entry) : bool :=
  (e_row t <? rows) && (e_col t <? cols).

(** [result.setFrom(triplets)] for triplets whose indices the caller
    computed: a triplet outside the dimensions of [result] is refused. *)
Definition setFrom_checked (o : StorageOrder) (rows cols : nat) (triplets : list Entry)
  : Outcome SparseMatrix :=
  GISMO_ASSERT (forallb (fits rows cols) triplets) IndexOutOfRange ;;;
  Ok (setFrom o rows cols triplets).

(** [m * x] *)
Definition mulvec (m : SparseMatrix) (x : Vec) : Vec :=
  map (fun i => bigsum (sm_cols m) (fun j => coeff m i j * nth j x 0)%Qc) (seq 0 (sm_rows m)).

(** [m.transpose() * x] *)
Definition mulvecT (m : SparseMatrix) (x : Vec) : Vec :=
  map (fun j => bigsum (sm_rows m) (fun i => coeff m i j * nth i x 0)%Qc) (seq 0 (sm_cols m)).

End Sparse.

Export Sparse.

(* ================================================================= *)
(** ** Linear operators ([gsLinearOperator<T>] and its composites) *)

Module LinearOperator.

(** The capability interface [{rows, cols, apply}]. *)
Record Op : Type := mkOp {
  op_rows : nat;
  op_cols : nat;
  op_apply : Vec -> Vec
}.

Abbreviation OpPtr := Op (only parsing).

(** [makeMatrixOp(A)] *)
Definition makeMatrixOp (m : SparseMatrix) : Op :=
  mkOp (sm_rows m) (sm_cols m) (mulvec m).

(** [gsSumOp<T>::make(A, B)]: [apply(x) = A.apply(x) + B.apply(x)]. *)
Definition gsSumOp_make (a b : Op) : Op :=
  mkOp (op_rows a) (op_cols a) (fun x => vadd (op_apply a x) (op_apply b x)).

(** Modelled from the spec: [gsProductOp] is not part of the sources at hand.
    The operators are applied in sequence.  The source lists them in the
    order of application, [make(A10, solver, A01)], for the composite the
    design writes as the matrix product [A01 * solver * A10] read from right
    to left; both hand [x] to [A10] first.  It is the only order in which the
    dimensions of the three blocks fit. *)
Definition gsProductOp_make (ops : list Op) : Op :=
  mkOp (op_rows (last ops (mkOp 0 0 (fun x => x))))
       (op_cols (hd (mkOp 0 0 (fun x => x)) ops))
       (fun x => fold_left (fun y op => op_apply op y) ops x).

(** The contribution of one term of an additive operator: the vector is
    taken to the local space by the transposed transfer matrix, the local
    operator is applied, the result is brought back by the transfer matrix. *)
Definition contribution (term : SparseMatrix * Op) (x : Vec) : Vec :=
  mulvec (fst term) (op_apply (snd term) (mulvecT (fst term) x)).

(** Modelled from the spec: [gsAdditiveOp] is not part of the sources at hand.
    Every registered pair [(B_k, Op_k)] contributes [B_k Op_k B_k^T], the
    formal representation given in gsScaledDirichletPrec.h,
    [sum_k B_k D_k^{-1} S_k D_k^{-1} B_k^T]; the operator acts on vectors
    indexed by the rows of the jump matrices, the Lagrange multipliers. *)
Definition gsAdditiveOp_make (terms : list (SparseMatrix * Op)) : Op :=
  mkOp (match terms with [] => 0 | t :: _ => sm_rows (fst t) end)
       (match terms with [] => 0 | t :: _ => sm_rows (fst t) end)
       (fun x =>
          match terms with
          | [] => []
          | t :: ts => fold_left (fun acc t' => vadd acc (contribution t' x)) ts (contribution t x)
          end).

End LinearOperator.

Export LinearOperator.

(* ================================================================= *)
(** ** [gsScaledDirichletPrec<T>] *)

Module gsScaledDirichletPrec.

(** [gsSortedVector<index_t>::push_sorted_unique]: the insertion point is
    the first element not below [x]; nothing is inserted when [x] is
    already there. *)
Fixpoint push_sorted_unique (x : nat) (l : list nat) : list nat :=
  match l with
  | [] => [x]
  | y :: l' =>
      if x <? y then x :: l
      else if x =? y then l
      else y :: push_sorted_unique x l'
  end.

(** gsScaledDirichletPrec.hpp, [getSkeletonDofs] (declared [skeletonDofs]
    in the header). *)
Definition getSkeletonDofs (jm : JumpMatrix) : list nat :=
  fold_left (fun result it => push_sorted_unique (e_col it) result) (stored jm) [].

Definition skeletonDofs (jm : JumpMatrix) : list nat := getSkeletonDofs jm.

(** [reverse.setZero(n); for (i = 0; i < sz; ++i) reverse[dofs[i]] = i+1;] *)
Definition mark_dofs (n : nat) (dofs : list nat) : Outcome (list Z) :=
  foldM (fun reverse id => write reverse (snd id) (Z.of_nat (fst id) + 1)%Z)
        (combine (seq 0 (length dofs)) dofs)
        (repeat 0%Z n).

(** [reverse[i]], for an index within the vector. *)
Definition at_index (reverse : list Z) (i : nat) : Z := nth i reverse 0%Z.

(** The body of the triplet loop of [restrictJumpMatrix].  The column of a
    stored coefficient is below [jm.cols()], the length of [reverse]. *)
Definition restricted_triplet (reverse : list Z) (it : Entry) : list Entry :=
  if (0 <? at_index reverse (e_col it))%Z
  then [mkEntry (e_row it) (Z.to_nat (at_index reverse (e_col it) - 1)) (e_val it)]
  else [].

(** gsScaledDirichletPrec.hpp, [restrictJumpMatrix]. *)
Definition restrictJumpMatrix (jm : JumpMatrix) (dofs : list nat) : Outcome JumpMatrix :=
  reverse <- mark_dofs (sm_cols jm) dofs ;;
  let triplets := flat_map (restricted_triplet reverse) (stored jm) in
  Ok (setFrom RowMajor (sm_rows jm) (length dofs) triplets).

(** [j = 0; for (i = 0; i < mat.cols(); ++i) if (reverse[i]==0) reverse[i] = --j;]
    as one pass over [reverse], [j] being the counter so far. *)
Fixpoint number_rest (reverse : list Z) (j : Z) : list Z :=
  match reverse with
  | [] => []
  | r :: reverse' =>
      if (r =? 0)%Z then (j - 1)%Z :: number_rest reverse' (j - 1)%Z
      else r :: number_rest reverse' j
  end.

Record Triplets : Type := mkTriplets {
  se_A00 : list Entry;
  se_A10 : list Entry;
  se_A01 : list Entry;
  se_A11 : list Entry
}.

(** The body of the triplet loop of [schurComplement]. *)
Definition classify (reverse : list Z) (se : Triplets) (it : Entry) : Triplets :=
  let rr := at_index reverse (e_row it) in
  let rc := at_index reverse (e_col it) in
  if ((0 <? rr) && (0 <? rc))%Z%bool then
    mkTriplets
      (se_A00 se ++ [mkEntry (Z.to_nat (rr - 1)) (Z.to_nat (rc - 1)) (e_val it)])
      (se_A10 se) (se_A01 se) (se_A11 se)
  else if ((0 <? rr) && (rc <? 0))%Z%bool then
    mkTriplets (se_A00 se) (se_A10 se)
      (se_A01 se ++ [mkEntry (Z.to_nat (rr - 1)) (Z.to_nat (- rc - 1)) (e_val it)])
      (se_A11 se)
  else if ((rr <? 0) && (0 <? rc))%Z%bool then
    mkTriplets (se_A00 se)
      (se_A10 se ++ [mkEntry (Z.to_nat (- rr - 1)) (Z.to_nat (rc - 1)) (e_val it)])
      (se_A01 se) (se_A11 se)
  else
    mkTriplets (se_A00 se) (se_A10 se) (se_A01 se)
      (se_A11 se ++ [mkEntry (Z.to_nat (- rr - 1)) (Z.to_nat (- rc - 1)) (- e_val it)%Qc]).

(** [struct Blocks { SparseMatrix A00, A01, A10, A11; }] *)
Record Blocks : Type := mkBlocks {
  A00 : SparseMatrix;
  A01 : SparseMatrix;
  A10 : SparseMatrix;
  A11 : SparseMatrix
}.

(** One pass of the triplet loop: [reverse], of length [mat.cols()], is
    indexed by the row and by the column of the stored coefficient. *)
Definition classify_step (reverse : list Z) (se : Triplets) (it : Entry) : Outcome Triplets :=
  read reverse (e_row it) ;;;
  read reverse (e_col it) ;;;
  Ok (classify reverse se it).

(** [mat.rows()-dofs.size()], the dimension of the interior blocks: the
    difference is taken in [size_t] and wraps when more dofs are given than
    the matrix has rows; no block of that dimension is built. *)
Definition interiorSize (mat : SparseMatrix) (dofs : list nat) : Outcome nat :=
  GISMO_ASSERT (length dofs <=? sm_rows mat) IndexOutOfRange ;;;
  Ok (sm_rows mat - length dofs).

(** gsScaledDirichletPrec.hpp, [schurComplement], lines 69 to 128: the two
    loops over [reverse], the three [reserve] calls with their division by
    [mat.rows()] (one division stands for the three equal ones), the
    triplet loop and the four blocks in the order the source builds them,
    [A11] holding the negated interior block. *)
Definition matrixBlocks (mat : SparseMatrix) (dofs : list nat) : Outcome Blocks :=
  reverse <- mark_dofs (sm_cols mat) dofs ;;
  let reverse := number_rest reverse 0%Z in
  let sz := length dofs in
  idivide SiteReserve (2 * nonZeros mat * sz) (sm_rows mat) ;;;
  se <- foldM (classify_step reverse) (stored mat) (mkTriplets [] [] [] []) ;;
  rest <- interiorSize mat dofs ;;
  a00 <- setFrom_checked ColMajor sz sz (se_A00 se) ;;
  a10 <- setFrom_checked ColMajor rest sz (se_A10 se) ;;
  a01 <- setFrom_checked ColMajor sz rest (se_A01 se) ;;
  a11 <- setFrom_checked ColMajor rest rest (se_A11 se) ;;
  Ok (mkBlocks a00 a01 a10 a11).

Section WithSolver.

(** [makeSparseCholeskySolver(A)] is not part of the sources at hand and is
    a parameter: the factorization yields the solver operator, or it fails
    (a block that cannot be factorized, [SingularBlock] in the design).
    What the proofs rely on is stated where it is needed. *)
Variable makeSparseCholeskySolver : SparseMatrix -> Outcome Op.

(** gsScaledDirichletPrec.hpp, [schurComplement], lines 130 to 137. *)
Definition schurComplement (mat : SparseMatrix) (dofs : list nat) : Outcome OpPtr :=
  blocks <- matrixBlocks mat dofs ;;
  solver <- makeSparseCholeskySolver (A11 blocks) ;;
  Ok (gsSumOp_make
        (makeMatrixOp (A00 blocks))
        (gsProductOp_make
           [ makeMatrixOp (A10 blocks);
             solver;
             makeMatrixOp (A01 blocks) ])).

(** gsScaledDirichletPrec.hpp, [restrictToSkeleton]. *)
Definition restrictToSkeleton (jm : JumpMatrix) (mat : SparseMatrix) : Outcome (JumpMatrix * OpPtr) :=
  let skeletonDofs := getSkeletonDofs jm in
  rjm <- restrictJumpMatrix jm skeletonDofs ;;
  op <- schurComplement mat skeletonDofs ;;
  Ok (rjm, op).

End WithSolver.

(** The members of the class: the four the header declares, and
    [m_localScaling], which the header at hand does not declare and the
    member functions of the .hpp fill ([setupMultiplicityScaling]) and
    read ([preconditioner]). *)
Record State : Type := mkState {
  m_jumpMatrices : list JumpMatrix;
  m_localSchurOps : list OpPtr;
  m_localScalingOps : list (option OpPtr);
  m_localScalingTransOps : list (option OpPtr);
  m_localScaling : list Vec
}.

(** A freshly constructed object. *)
Definition empty : State := mkState [] [] [] [] [].

(** [reserve(n)]: capacity only. *)
Definition reserve (n : nat) (st : State) : State := st.

(** gsScaledDirichletPrec.h, [addSubdomain]: four [push_back]s. *)
Definition addSubdomain (jumpMatrix : JumpMatrix) (localSchurOp : OpPtr) (st : State) : Outcome State :=
  Ok (mkState
        (m_jumpMatrices st ++ [jumpMatrix])
        (m_localSchurOps st ++ [localSchurOp])
        (m_localScalingOps st ++ [None])
        (m_localScalingTransOps st ++ [None])
        (m_localScaling st)).

(** gsScaledDirichletPrec.h, [nLagrangeMultipliers]. *)
Definition nLagrangeMultipliers (st : State) : Outcome nat :=
  GISMO_ASSERT (negb (length (m_jumpMatrices st) =? 0)) InvalidConfiguration ;;;
  jm <- read (m_jumpMatrices st) 0 ;;
  Ok (sm_rows jm).

(** The inner loops of [setupMultiplicityScaling] for one subdomain. *)
Definition multiplicity (jm : JumpMatrix) (localSchurOp : OpPtr) : Outcome Vec :=
  let sz := op_rows localSchurOp in
  let sc := repeat 1%Qc sz in
  foldM (fun sc it => update sc (e_col it) (fun s => s + 1)%Qc) (stored jm) sc.

(** gsScaledDirichletPrec.hpp, [setupMultiplicityScaling]. *)
Definition setupMultiplicityScaling (st : State) : Outcome State :=
  GISMO_ASSERT (length (m_jumpMatrices st) =? length (m_localSchurOps st)) InvalidConfiguration ;;;
  scaling <- mapM (fun p => multiplicity (fst p) (snd p))
                  (combine (m_jumpMatrices st) (m_localSchurOps st)) ;;
  Ok (mkState (m_jumpMatrices st) (m_localSchurOps st)
              (m_localScalingOps st) (m_localScalingTransOps st) scaling).

(** [gsSparseMatrix<T> scaling(sz,sz);
     for (i = 0; i < sz; ++i) scaling(i,i) = 1./m_localScaling[k](i,0);] *)
Definition scalingMatrix (localSchurOp : OpPtr) (sc : Vec) : Outcome SparseMatrix :=
  let sz := op_rows localSchurOp in
  diag <- mapM (fun i => s <- read sc i ;; q <- divide SiteScaling 1%Qc s ;; Ok (mkEntry i i q))
               (seq 0 sz) ;;
  Ok (mkSparse ColMajor sz sz diag).

(** gsScaledDirichletPrec.hpp, [preconditioner]. *)
Definition preconditioner (st : State) : Outcome OpPtr :=
  GISMO_ASSERT (length (m_jumpMatrices st) =? length (m_localScaling st)) InvalidConfiguration ;;;
  GISMO_ASSERT (length (m_jumpMatrices st) =? length (m_localSchurOps st)) InvalidConfiguration ;;;
  scalingOps <- mapM (fun p => sm <- scalingMatrix (fst p) (snd p) ;; Ok (makeMatrixOp sm))
                     (combine (m_localSchurOps st) (m_localScaling st)) ;;
  let locals := map (fun p => gsProductOp_make [fst p; snd p; fst p])
                    (combine scalingOps (m_localSchurOps st)) in
  Ok (gsAdditiveOp_make (combine (m_jumpMatrices st) locals)).

(** gsScaledDirichletPrec.h, [addSubdomain(std::pair<JumpMatrix,OpPtr> data)]:
    the pair as [restrictToSkeleton] returns it. *)
Definition addSubdomain_pair (data : JumpMatrix * OpPtr) (st : State) : Outcome State :=
  addSubdomain (fst data) (snd data) st.

(** gsScaledDirichletPrec.h, [jumpMatrix(k)], [localSchurOps(k)] and
    [localScaling(k)]: the elements [m_jumpMatrices[k]],
    [m_localSchurOps[k]] and [m_localScalingOps[k]], a null pointer being
    [None]; the index has to be within the vector. *)
Definition jumpMatrix (k : nat) (st : State) : Outcome JumpMatrix :=
  read (m_jumpMatrices st) k.

Definition localSchurOps (k : nat) (st : State) : Outcome OpPtr :=
  read (m_localSchurOps st) k.

Definition localScaling (k : nat) (st : State) : Outcome (option OpPtr) :=
  read (m_localScalingOps st) k.

(** gsScaledDirichletPrec.h, [restrictToSkeleton(jumpMatrix, localMatrix, dofs)],
    the skeleton dofs being given by the caller. *)
Definition restrictToSkeleton_dofs (makeSparseCholeskySolver : SparseMatrix -> Outcome Op)
           (jm : JumpMatrix) (mat : SparseMatrix) (dofs : list nat)
  : Outcome (JumpMatrix * OpPtr) :=
  rjm <- restrictJumpMatrix jm dofs ;;
  op <- schurComplement makeSparseCholeskySolver mat dofs ;;
  Ok (rjm, op).

End gsScaledDirichletPrec.

(* ================================================================= *)
(** ** [gsBiCgStab<T>] *)

Module gsBiCgStab.

Local Open Scope Qc_scope.

(** What the solver is constructed with: the matrix and the preconditioner,
    both abstract linear operators, and the tolerance ([m_mat], [m_precond],
    [m_tol]). *)
Record Solver : Type := mkSolver {
  m_mat : Op;
  m_precond : Op;
  m_tol : T
}.

(** The members the iteration works on. *)
Record State : Type := mkState {
  m_res : Vec;
  m_r0 : Vec;
  m_tmp : Vec;
  m_p : Vec;
  m_v : Vec;
  m_y : Vec;
  m_s : Vec;
  m_z : Vec;
  m_t : Vec;
  m_alpha : T;
  m_rho : T;
  m_w : T;
  m_rhs_norm : Root;
  m_error : Root
}.

(** What is written to [gsInfo]. *)
Inductive Message : Type :=
| ResidualTooOrthogonal.   (* "Residual too orthogonal, restart with new r0" *)

(** What a call leaves behind: the returned flag, the members, the iterate
    [x] (passed by reference) and the output. *)
Record Result : Type := mkResult {
  finished : bool;
  state : State;
  iterate : Vec;
  gsInfo : list Message
}.

(** The constant [1e-32] *)
Definition restart_threshold : T := Q2Qc (1 # 100000000000000000000000000000000).

(** Modelled from the spec: [gsIterativeSolver::initIteration], the base
    class part of the initialisation, is not part of the sources at hand.
    It takes the right-hand side [b] and the initial guess, the zero vector
    when none is given, records the norm of [b] that the relative error is
    measured against, and does not end the iteration. *)
Definition Base_initIteration (S : Solver) (rhs x : Vec) : bool * Root * Vec :=
  (false, norm rhs, match x with nil => setZero (length rhs) | _ => x end).

(** gsBiCgStab.hpp, [initIteration]; [st] holds the members before the
    call. *)
Definition initIteration (S : Solver) (st : State) (rhs x : Vec) : Outcome Result :=
  let '(base_finished, rhs_norm, x) := Base_initIteration S rhs x in
  if base_finished then Ok (mkResult true st x nil)
  else
    let tmp := op_apply (m_mat S) x in
    let res := vsub rhs tmp in
    let r0 := res in
    let p := setZero (op_cols (m_mat S)) in
    let v := setZero (op_cols (m_mat S)) in
    error <- Root_div SiteError (norm res) rhs_norm ;;
    Ok (mkResult
          (Root_ltb error (m_tol S))
          (mkState res r0 tmp p v (m_y st) (m_s st) (m_z st) (m_t st) 1 1 1 rhs_norm error)
          x nil).

(** The restart test: [abs(m_rho) < 1e-32 * m_r0.dot(m_r0)]. *)
Definition too_orthogonal (rho : T) (r0 : Vec) : bool :=
  T_ltb (Qcabs rho) (restart_threshold * dot r0 r0).

(** Lines 79 to 82: the stabilization scalar. *)
Definition omega (t s : Vec) : Outcome T :=
  if T_ltb 0 (dot t t) then divide SiteOmega (dot t s) (dot t t) else Ok 0.

(** gsBiCgStab.hpp, [step]. *)
Definition step (S : Solver) (st : State) (x : Vec) : Outcome Result :=
  let rho_old := m_rho st in
  let rho := dot (m_r0 st) (m_res st) in
  let '(info, r0, rho) :=
    if too_orthogonal rho (m_r0 st)
    then (ResidualTooOrthogonal :: nil, m_res st, dot (m_res st) (m_res st))
    else (nil, m_r0 st, rho) in
  q_rho <- divide SiteBetaRho rho rho_old ;;
  q_omega <- divide SiteBetaOmega (m_alpha st) (m_w st) ;;
  let beta := q_rho * q_omega in
  let p := vadd (m_res st) (vscale beta (vsub (m_p st) (vscale (m_w st) (m_v st)))) in
  let y := op_apply (m_precond S) p in
  let v := op_apply (m_mat S) y in
  alpha <- divide SiteAlpha rho (dot r0 v) ;;
  let s := vsub (m_res st) (vscale alpha v) in
  let z := op_apply (m_precond S) s in
  let t := op_apply (m_mat S) z in
  w <- omega t s ;;
  let x := vadd x (vadd (vscale alpha y) (vscale w z)) in
  let res := vsub (m_res st) (vadd (vscale alpha v) (vscale w t)) in
  error <- Root_div SiteError (norm res) (m_rhs_norm st) ;;
  Ok (mkResult
        (Root_ltb error (m_tol S))
        (mkState res r0 (m_tmp st) p v y s z t alpha rho w (m_rhs_norm st) error)
        x info).

(** [n] further calls of [step], one after the other, whatever each one
    returns: the state and the iterate are handed on, the output is
    appended. *)
Fixpoint steps (S : Solver) (n : nat) (r : Result) : Outcome Result :=
  match n with
  | O => Ok r
  | S n' =>
      r1 <- step S (state r) (iterate r) ;;
      steps S n' (mkResult (finished r1) (state r1) (iterate r1) (gsInfo r ++ gsInfo r1))
  end.

(** The states the solver can be in: after [initIteration], and after any
    number of calls of [step]. *)
Inductive reachable (S : Solver) : State -> Vec -> Prop :=
| reach_init st0 rhs x0 r :
    initIteration S st0 rhs x0 = Ok r -> reachable S (state r) (iterate r)
| reach_step st x r :
    reachable S st x -> step S st x = Ok r -> reachable S (state r) (iterate r).

Close Scope Qc_scope.

End gsBiCgStab.

(* ================================================================= *)
(** * Properties *)

(** ** Sums of scalars *)

Module DenseFacts.

Lemma vsum_app (l1 l2 : list T) : vsum (l1 ++ l2) = (vsum l1 + vsum l2)%Qc.
Proof.
  induction l1 as [|a l1 IH]; simpl.
  - ring.
  - rewrite IH. ring.
Qed.

Lemma vsum_map_ext (A : Type) (f g : A -> T) (l : list A) :
  (forall a, In a l -> f a = g a) -> vsum (map f l) = vsum (map g l).
Proof.
  induction l as [|a l IH]; simpl; intros H.
  - reflexivity.
  - rewrite (H a (or_introl eq_refl)), IH; auto.
Qed.

Lemma vsum_map_opp (A : Type) (f : A -> T) (l : list A) :
  vsum (map (fun a => - f a)%Qc l) = (- vsum (map f l))%Qc.
Proof.
  induction l as [|a l IH]; simpl.
  - ring.
  - rewrite IH. ring.
Qed.

Lemma vsum_map_scale (A : Type) (c : T) (f : A -> T) (l : list A) :
  vsum (map (fun a => c * f a)%Qc l) = (c * vsum (map f l))%Qc.
Proof.
  induction l as [|a l IH]; simpl.
  - ring.
  - rewrite IH. ring.
Qed.

Lemma vsum_map_zero (A : Type) (l : list A) : vsum (map (fun _ => 0%Qc) l) = 0%Qc.
Proof.
  induction l as [|a l IH]; simpl.
  - reflexivity.
  - rewrite IH. ring.
Qed.

Lemma bigsum_ext (n : nat) (f g : nat -> T) :
  (forall j, j < n -> f j = g j) -> bigsum n f = bigsum n g.
Proof.
  intros H. unfold bigsum. apply vsum_map_ext.
  intros j Hj. apply in_seq in Hj. apply H. lia.
Qed.

Lemma T_eqb_eq (a b : T) : T_eqb a b = true <-> a = b.
Proof.
  unfold T_eqb. split.
  - apply Qc_eq_bool_correct.
  - intros ->. unfold Qc_eq_bool. destruct (Qc_eq_dec b b); congruence.
Qed.

Lemma T_eqb_neq (a b : T) : T_eqb a b = false <-> a <> b.
Proof.
  rewrite <- T_eqb_eq. destruct (T_eqb a b); split; congruence.
Qed.

Lemma T_ltb_lt (a b : T) : T_ltb a b = true <-> (a < b)%Qc.
Proof.
  unfold T_ltb, Qclt, Qccompare. rewrite Qlt_alt.
  destruct (this a ?= this b)%Q; split; intros H; congruence.
Qed.

Lemma this_Q2Qc (q : Q) : (this (Q2Qc q) == q)%Q.
Proof. unfold Q2Qc. cbn [this]. apply Qred_correct. Qed.

Lemma of_nat_S (n : nat) : of_nat (S n) = (of_nat n + 1)%Qc.
Proof.
  unfold of_nat. apply Qc_is_canon.
  unfold Qcplus. rewrite !this_Q2Qc.
  rewrite Nat2Z.inj_succ. unfold Z.succ.
  rewrite inject_Z_plus. reflexivity.
Qed.

Lemma of_nat_nonneg (n : nat) : (0 <= of_nat n)%Qc.
Proof.
  unfold of_nat, Qcle. rewrite (this_Q2Qc (inject_Z (Z.of_nat n))).
  change (this 0%Qc) with (0%Q).
  unfold Qle. cbn [Qnum Qden inject_Z]. lia.
Qed.

End DenseFacts.

Export DenseFacts.

(** ** Stored coefficients and coefficients *)

Module SparseFacts.

(** Boolean comparisons of indices in the hypotheses, as propositions. *)
Ltac nat_bool :=
  repeat match goal with
  | H : (_ =? _) = true |- _ => apply Nat.eqb_eq in H
  | H : (_ =? _) = false |- _ => apply Nat.eqb_neq in H
  | H : (_ <=? _) = true |- _ => apply Nat.leb_le in H
  | H : (_ <=? _) = false |- _ => apply Nat.leb_gt in H
  | H : (_ <? _) = true |- _ => apply Nat.ltb_lt in H
  | H : (_ <? _) = false |- _ => apply Nat.ltb_ge in H
  end.

Lemma at_pos_true (r c : nat) (e : Entry) :
  at_pos r c e = true <-> e_row e = r /\ e_col e = c.
Proof.
  unfold at_pos. rewrite andb_true_iff, !Nat.eqb_eq. tauto.
Qed.

Lemma in_stored (m : SparseMatrix) (e : Entry) :
  In e (stored m) <-> In e (sm_entries m) /\ outer (sm_order m) e < outerSize m.
Proof.
  unfold stored, InnerIterator. rewrite in_flat_map. split.
  - intros (i & Hi & He). apply in_seq in Hi. apply filter_In in He.
    destruct He as [He Ho]. apply Nat.eqb_eq in Ho. split; [assumption | lia].
  - intros [He Ho]. exists (outer (sm_order m) e). split.
    + apply in_seq. lia.
    + apply filter_In. split; [assumption | apply Nat.eqb_refl].
Qed.

Lemma outer_in_range (m : SparseMatrix) (e : Entry) :
  e_row e < sm_rows m -> e_col e < sm_cols m -> outer (sm_order m) e < outerSize m.
Proof.
  unfold outer, outerSize. destruct (sm_order m); auto.
Qed.

Lemma in_stored_wf (m : SparseMatrix) (e : Entry) :
  wf m -> In e (stored m) <-> In e (sm_entries m).
Proof.
  intros [Hr _]. rewrite in_stored. split; [tauto|].
  intros He. split; [assumption|].
  rewrite Forall_forall in Hr. destruct (Hr e He). now apply outer_in_range.
Qed.

Lemma stored_in_range (m : SparseMatrix) (e : Entry) :
  wf m -> In e (stored m) -> e_row e < sm_rows m /\ e_col e < sm_cols m.
Proof.
  intros Hwf He. apply (in_stored_wf m e Hwf) in He.
  destruct Hwf as [Hr _]. rewrite Forall_forall in Hr. auto.
Qed.

Lemma filter_filter_outer (g : Entry -> nat) (P : Entry -> bool) (k a : nat) (es : list Entry) :
  (forall e, P e = true -> g e = k) ->
  filter P (filter (fun e => g e =? a) es) = if a =? k then filter P es else [].
Proof.
  intros HP. induction es as [|e es IH]; simpl.
  - now destruct (a =? k).
  - destruct (g e =? a) eqn:Ega; simpl.
    + destruct (P e) eqn:EP.
      * apply Nat.eqb_eq in Ega. pose proof (HP e EP) as Hk.
        assert (a = k) by congruence. subst a.
        rewrite IH, Hk, Nat.eqb_refl. reflexivity.
      * rewrite IH. now destruct (a =? k).
    + rewrite IH. destruct (a =? k) eqn:Eak; [|reflexivity].
      destruct (P e) eqn:EP; [|reflexivity].
      apply Nat.eqb_eq in Eak. apply Nat.eqb_neq in Ega.
      rewrite (HP e EP) in Ega. congruence.
Qed.

Lemma filter_flat_map_outer (g : Entry -> nat) (P : Entry -> bool) (k : nat) (es : list Entry) :
  (forall e, P e = true -> g e = k) ->
  forall n a,
    filter P (flat_map (fun i => filter (fun e => g e =? i) es) (seq a n))
    = if (a <=? k) && (k <? a + n) then filter P es else [].
Proof.
  intros HP. induction n as [|n IH]; intros a; cbn [seq flat_map].
  - destruct (a <=? k) eqn:E1, (k <? a + 0) eqn:E2; simpl; try reflexivity.
    apply Nat.leb_le in E1. apply Nat.ltb_lt in E2. lia.
  - rewrite filter_app, (filter_filter_outer g P k a es HP), IH.
    destruct (a =? k) eqn:E0; destruct (S a <=? k) eqn:E1;
      destruct (k <? S a + n) eqn:E2; destruct (a <=? k) eqn:E3;
      destruct (k <? a + S n) eqn:E4; cbn [andb app]; rewrite ?app_nil_r;
      try reflexivity; exfalso; nat_bool; lia.
Qed.

(** The coefficients stored at one position, as the double loop meets them. *)
Lemma filter_at_stored (m : SparseMatrix) (r c : nat) :
  filter (at_pos r c) (stored m)
  = if outer (sm_order m) (mkEntry r c 0%Qc) <? outerSize m
    then filter (at_pos r c) (sm_entries m) else [].
Proof.
  unfold stored, InnerIterator.
  rewrite (filter_flat_map_outer (outer (sm_order m)) (at_pos r c)
             (outer (sm_order m) (mkEntry r c 0%Qc)) (sm_entries m)).
  - reflexivity.
  - intros e He. apply at_pos_true in He. destruct He as [<- <-].
    unfold outer. now destruct (sm_order m).
Qed.

Lemma filter_at_unique (es : list Entry) (e : Entry) :
  NoDup (map (fun e => (e_row e, e_col e)) es) -> In e es ->
  filter (at_pos (e_row e) (e_col e)) es = [e].
Proof.
  induction es as [|a es IH]; simpl; intros Hnd Hin; [contradiction|].
  inversion Hnd as [|? ? Hna Hnd']; subst.
  destruct Hin as [-> | Hin].
  - unfold at_pos at 1. rewrite !Nat.eqb_refl. simpl. f_equal.
    destruct (filter (at_pos (e_row e) (e_col e)) es) as [|b l] eqn:Ef; [reflexivity|].
    exfalso. apply Hna.
    assert (Hb : In b (filter (at_pos (e_row e) (e_col e)) es)) by (rewrite Ef; now left).
    apply filter_In in Hb. destruct Hb as [Hb Hp]. apply at_pos_true in Hp.
    destruct Hp as [Hr Hc]. apply in_map_iff. exists b. split; [|assumption].
    now rewrite Hr, Hc.
  - destruct (at_pos (e_row e) (e_col e) a) eqn:Ea.
    + exfalso. apply Hna. apply at_pos_true in Ea. destruct Ea as [Hr Hc].
      apply in_map_iff. exists e. split; [|assumption]. now rewrite Hr, Hc.
    + now apply IH.
Qed.

(** The coefficient of a well-formed matrix at a stored position is the
    stored value. *)
Lemma coeff_stored (m : SparseMatrix) (e : Entry) :
  wf m -> In e (stored m) -> coeff m (e_row e) (e_col e) = e_val e.
Proof.
  intros Hwf He. unfold coeff. rewrite filter_at_stored.
  pose proof (stored_in_range m e Hwf He) as [Hr Hc].
  replace (outer (sm_order m) (mkEntry (e_row e) (e_col e) 0%Qc) <? outerSize m) with true.
  - rewrite filter_at_unique.
    + simpl. ring.
    + apply Hwf.
    + now apply (in_stored_wf m e Hwf).
  - symmetry. apply Nat.ltb_lt. unfold outer, outerSize. destruct (sm_order m); simpl; assumption.
Qed.

Lemma coeff_unoccupied (m : SparseMatrix) (r c : nat) :
  ~ occupied m r c -> coeff m r c = 0%Qc.
Proof.
  intros H. unfold coeff.
  destruct (filter (at_pos r c) (stored m)) as [|e l] eqn:Ef; [reflexivity|].
  exfalso. apply H.
  assert (He : In e (filter (at_pos r c) (stored m))) by (rewrite Ef; now left).
  apply filter_In in He. destruct He as [He Hp]. apply at_pos_true in Hp.
  exists e. tauto.
Qed.

Lemma occupied_dec (m : SparseMatrix) (r c : nat) :
  occupied m r c \/ ~ occupied m r c.
Proof.
  destruct (filter (at_pos r c) (stored m)) as [|e l] eqn:Ef.
  - right. intros (e & He & Hr & Hc).
    assert (Hin : In e (filter (at_pos r c) (stored m))).
    { apply filter_In. split; [assumption | now apply at_pos_true]. }
    rewrite Ef in Hin. contradiction.
  - left. assert (He : In e (filter (at_pos r c) (stored m))) by (rewrite Ef; now left).
    apply filter_In in He. destruct He as [He Hp]. apply at_pos_true in Hp.
    exists e. tauto.
Qed.

End SparseFacts.

Export SparseFacts.

(* ================================================================= *)
(** ** Skeleton dofs *)

Module SkeletonFacts.

Import gsScaledDirichletPrec.

Lemma in_push_sorted_unique (x y : nat) (l : list nat) :
  In y (push_sorted_unique x l) <-> y = x \/ In y l.
Proof.
  induction l as [|a l IH]; simpl.
  - intuition.
  - destruct (x <? a) eqn:E1; [simpl; intuition|].
    destruct (x =? a) eqn:E2.
    + apply Nat.eqb_eq in E2. subst a. simpl. intuition.
    + simpl. rewrite IH. intuition.
Qed.

Lemma push_sorted_unique_sorted (x : nat) (l : list nat) :
  StronglySorted lt l -> StronglySorted lt (push_sorted_unique x l).
Proof.
  induction l as [|a l IH]; simpl; intros Hs.
  - repeat constructor.
  - inversion Hs as [|? ? Hs' Hall]; subst.
    destruct (x <? a) eqn:E1.
    + apply Nat.ltb_lt in E1. constructor; [assumption|].
      constructor; [assumption|].
      rewrite Forall_forall in *. intros z Hz. specialize (Hall z Hz). lia.
    + destruct (x =? a) eqn:E2; [assumption|].
      apply Nat.ltb_ge in E1. apply Nat.eqb_neq in E2.
      constructor; [now apply IH|].
      rewrite Forall_forall in *. intros z Hz.
      apply in_push_sorted_unique in Hz. destruct Hz as [-> | Hz]; [lia | auto].
Qed.

Lemma fold_push_sorted (cols acc : list nat) :
  StronglySorted lt acc ->
  StronglySorted lt (fold_left (fun result c => push_sorted_unique c result) cols acc).
Proof.
  revert acc. induction cols as [|c cols IH]; simpl; intros acc Hs.
  - assumption.
  - apply IH. now apply push_sorted_unique_sorted.
Qed.

Lemma in_fold_push (cols acc : list nat) (y : nat) :
  In y (fold_left (fun result c => push_sorted_unique c result) cols acc)
  <-> In y cols \/ In y acc.
Proof.
  revert acc. induction cols as [|c cols IH]; simpl; intros acc.
  - intuition.
  - rewrite IH, in_push_sorted_unique. intuition.
Qed.

Lemma getSkeletonDofs_fold (jm : JumpMatrix) :
  getSkeletonDofs jm
  = fold_left (fun result c => push_sorted_unique c result) (map e_col (stored jm)) [].
Proof.
  unfold getSkeletonDofs. generalize (@nil nat).
  induction (stored jm) as [|e es IH]; simpl; intros acc; [reflexivity | apply IH].
Qed.

Lemma StronglySorted_lt_NoDup (l : list nat) : StronglySorted lt l -> NoDup l.
Proof.
  induction 1 as [|a l Hs IH Hall]; constructor; [|assumption].
  intros Hin. rewrite Forall_forall in Hall. specialize (Hall a Hin). lia.
Qed.

Lemma in_getSkeletonDofs (jm : JumpMatrix) (c : nat) :
  In c (getSkeletonDofs jm) <-> exists r, occupied jm r c.
Proof.
  rewrite getSkeletonDofs_fold, in_fold_push, in_map_iff. unfold occupied. split.
  - intros [(e & Hc & He) | []]. exists (e_row e), e. auto.
  - intros (r & e & He & _ & Hc). left. exists e. auto.
Qed.

(** C7.  [skeletonDofs(B)] is strictly increasing, hence sorted and free of
    duplicates, and holds exactly the columns of [B] in which a coefficient
    is stored (a nonzero of the sparse matrix, as counted by [nonZeros()]);
    a column without any is not in it.  For a well-formed matrix without
    explicitly stored zeros these are exactly the columns with a coefficient
    different from zero. *)
Theorem skeletonDofs_exact (B : JumpMatrix) :
  StronglySorted lt (skeletonDofs B)
  /\ NoDup (skeletonDofs B)
  /\ (forall c, In c (skeletonDofs B) <-> exists r, occupied B r c)
  /\ (forall c, (forall r, ~ occupied B r c) -> ~ In c (skeletonDofs B))
  /\ (wf B -> no_explicit_zero B ->
      forall c, In c (skeletonDofs B) <-> exists r, coeff B r c <> 0%Qc).
Proof.
  assert (Hs : StronglySorted lt (skeletonDofs B)).
  { unfold skeletonDofs. rewrite getSkeletonDofs_fold. apply fold_push_sorted. constructor. }
  split; [assumption|]. split; [now apply StronglySorted_lt_NoDup|].
  split; [apply in_getSkeletonDofs|]. split.
  - intros c Hnone Hin. apply in_getSkeletonDofs in Hin. destruct Hin as [r Hr].
    exact (Hnone r Hr).
  - intros Hwf Hnz c. unfold skeletonDofs. rewrite in_getSkeletonDofs. split.
    + intros (r & e & He & Hr & Hc). exists r. subst r c.
      rewrite (coeff_stored B e Hwf He).
      unfold no_explicit_zero in Hnz. rewrite Forall_forall in Hnz.
      apply Hnz. now apply (in_stored_wf B e Hwf).
    + intros (r & Hr). exists r.
      destruct (occupied_dec B r c) as [Ho | Hno]; [assumption|].
      exfalso. apply Hr. now apply coeff_unoccupied.
Qed.

End SkeletonFacts.

(* ================================================================= *)
(** ** Registration and configuration checks *)

Module BuilderFacts.

Import gsScaledDirichletPrec.

(** A sequence of [addSubdomain] calls on one object. *)
Definition registerAll (subdomains : list (JumpMatrix * OpPtr)) (st : State) : Outcome State :=
  foldM (fun st sd => addSubdomain (fst sd) (snd sd) st) subdomains st.

(** The object after the registration of [subdomains], and nothing else. *)
Definition registered (subdomains : list (JumpMatrix * OpPtr)) : State :=
  mkState (map fst subdomains) (map snd subdomains)
          (map (fun _ => None) subdomains) (map (fun _ => None) subdomains) [].

Lemma registerAll_from (subdomains : list (JumpMatrix * OpPtr)) (st : State) :
  registerAll subdomains st
  = Ok (mkState (m_jumpMatrices st ++ map fst subdomains)
                (m_localSchurOps st ++ map snd subdomains)
                (m_localScalingOps st ++ map (fun _ => None) subdomains)
                (m_localScalingTransOps st ++ map (fun _ => None) subdomains)
                (m_localScaling st)).
Proof.
  revert st. induction subdomains as [|sd sds IH]; intros st.
  - simpl. rewrite !app_nil_r. now destruct st.
  - unfold registerAll in *. simpl. rewrite IH. simpl.
    now rewrite <- !app_assoc.
Qed.

Lemma registerAll_empty (subdomains : list (JumpMatrix * OpPtr)) :
  registerAll subdomains empty = Ok (registered subdomains).
Proof.
  now rewrite registerAll_from.
Qed.

Definition one_row : JumpMatrix := mkSparse RowMajor 1 1 [mkEntry 0 0 1%Qc].
Definition two_rows : JumpMatrix := mkSparse RowMajor 2 1 [mkEntry 0 0 1%Qc; mkEntry 1 0 (Qcopp 1%Qc)].
Definition identity1 : OpPtr := makeMatrixOp (mkSparse ColMajor 1 1 [mkEntry 0 0 1%Qc]).

(** C1, as stated, fails: after the registration of a jump matrix with one
    row, a jump matrix with two rows is registered like any other. *)
Lemma addSubdomain_accepts_mismatch :
  ~ (forall (subdomains : list (JumpMatrix * OpPtr)) (jm : JumpMatrix) (op : OpPtr),
        (exists jm0, In jm0 (map fst subdomains) /\ sm_rows jm0 <> sm_rows jm) ->
        addSubdomain jm op (registered subdomains) = Fault StructuralMismatch).
Proof.
  intros H.
  specialize (H [(one_row, identity1)] two_rows identity1).
  assert (Hex : exists jm0, In jm0 (map fst [(one_row, identity1)])
                            /\ sm_rows jm0 <> sm_rows two_rows).
  { exists one_row. split; [now left | discriminate]. }
  specialize (H Hex). discriminate H.
Qed.

(** C1, amended.  [addSubdomain] compares no row counts: after any sequence
    of registrations, whatever the row count of the jump matrix, the call
    succeeds and appends the jump matrix and the Schur operator (and an
    empty slot for each scaling operator); so it succeeds in particular
    when the row counts agree. *)
Theorem addSubdomain_always_registers
  (subdomains : list (JumpMatrix * OpPtr)) (jm : JumpMatrix) (op : OpPtr) :
  registerAll subdomains empty = Ok (registered subdomains)
  /\ addSubdomain jm op (registered subdomains) = Ok (registered (subdomains ++ [(jm, op)]))
  /\ m_jumpMatrices (registered (subdomains ++ [(jm, op)])) = map fst subdomains ++ [jm]
  /\ m_localSchurOps (registered (subdomains ++ [(jm, op)])) = map snd subdomains ++ [op].
Proof.
  split; [apply registerAll_empty|].
  unfold addSubdomain, registered. simpl. rewrite !map_app. simpl. auto.
Qed.

(** C6, as stated, fails: with no subdomain registered both assertions of
    [preconditioner] compare zero with zero, and the call returns. *)
Lemma preconditioner_without_subdomains :
  ~ (forall st : State, m_jumpMatrices st = [] -> preconditioner st = Fault InvalidConfiguration).
Proof.
  intros H. specialize (H empty eq_refl). discriminate H.
Qed.

(** C6, amended.  [nLagrangeMultipliers] fails with [InvalidConfiguration]
    when no subdomain is registered and returns the row count of the first
    registered jump matrix otherwise, which is the shared row count when
    the jump matrices agree on it.  [preconditioner] fails with
    [InvalidConfiguration] when the number of scaling vectors differs from
    the number of registered subdomains, so when subdomains are registered
    and the scaling was never computed; on an object without subdomains it
    returns the additive operator without terms. *)
Theorem configuration_checks (st : State) :
  (m_jumpMatrices st = [] -> nLagrangeMultipliers st = Fault InvalidConfiguration)
  /\ (forall jm rest, m_jumpMatrices st = jm :: rest ->
        nLagrangeMultipliers st = Ok (sm_rows jm))
  /\ (forall n, m_jumpMatrices st <> [] ->
        Forall (fun jm => sm_rows jm = n) (m_jumpMatrices st) ->
        nLagrangeMultipliers st = Ok n)
  /\ (length (m_jumpMatrices st) <> length (m_localScaling st) ->
        preconditioner st = Fault InvalidConfiguration)
  /\ (m_jumpMatrices st <> [] -> m_localScaling st = [] ->
        preconditioner st = Fault InvalidConfiguration)
  /\ preconditioner empty = Ok (gsAdditiveOp_make []).
Proof.
  repeat split.
  - intros H. unfold nLagrangeMultipliers. now rewrite H.
  - intros jm rest H. unfold nLagrangeMultipliers. now rewrite H.
  - intros n Hne Hall. unfold nLagrangeMultipliers.
    destruct (m_jumpMatrices st) as [|jm rest]; [congruence|].
    inversion Hall; subst. reflexivity.
  - intros H. unfold preconditioner.
    apply Nat.eqb_neq in H. now rewrite H.
  - intros Hne Hsc. unfold preconditioner. rewrite Hsc.
    destruct (m_jumpMatrices st); [congruence | reflexivity].
Qed.

End BuilderFacts.

(* ================================================================= *)
(** ** Matrices built from triplets *)

Module TripletFacts.

Definition pos (e : Entry) : nat * nat := (e_row e, e_col e).

Lemma same_pos_true (a b : Entry) : same_pos a b = true <-> pos a = pos b.
Proof.
  unfold same_pos, pos. rewrite andb_true_iff, !Nat.eqb_eq. split.
  - intros [-> ->]. reflexivity.
  - intros H. inversion H. auto.
Qed.

Lemma at_pos_same (r c : nat) (a b : Entry) :
  pos a = pos b -> at_pos r c a = at_pos r c b.
Proof.
  unfold pos, at_pos. intros H. inversion H. reflexivity.
Qed.

(** The values met at [(r, c)], summed. *)
Definition sum_at (r c : nat) (es : list Entry) : T :=
  vsum (map e_val (filter (at_pos r c) es)).

Lemma sum_at_cons (r c : nat) (e : Entry) (es : list Entry) :
  sum_at r c (e :: es) = ((if at_pos r c e then e_val e else 0) + sum_at r c es)%Qc.
Proof.
  unfold sum_at. simpl. destruct (at_pos r c e); simpl; ring.
Qed.

Lemma sum_at_app (r c : nat) (l1 l2 : list Entry) :
  sum_at r c (l1 ++ l2) = (sum_at r c l1 + sum_at r c l2)%Qc.
Proof.
  unfold sum_at. now rewrite filter_app, map_app, vsum_app.
Qed.

Lemma sum_at_add_triplet (o : StorageOrder) (r c : nat) (t : Entry) (l : list Entry) :
  sum_at r c (add_triplet o t l) = sum_at r c (t :: l).
Proof.
  induction l as [|e l IH]; [reflexivity|].
  cbn [add_triplet]. destruct (same_pos t e) eqn:Es.
  - apply same_pos_true in Es. rewrite !sum_at_cons.
    rewrite (at_pos_same r c t e Es).
    replace (at_pos r c (mkEntry (e_row e) (e_col e) (e_val e + e_val t)%Qc))
      with (at_pos r c e) by reflexivity.
    cbn [e_val]. destruct (at_pos r c e); ring.
  - destruct (before o t e); [reflexivity|].
    rewrite sum_at_cons, IH, !sum_at_cons. ring.
Qed.

Lemma sum_at_fold_add (o : StorageOrder) (r c : nat) (ts acc : list Entry) :
  sum_at r c (fold_left (fun acc t => add_triplet o t acc) ts acc)
  = (sum_at r c ts + sum_at r c acc)%Qc.
Proof.
  revert acc. induction ts as [|t ts IH]; intros acc; simpl.
  - unfold sum_at at 2. simpl. ring.
  - rewrite IH, sum_at_add_triplet, !sum_at_cons. ring.
Qed.

Lemma in_pos_add_triplet (o : StorageOrder) (p : nat * nat) (t : Entry) (l : list Entry) :
  In p (map pos (add_triplet o t l)) <-> p = pos t \/ In p (map pos l).
Proof.
  induction l as [|e l IH]; simpl.
  - intuition.
  - destruct (same_pos t e) eqn:Es.
    + apply same_pos_true in Es. simpl. unfold pos at 1. simpl.
      fold (pos e). rewrite Es. intuition.
    + destruct (before o t e); simpl; [intuition|].
      rewrite IH. intuition.
Qed.

Lemma in_pos_fold_add (o : StorageOrder) (p : nat * nat) (ts acc : list Entry) :
  In p (map pos (fold_left (fun acc t => add_triplet o t acc) ts acc))
  <-> In p (map pos ts) \/ In p (map pos acc).
Proof.
  revert acc. induction ts as [|t ts IH]; intros acc; simpl.
  - intuition.
  - rewrite IH, in_pos_add_triplet. intuition.
Qed.

Lemma before_true (o : StorageOrder) (a b : Entry) :
  before o a b = true
  <-> outer o a < outer o b \/ (outer o a = outer o b /\ inner o a < inner o b).
Proof.
  unfold before. rewrite orb_true_iff, andb_true_iff, !Nat.ltb_lt, Nat.eqb_eq. tauto.
Qed.

Lemma same_pos_key (o : StorageOrder) (a b : Entry) :
  same_pos a b = true <-> outer o a = outer o b /\ inner o a = inner o b.
Proof.
  unfold same_pos, outer, inner. rewrite andb_true_iff, !Nat.eqb_eq.
  destruct o; tauto.
Qed.

(** Storage order: strictly increasing in (outer, inner). *)
Definition in_storage_order (o : StorageOrder) (l : list Entry) : Prop :=
  StronglySorted (fun a b => before o a b = true) l.

Lemma before_same_pos_l (o : StorageOrder) (a a' b : Entry) :
  pos a = pos a' -> before o a b = before o a' b.
Proof.
  unfold pos, before, outer, inner. intros H. inversion H.
  destruct o; congruence.
Qed.

Lemma before_same_pos_r (o : StorageOrder) (a b b' : Entry) :
  pos b = pos b' -> before o a b = before o a b'.
Proof.
  unfold pos, before, outer, inner. intros H. inversion H.
  destruct o; congruence.
Qed.

Lemma add_triplet_before (o : StorageOrder) (a t : Entry) (l : list Entry) :
  before o a t = true -> Forall (fun b => before o a b = true) l ->
  Forall (fun b => before o a b = true) (add_triplet o t l).
Proof.
  intros Hat. induction l as [|e l IH]; simpl; intros Hall.
  - constructor; [assumption | constructor].
  - inversion Hall as [|? ? Hae Hall']; subst.
    destruct (same_pos t e) eqn:Es.
    + constructor; [|assumption].
      rewrite <- Hae. apply before_same_pos_r. reflexivity.
    + destruct (before o t e).
      * constructor; assumption.
      * constructor; [assumption | now apply IH].
Qed.

Lemma add_triplet_sorted (o : StorageOrder) (t : Entry) (l : list Entry) :
  in_storage_order o l -> in_storage_order o (add_triplet o t l).
Proof.
  unfold in_storage_order.
  induction l as [|e l IH]; simpl; intros Hs.
  - repeat constructor.
  - inversion Hs as [|? ? Hs' Hall]; subst.
    destruct (same_pos t e) eqn:Es.
    + constructor; [assumption|].
      eapply Forall_impl; [|exact Hall]. intros b Hb. simpl in Hb.
      rewrite <- Hb. apply before_same_pos_l. reflexivity.
    + destruct (before o t e) eqn:Eb.
      * constructor; [assumption|]. constructor; [assumption|].
        eapply Forall_impl; [|exact Hall]. intros b Hb. simpl in Hb.
        apply before_true in Eb. apply before_true in Hb. apply before_true. lia.
      * constructor; [now apply IH|].
        apply add_triplet_before; [|assumption].
        apply before_true.
        assert (Hk : ~ (outer o t = outer o e /\ inner o t = inner o e)).
        { intros Hk. apply (same_pos_key o) in Hk. congruence. }
        assert (Hb : ~ (outer o t < outer o e \/ (outer o t = outer o e /\ inner o t < inner o e))).
        { intros Hb. apply before_true in Hb. congruence. }
        lia.
Qed.

Lemma fold_add_sorted (o : StorageOrder) (ts acc : list Entry) :
  in_storage_order o acc ->
  in_storage_order o (fold_left (fun acc t => add_triplet o t acc) ts acc).
Proof.
  revert acc. induction ts as [|t ts IH]; intros acc Hs; simpl.
  - assumption.
  - apply IH. now apply add_triplet_sorted.
Qed.

Lemma storage_order_NoDup (o : StorageOrder) (l : list Entry) :
  in_storage_order o l -> NoDup (map pos l).
Proof.
  induction 1 as [|a l Hs IH Hall]; simpl; constructor; [|assumption].
  intros Hin. apply in_map_iff in Hin. destruct Hin as (b & Hb & Hin).
  rewrite Forall_forall in Hall. specialize (Hall b Hin).
  apply before_true in Hall.
  assert (Hk : outer o b = outer o a /\ inner o b = inner o a).
  { apply (same_pos_key o). now apply same_pos_true. }
  lia.
Qed.

(** What [setFrom] builds is well-formed when the triplets are within the
    dimensions. *)
Lemma setFrom_wf (o : StorageOrder) (rows cols : nat) (ts : list Entry) :
  Forall (fun t => e_row t < rows /\ e_col t < cols) ts ->
  wf (setFrom o rows cols ts).
Proof.
  intros Hr. unfold wf, setFrom. cbn [sm_entries sm_rows sm_cols]. split.
  - rewrite Forall_forall. intros e He.
    assert (Hp : In (pos e) (map pos (fold_left (fun acc t => add_triplet o t acc) ts []))).
    { apply in_map. exact He. }
    apply in_pos_fold_add in Hp. destruct Hp as [Hp | []].
    apply in_map_iff in Hp. destruct Hp as (t & Ht & Hin).
    rewrite Forall_forall in Hr. specialize (Hr t Hin).
    unfold pos in Ht. inversion Ht. lia.
  - apply (storage_order_NoDup o). apply fold_add_sorted. constructor.
Qed.

(** The coefficient of what [setFrom] builds: the sum of the triplets at
    that position. *)
Lemma setFrom_coeff (o : StorageOrder) (rows cols : nat) (ts : list Entry) (r c : nat) :
  r < rows -> c < cols ->
  coeff (setFrom o rows cols ts) r c = sum_at r c ts.
Proof.
  intros Hr Hc. unfold coeff. rewrite filter_at_stored.
  replace (outer (sm_order (setFrom o rows cols ts)) (mkEntry r c 0%Qc)
           <? outerSize (setFrom o rows cols ts)) with true.
  - change (sum_at r c (fold_left (fun acc t => add_triplet o t acc) ts []) = sum_at r c ts).
    rewrite sum_at_fold_add. unfold sum_at at 2. simpl. ring.
  - symmetry. apply Nat.ltb_lt. unfold outer, outerSize, setFrom. simpl.
    destruct o; assumption.
Qed.

Lemma setFrom_occupied (o : StorageOrder) (rows cols : nat) (ts : list Entry) (r c : nat) :
  Forall (fun t => e_row t < rows /\ e_col t < cols) ts ->
  occupied (setFrom o rows cols ts) r c <-> exists t, In t ts /\ e_row t = r /\ e_col t = c.
Proof.
  intros Hr. pose proof (setFrom_wf o rows cols ts Hr) as Hwf. unfold occupied. split.
  - intros (e & He & Her & Hec). apply (in_stored_wf _ e Hwf) in He.
    assert (Hp : In (pos e) (map pos (fold_left (fun acc t => add_triplet o t acc) ts []))).
    { apply in_map. exact He. }
    apply in_pos_fold_add in Hp. destruct Hp as [Hp | []].
    apply in_map_iff in Hp. destruct Hp as (t & Ht & Hin).
    exists t. unfold pos in Ht. inversion Ht. split; [assumption|]. lia.
  - intros (t & Hin & Htr & Htc).
    assert (Hp : In (pos t) (map pos (fold_left (fun acc t => add_triplet o t acc) ts []))).
    { apply in_pos_fold_add. left. now apply in_map. }
    apply in_map_iff in Hp. destruct Hp as (e & He & Hine).
    exists e. split.
    + apply (in_stored_wf _ e Hwf). exact Hine.
    + unfold pos in He. inversion He. lia.
Qed.

(** Summing over the triplets a loop produces, entry by entry. *)
Lemma sum_at_flat_map (f : Entry -> list Entry) (g : T -> T) (r c r' c' : nat) (es : list Entry) :
  g 0%Qc = 0%Qc ->
  (forall e, In e es ->
     sum_at r c (f e) = if at_pos r' c' e then g (e_val e) else 0%Qc) ->
  sum_at r c (flat_map f es) = vsum (map (fun e => g (e_val e)) (filter (at_pos r' c') es)).
Proof.
  intros Hg. induction es as [|e es IH]; intros H.
  - reflexivity.
  - cbn [flat_map]. rewrite sum_at_app, (H e (or_introl eq_refl)), IH.
    + simpl. destruct (at_pos r' c' e); simpl; ring.
    + intros e' He'. apply H. now right.
Qed.

End TripletFacts.

Export TripletFacts.

(* ================================================================= *)
(** ** Checked writes and the index maps *)

Module IndexFacts.

Import gsScaledDirichletPrec.

Lemma update_ok (A : Type) (v : list A) (i : nat) (f : A -> A) :
  i < length v ->
  exists v', update v i f = Ok v' /\ length v' = length v
             /\ forall j d, nth j v' d = if j =? i then f (nth i v d) else nth j v d.
Proof.
  revert i. induction v as [|a v IH]; intros i Hi; simpl in Hi; [lia|].
  destruct i as [|i].
  - exists (f a :: v). split; [reflexivity|]. split; [reflexivity|].
    intros [|j] d; reflexivity.
  - destruct (IH i ltac:(lia)) as (v' & Hu & Hl & Hn).
    exists (a :: v'). simpl. rewrite Hu. simpl. split; [reflexivity|].
    split; [now rewrite Hl|].
    intros [|j] d; [reflexivity|]. simpl. apply Hn.
Qed.

Lemma update_fault (A : Type) (v : list A) (i : nat) (f : A -> A) :
  length v <= i -> update v i f = Fault IndexOutOfRange.
Proof.
  revert i. induction v as [|a v IH]; intros i Hi; simpl.
  - reflexivity.
  - destruct i as [|i]; simpl in Hi; [lia|]. rewrite IH by lia. reflexivity.
Qed.

(** The first loop over [dofs]: position [i] of [dofs] is marked [a + i + 1],
    everything else keeps its value. *)
Lemma mark_from (dofs : list nat) :
  forall (a : nat) (reverse : list Z),
    Forall (fun d => d < length reverse) dofs -> NoDup dofs ->
    exists reverse',
      foldM (fun reverse id => write reverse (snd id) (Z.of_nat (fst id) + 1)%Z)
            (combine (seq a (length dofs)) dofs) reverse = Ok reverse'
      /\ length reverse' = length reverse
      /\ (forall i d, nth_error dofs i = Some d -> at_index reverse' d = (Z.of_nat (a + i) + 1)%Z)
      /\ (forall c, ~ In c dofs -> at_index reverse' c = at_index reverse c).
Proof.
  induction dofs as [|d dofs IH]; intros a reverse Hr Hnd.
  - exists reverse. simpl. repeat split; auto.
    intros [|i] d H; discriminate H.
  - inversion Hr as [|? ? Hd Hr']; subst. inversion Hnd as [|? ? Hni Hnd']; subst.
    destruct (update_ok Z reverse d (fun _ => (Z.of_nat a + 1)%Z) Hd) as (r1 & Hu & Hl & Hn).
    destruct (IH (S a) r1) as (r2 & Hf & Hl2 & Hin & Hout); auto.
    { rewrite Hl. exact Hr'. }
    exists r2. cbn [length seq combine foldM fst snd]. unfold write at 1.
    rewrite Hu. cbn [bind]. split; [exact Hf|]. split; [congruence|]. split.
    + intros [|i] d' Hd'; simpl in Hd'.
      * inversion Hd'; subst d'. rewrite (Hout d Hni). unfold at_index.
        rewrite Hn, Nat.eqb_refl. f_equal. f_equal. lia.
      * rewrite (Hin i d' Hd'). f_equal. f_equal. lia.
    + intros c Hc. simpl in Hc. rewrite Hout by tauto. unfold at_index.
      rewrite Hn. destruct (c =? d) eqn:E; [|reflexivity].
      apply Nat.eqb_eq in E. subst c. tauto.
Qed.

Lemma mark_dofs_ok (n : nat) (dofs : list nat) :
  Forall (fun d => d < n) dofs -> NoDup dofs ->
  exists reverse,
    mark_dofs n dofs = Ok reverse
    /\ length reverse = n
    /\ (forall i d, nth_error dofs i = Some d -> at_index reverse d = (Z.of_nat i + 1)%Z)
    /\ (forall c, ~ In c dofs -> at_index reverse c = 0%Z).
Proof.
  intros Hr Hnd.
  destruct (mark_from dofs 0 (repeat 0%Z n)) as (r & Hf & Hl & Hin & Hout); auto.
  { now rewrite repeat_length. }
  exists r. split; [exact Hf|]. split; [now rewrite Hl, repeat_length|]. split.
  - exact Hin.
  - intros c Hc. rewrite (Hout c Hc). unfold at_index.
    destruct (Nat.lt_ge_cases c n) as [Hlt | Hge].
    + now rewrite nth_repeat_lt.
    + apply nth_overflow. now rewrite repeat_length.
Qed.

Lemma mark_dofs_fault (n : nat) (dofs : list nat) :
  ~ Forall (fun d => d < n) dofs -> mark_dofs n dofs = Fault IndexOutOfRange.
Proof.
  unfold mark_dofs. generalize 0 as a.
  assert (Hlen : length (repeat 0%Z n) = n) by apply repeat_length.
  revert Hlen. generalize (repeat 0%Z n) as reverse.
  induction dofs as [|d dofs IH]; intros reverse Hlen a Hbad.
  - exfalso. apply Hbad. constructor.
  - cbn [length seq combine foldM fst snd]. unfold write at 1.
    destruct (Nat.lt_ge_cases d n) as [Hlt | Hge].
    + destruct (update_ok Z reverse d (fun _ => (Z.of_nat a + 1)%Z)) as (r1 & Hu & Hl & _).
      { now rewrite Hlen. }
      rewrite Hu. cbn [bind]. apply IH; [congruence|].
      intros Hall. apply Hbad. now constructor.
    + rewrite update_fault by (rewrite Hlen; exact Hge). reflexivity.
Qed.

(** Every index is either a kept one, marked with its place, or unmarked. *)
Lemma marked_or_not (dofs : list nat) (c : nat) :
  (exists i, nth_error dofs i = Some c) \/ ~ In c dofs.
Proof.
  destruct (in_dec Nat.eq_dec c dofs) as [Hin | Hni]; [left | now right].
  now apply In_nth_error.
Qed.

End IndexFacts.

Export IndexFacts.

(* ================================================================= *)
(** ** Restriction of a jump matrix to a list of columns *)

Module RestrictFacts.

Import gsScaledDirichletPrec.

(** What [mark_dofs] leaves in [reverse] for the kept columns [dofs]. *)
Definition marks (dofs : list nat) (reverse : list Z) : Prop :=
  (forall i d, nth_error dofs i = Some d -> at_index reverse d = (Z.of_nat i + 1)%Z)
  /\ (forall c, ~ In c dofs -> at_index reverse c = 0%Z).

Lemma restricted_triplet_kept (dofs : list nat) (reverse : list Z) (e : Entry) (i : nat) :
  marks dofs reverse -> nth_error dofs i = Some (e_col e) ->
  restricted_triplet reverse e = [mkEntry (e_row e) i (e_val e)].
Proof.
  intros [Hin _] Hi. unfold restricted_triplet. rewrite (Hin i _ Hi).
  replace (0 <? Z.of_nat i + 1)%Z with true by (symmetry; apply Z.ltb_lt; lia).
  repeat f_equal. lia.
Qed.

Lemma restricted_triplet_dropped (dofs : list nat) (reverse : list Z) (e : Entry) :
  marks dofs reverse -> ~ In (e_col e) dofs -> restricted_triplet reverse e = [].
Proof.
  intros [_ Hout] Hni. unfold restricted_triplet. now rewrite (Hout _ Hni).
Qed.

Lemma in_restricted (dofs : list nat) (reverse : list Z) (es : list Entry) (t : Entry) :
  marks dofs reverse ->
  In t (flat_map (restricted_triplet reverse) es)
  <-> exists e i, In e es /\ nth_error dofs i = Some (e_col e)
                  /\ t = mkEntry (e_row e) i (e_val e).
Proof.
  intros Hm. rewrite in_flat_map. split.
  - intros (e & He & Ht). destruct (marked_or_not dofs (e_col e)) as [[i Hi] | Hni].
    + rewrite (restricted_triplet_kept dofs reverse e i Hm Hi) in Ht.
      destruct Ht as [<- | []]. exists e, i. auto.
    + rewrite (restricted_triplet_dropped dofs reverse e Hm Hni) in Ht. contradiction.
  - intros (e & i & He & Hi & ->). exists e. split; [assumption|].
    rewrite (restricted_triplet_kept dofs reverse e i Hm Hi). now left.
Qed.

Lemma restricted_sum (dofs : list nat) (reverse : list Z) (r j dj : nat) (e : Entry) :
  marks dofs reverse -> NoDup dofs -> nth_error dofs j = Some dj ->
  sum_at r j (restricted_triplet reverse e)
  = if at_pos r dj e then e_val e else 0%Qc.
Proof.
  intros Hm Hnd Hj. destruct (marked_or_not dofs (e_col e)) as [[i Hi] | Hni].
  - rewrite (restricted_triplet_kept dofs reverse e i Hm Hi).
    rewrite sum_at_cons. unfold sum_at. simpl. unfold at_pos. simpl.
    destruct (e_row e =? r); simpl; [|ring].
    destruct (i =? j) eqn:Eij; destruct (e_col e =? dj) eqn:Ec; try ring; exfalso; nat_bool.
    + subst i. congruence.
    + subst dj. apply Eij.
      apply (proj1 (NoDup_nth_error dofs) Hnd); [|congruence].
      apply nth_error_Some. congruence.
  - rewrite (restricted_triplet_dropped dofs reverse e Hm Hni).
    unfold sum_at, at_pos. simpl.
    destruct (e_row e =? r); simpl; [|reflexivity].
    destruct (e_col e =? dj) eqn:Ec; [|reflexivity].
    exfalso. apply Nat.eqb_eq in Ec. apply Hni. rewrite Ec.
    eapply nth_error_In. exact Hj.
Qed.

(** Modelled from the spec: zero-padding of the dropped columns.  Column
    [j] of the restricted matrix goes back to column [dofs[j]] of a matrix
    with the original number of columns; the dropped columns stay empty. *)
Definition zeroPad (cols : nat) (dofs : list nat) (R : JumpMatrix) : JumpMatrix :=
  setFrom RowMajor (sm_rows R) cols
          (map (fun e => mkEntry (e_row e) (nth (e_col e) dofs 0) (e_val e)) (stored R)).

Definition row12 : JumpMatrix :=
  mkSparse RowMajor 1 2 [mkEntry 0 0 1%Qc; mkEntry 0 1 1%Qc].

(** C8, as stated, fails: restricting [[1, 1]] to the column list [0] and
    padding with a zero column gives the pattern of [[1, 0]]. *)
Lemma restrict_zeroPad_loses_columns :
  ~ (forall (B : JumpMatrix) (dofs : list nat) (R : JumpMatrix),
        wf B -> NoDup dofs -> Forall (fun d => d < sm_cols B) dofs ->
        restrictJumpMatrix B dofs = Ok R ->
        forall r c, occupied (zeroPad (sm_cols B) dofs R) r c <-> occupied B r c).
Proof.
  intros H.
  assert (Hwf : wf row12).
  { split; simpl.
    - repeat constructor.
    - repeat constructor; simpl; intuition congruence. }
  assert (Hnd : NoDup [0]) by (repeat constructor; intros []).
  assert (Hr : Forall (fun d => d < sm_cols row12) [0]) by (repeat constructor).
  specialize (H row12 [0] _ Hwf Hnd Hr eq_refl 0 1).
  assert (Ho : occupied row12 0 1).
  { exists (mkEntry 0 1 1%Qc). split; [|split; reflexivity]. simpl. auto. }
  apply H in Ho. destruct Ho as (e & He & Hrow & Hcol).
  simpl in He. destruct He as [<- | []]. discriminate Hcol.
Qed.

Lemma restricted_in_range (B : JumpMatrix) (dofs : list nat) (reverse : list Z) :
  wf B -> marks dofs reverse ->
  Forall (fun t => e_row t < sm_rows B /\ e_col t < length dofs)
         (flat_map (restricted_triplet reverse) (stored B)).
Proof.
  intros Hwf Hm. rewrite Forall_forall. intros t Ht.
  apply (in_restricted dofs reverse (stored B) t Hm) in Ht.
  destruct Ht as (e & i & He & Hi & ->). simpl. split.
  - now apply (stored_in_range B e Hwf).
  - apply nth_error_Some. congruence.
Qed.

(** What [restrictJumpMatrix] returns, column by column. *)
Lemma restrictJumpMatrix_columns (B : JumpMatrix) (dofs : list nat) :
  wf B -> NoDup dofs -> Forall (fun d => d < sm_cols B) dofs ->
  exists R,
    restrictJumpMatrix B dofs = Ok R
    /\ wf R /\ sm_rows R = sm_rows B /\ sm_cols R = length dofs
    /\ (forall r j dj, nth_error dofs j = Some dj ->
          (occupied R r j <-> occupied B r dj)
          /\ (r < sm_rows B -> coeff R r j = coeff B r dj))
    /\ (forall r j, occupied R r j -> j < length dofs).
Proof.
  intros Hwf Hnd Hr.
  destruct (mark_dofs_ok (sm_cols B) dofs Hr Hnd) as (reverse & Hmark & _ & Hin & Hout).
  assert (Hm : marks dofs reverse) by (split; assumption).
  pose proof (restricted_in_range B dofs reverse Hwf Hm) as Hrange.
  exists (setFrom RowMajor (sm_rows B) (length dofs)
                  (flat_map (restricted_triplet reverse) (stored B))).
  unfold restrictJumpMatrix. rewrite Hmark. cbn [bind].
  split; [reflexivity|]. split; [now apply setFrom_wf|].
  split; [reflexivity|]. split; [reflexivity|]. split.
  - intros r j dj Hj. split.
    + rewrite (setFrom_occupied RowMajor _ _ _ r j Hrange). split.
      * intros (t & Ht & Htr & Htc).
        apply (in_restricted dofs reverse (stored B) t Hm) in Ht.
        destruct Ht as (e & i & He & Hi & ->). simpl in Htr, Htc. subst i.
        exists e. split; [assumption|]. split; [assumption|]. congruence.
      * intros (e & He & Her & Hec).
        exists (mkEntry (e_row e) j (e_val e)). split; [|auto].
        apply (in_restricted dofs reverse (stored B) _ Hm).
        exists e, j. split; [assumption|]. split; [congruence | reflexivity].
    + intros Hrow.
      rewrite setFrom_coeff; [|assumption | apply nth_error_Some; congruence].
      rewrite (sum_at_flat_map (restricted_triplet reverse) (fun v => v) r j r dj);
        [reflexivity | reflexivity |].
      intros e _. now apply (restricted_sum dofs reverse r j dj e Hm Hnd).
  - intros r j Ho.
    apply (setFrom_occupied RowMajor _ _ _ r j Hrange) in Ho.
    destruct Ho as (t & Ht & _ & Htc).
    rewrite Forall_forall in Hrange. specialize (Hrange t Ht). lia.
Qed.

(** The pattern after zero-padding: the part of the pattern of [B] that
    lies in the kept columns. *)
Lemma zeroPad_pattern (B R : JumpMatrix) (dofs : list nat) :
  wf B -> NoDup dofs -> Forall (fun d => d < sm_cols B) dofs ->
  restrictJumpMatrix B dofs = Ok R ->
  forall r c, occupied (zeroPad (sm_cols B) dofs R) r c <-> occupied B r c /\ In c dofs.
Proof.
  intros Hwf Hnd Hr HR r c.
  destruct (restrictJumpMatrix_columns B dofs Hwf Hnd Hr)
    as (R' & HR' & HwfR & Hrows & Hcols & Hcol & Hlt).
  rewrite HR in HR'. inversion HR'; subst R'. clear HR'.
  assert (Hrange : Forall (fun t => e_row t < sm_rows R /\ e_col t < sm_cols B)
                     (map (fun e => mkEntry (e_row e) (nth (e_col e) dofs 0) (e_val e)) (stored R))).
  { rewrite Forall_forall. intros t Ht. apply in_map_iff in Ht.
    destruct Ht as (e & <- & He). simpl. split.
    - now apply (stored_in_range R e HwfR).
    - rewrite Forall_forall in Hr. apply Hr. apply nth_In.
      apply (Hlt (e_row e)). exists e. auto. }
  unfold zeroPad. rewrite (setFrom_occupied RowMajor _ _ _ r c Hrange). split.
  - intros (t & Ht & Htr & Htc). apply in_map_iff in Ht.
    destruct Ht as (e & <- & He). simpl in Htr, Htc.
    assert (Hj : e_col e < length dofs) by (apply (Hlt (e_row e)); exists e; auto).
    assert (Hnth : nth_error dofs (e_col e) = Some c).
    { rewrite <- Htc. now apply nth_error_nth'. }
    split.
    + apply (Hcol r (e_col e) c Hnth). exists e. auto.
    + eapply nth_error_In. exact Hnth.
  - intros [Ho Hin]. apply In_nth_error in Hin. destruct Hin as [j Hj].
    apply (Hcol r j c Hj) in Ho. destruct Ho as (e & He & Her & Hec).
    exists (mkEntry (e_row e) (nth (e_col e) dofs 0) (e_val e)). split.
    + apply in_map_iff. exists e. auto.
    + simpl. split; [assumption|]. rewrite Hec. now apply nth_error_nth.
Qed.

(** C8, amended.  For a well-formed jump matrix [B] and a duplicate-free
    list [dofs] of valid column indices, [restrictJumpMatrix(B, dofs)]
    returns the matrix with the rows of [B] and [|dofs|] columns whose
    column [j] is column [dofs[j]] of [B], pattern and values, every other
    column being dropped.  Zero-padding the dropped columns gives back the
    part of the pattern of [B] inside the kept columns; it reproduces the
    pattern of [B] exactly when [dofs] holds every column of [B] in which
    a coefficient is stored, as [skeletonDofs(B)] does. *)
Theorem restrictJumpMatrix_spec (B : JumpMatrix) (dofs : list nat) :
  wf B -> NoDup dofs -> Forall (fun d => d < sm_cols B) dofs ->
  exists R,
    restrictJumpMatrix B dofs = Ok R
    /\ wf R /\ sm_rows R = sm_rows B /\ sm_cols R = length dofs
    /\ (forall r j dj, nth_error dofs j = Some dj ->
          (occupied R r j <-> occupied B r dj)
          /\ (r < sm_rows B -> coeff R r j = coeff B r dj))
    /\ (forall r j, occupied R r j -> j < length dofs)
    /\ (forall r c, occupied (zeroPad (sm_cols B) dofs R) r c <-> occupied B r c /\ In c dofs)
    /\ ((forall r c, occupied B r c -> In c dofs) ->
        forall r c, occupied (zeroPad (sm_cols B) dofs R) r c <-> occupied B r c).
Proof.
  intros Hwf Hnd Hr.
  destruct (restrictJumpMatrix_columns B dofs Hwf Hnd Hr)
    as (R & HR & HwfR & Hrows & Hcols & Hcol & Hlt).
  exists R. repeat (split; [assumption|]).
  pose proof (zeroPad_pattern B R dofs Hwf Hnd Hr HR) as Hpad.
  split; [exact Hpad|].
  intros Hall r c. rewrite Hpad. split; [tauto|].
  intros Ho. split; [assumption | now apply (Hall r c)].
Qed.

Definition twoByFour : JumpMatrix :=
  mkSparse RowMajor 2 4 [mkEntry 0 1 1%Qc; mkEntry 0 3 1%Qc; mkEntry 1 3 (Qcopp 1%Qc)].

Lemma twoByFour_wf : wf twoByFour.
Proof.
  split; simpl.
  - repeat constructor.
  - repeat constructor; simpl; intuition congruence.
Qed.

(** C8 at a concrete input: a 2 x 4 jump matrix restricted to the columns
    3 and 1, in that order. *)
Lemma restrictJumpMatrix_spec_witness :
  exists R,
    restrictJumpMatrix twoByFour [3; 1] = Ok R
    /\ wf R /\ sm_rows R = sm_rows twoByFour /\ sm_cols R = length [3; 1]
    /\ (forall r j dj, nth_error [3; 1] j = Some dj ->
          (occupied R r j <-> occupied twoByFour r dj)
          /\ (r < sm_rows twoByFour -> coeff R r j = coeff twoByFour r dj))
    /\ (forall r j, occupied R r j -> j < length [3; 1])
    /\ (forall r c, occupied (zeroPad (sm_cols twoByFour) [3; 1] R) r c
                    <-> occupied twoByFour r c /\ In c [3; 1])
    /\ ((forall r c, occupied twoByFour r c -> In c [3; 1]) ->
        forall r c, occupied (zeroPad (sm_cols twoByFour) [3; 1] R) r c
                    <-> occupied twoByFour r c).
Proof.
  apply (restrictJumpMatrix_spec twoByFour [3; 1]).
  - exact twoByFour_wf.
  - repeat constructor; simpl; intuition congruence.
  - repeat constructor.
Defined.

End RestrictFacts.

(* ================================================================= *)
(** ** Multiplicity scaling *)

Module MultiplicityFacts.

Import gsScaledDirichletPrec.

(** The number of rows of [jm] with a stored coefficient in column [c]. *)
Definition rows_touching (jm : JumpMatrix) (c : nat) : nat :=
  length (filter (fun r => existsb (at_pos r c) (stored jm)) (seq 0 (sm_rows jm))).

(** The number of stored coefficients in column [c]. *)
Definition stored_in_column (es : list Entry) (c : nat) : nat :=
  length (filter (fun e => e_col e =? c) es).

Lemma mapM_Forall2 (A B : Type) (f : A -> Outcome B) (P : A -> B -> Prop) (l : list A) :
  (forall a, In a l -> exists b, f a = Ok b /\ P a b) ->
  exists bs, mapM f l = Ok bs /\ Forall2 P l bs.
Proof.
  induction l as [|a l IH]; intros H.
  - exists []. split; [reflexivity | constructor].
  - destruct (H a (or_introl eq_refl)) as (b & Hb & HP).
    destruct IH as (bs & Hbs & HF); [intros a' Ha'; apply H; now right|].
    exists (b :: bs). simpl. rewrite Hb. simpl. rewrite Hbs. simpl.
    split; [reflexivity | now constructor].
Qed.

Lemma Forall2_nth_error (A B : Type) (P : A -> B -> Prop) (l : list A) (l' : list B) :
  Forall2 P l l' ->
  forall k a, nth_error l k = Some a -> exists b, nth_error l' k = Some b /\ P a b.
Proof.
  induction 1 as [|x y l l' Hxy HF IH]; intros k a Hk.
  - destruct k; discriminate Hk.
  - destruct k as [|k]; simpl in Hk.
    + inversion Hk; subst. exists y. auto.
    + apply IH. exact Hk.
Qed.

(** The loop over the stored coefficients adds one to the slot of the
    column of each of them. *)
Lemma count_columns (es : list Entry) :
  forall sc : Vec,
    Forall (fun e => e_col e < length sc) es ->
    exists sc',
      foldM (fun sc it => update sc (e_col it) (fun s => s + 1)%Qc) es sc = Ok sc'
      /\ length sc' = length sc
      /\ forall i, nth i sc' 0%Qc = (nth i sc 0 + of_nat (stored_in_column es i))%Qc.
Proof.
  induction es as [|e es IH]; intros sc Hr.
  - exists sc. split; [reflexivity|]. split; [reflexivity|].
    intros i. unfold stored_in_column. simpl. unfold of_nat. simpl.
    change (Q2Qc (inject_Z 0)) with 0%Qc. ring.
  - inversion Hr as [|? ? He Hr']; subst.
    destruct (update_ok Qc sc (e_col e) (fun s => s + 1)%Qc He) as (sc1 & Hu & Hl & Hn).
    destruct (IH sc1) as (sc2 & Hf & Hl2 & Hn2); [now rewrite Hl|].
    exists sc2. cbn [foldM]. rewrite Hu. cbn [bind].
    split; [exact Hf|]. split; [congruence|].
    intros i. rewrite Hn2, Hn. unfold stored_in_column. cbn [filter].
    rewrite (Nat.eqb_sym (e_col e) i).
    destruct (i =? e_col e) eqn:E.
    + apply Nat.eqb_eq in E. subst i. cbn [length]. rewrite of_nat_S. ring.
    + ring.
Qed.

Lemma filter_NoDup_map (f : Entry -> nat * nat) (P : Entry -> bool) (l : list Entry) :
  NoDup (map f l) -> NoDup (map f (filter P l)).
Proof.
  induction l as [|e l IH]; simpl; intros Hnd; [constructor|].
  inversion Hnd as [|? ? Hni Hnd']; subst.
  destruct (P e); simpl; [|now apply IH].
  constructor; [|now apply IH].
  intros Hin. apply Hni. apply in_map_iff in Hin. destruct Hin as (b & Hb & Hin).
  apply filter_In in Hin. apply in_map_iff. exists b. tauto.
Qed.

Lemma stored_NoDup (m : SparseMatrix) : wf m -> NoDup (map pos (stored m)).
Proof.
  intros Hwf. unfold stored, InnerIterator.
  generalize (outerSize m) as n. generalize 0 as a. intros a n. revert a.
  induction n as [|n IH]; intros a; cbn [seq flat_map]; [constructor|].
  rewrite map_app. apply NoDup_app.
  - apply filter_NoDup_map. apply Hwf.
  - apply IH.
  - intros p Hp Hq.
    apply in_map_iff in Hp. destruct Hp as (e & He & Hin).
    apply filter_In in Hin. destruct Hin as [_ Ho]. apply Nat.eqb_eq in Ho.
    apply in_map_iff in Hq. destruct Hq as (e' & He' & Hin').
    apply in_flat_map in Hin'. destruct Hin' as (i & Hi & Hin').
    apply in_seq in Hi. apply filter_In in Hin'. destruct Hin' as [_ Ho'].
    apply Nat.eqb_eq in Ho'.
    assert (Hk : outer (sm_order m) e = outer (sm_order m) e').
    { apply (same_pos_key (sm_order m)). apply same_pos_true. congruence. }
    lia.
Qed.

(** In a well-formed matrix every row has at most one stored coefficient
    in a column: counting the coefficients of a column counts rows. *)
Lemma stored_in_column_rows (jm : JumpMatrix) (c : nat) :
  wf jm -> stored_in_column (stored jm) c = rows_touching jm c.
Proof.
  intros Hwf. unfold stored_in_column, rows_touching.
  rewrite <- (length_map e_row).
  apply Permutation_length. apply NoDup_Permutation.
  - apply (NoDup_map_inv (fun r => (r, c))). rewrite map_map.
    rewrite (map_ext_in _ pos).
    + apply filter_NoDup_map. now apply stored_NoDup.
    + intros e He. apply filter_In in He. destruct He as [_ Hc].
      apply Nat.eqb_eq in Hc. unfold pos. now rewrite Hc.
  - apply NoDup_filter. apply seq_NoDup.
  - intros r. rewrite in_map_iff, filter_In, in_seq, existsb_exists. split.
    + intros (e & Her & He). apply filter_In in He. destruct He as [He Hc].
      apply Nat.eqb_eq in Hc. split.
      * pose proof (stored_in_range jm e Hwf He). lia.
      * exists e. split; [assumption|]. apply at_pos_true. auto.
    + intros (_ & e & He & Hp). apply at_pos_true in Hp. destruct Hp as [Hr Hc].
      exists e. split; [assumption|]. apply filter_In. split; [assumption|].
      now apply Nat.eqb_eq.
Qed.

Lemma Forall2_in_combine (A B : Type) (P : A -> B -> Prop) (l : list A) (l' : list B) :
  Forall2 P l l' -> forall a b, In (a, b) (combine l l') -> P a b.
Proof.
  induction 1 as [|x y l l' Hxy HF IH]; intros a b Hin; simpl in Hin; [contradiction|].
  destruct Hin as [Heq | Hin]; [inversion Heq; now subst | now apply IH].
Qed.

Lemma nth_error_combine (A B : Type) (l : list A) (l' : list B) (k : nat) (a : A) (b : B) :
  nth_error l k = Some a -> nth_error l' k = Some b ->
  nth_error (combine l l') k = Some (a, b).
Proof.
  revert l' k. induction l as [|x l IH]; intros l' k Ha Hb.
  - destruct k; discriminate Ha.
  - destruct l' as [|y l']; [destruct k; discriminate Hb|].
    destruct k as [|k]; simpl in *.
    + congruence.
    + now apply IH.
Qed.

Lemma one_le_succ (n : nat) : (1 <= 1 + of_nat n)%Qc /\ (0 < 1 + of_nat n)%Qc.
Proof.
  assert (H1 : (1 <= 1 + of_nat n)%Qc).
  { replace 1%Qc with (1 + 0)%Qc at 1 by ring.
    apply Qcplus_le_compat; [apply Qcle_refl | apply of_nat_nonneg]. }
  split; [exact H1|].
  apply Qclt_le_trans with (y := 1%Qc); [reflexivity | exact H1].
Qed.

(** The scaling vector of one subdomain. *)
Lemma multiplicity_counts (jm : JumpMatrix) (op : OpPtr) :
  wf jm -> sm_cols jm <= op_rows op ->
  exists sc,
    multiplicity jm op = Ok sc
    /\ length sc = op_rows op
    /\ forall i, i < op_rows op -> nth i sc 0%Qc = (1 + of_nat (rows_touching jm i))%Qc.
Proof.
  intros Hwf Hle. unfold multiplicity.
  destruct (count_columns (stored jm) (repeat 1%Qc (op_rows op))) as (sc & Hf & Hl & Hn).
  { rewrite Forall_forall. intros e He. rewrite repeat_length.
    pose proof (stored_in_range jm e Hwf He). lia. }
  exists sc. split; [exact Hf|]. split; [now rewrite Hl, repeat_length|].
  intros i Hi. rewrite Hn, nth_repeat_lt by assumption.
  now rewrite stored_in_column_rows.
Qed.

(** C5.  When every registered jump matrix is well-formed and has no more
    columns than its Schur operator has rows, [setupMultiplicityScaling]
    succeeds, and for every registered subdomain [k] and every local dof
    [i] the stored scaling value is 1 plus the number of rows of the jump
    matrix of [k] with a coefficient in column [i]; every scaling value is
    at least 1, hence strictly positive. *)
Theorem multiplicity_scaling_counts (st : State) :
  Forall wf (m_jumpMatrices st) ->
  Forall2 (fun jm op => sm_cols jm <= op_rows op) (m_jumpMatrices st) (m_localSchurOps st) ->
  exists st',
    setupMultiplicityScaling st = Ok st'
    /\ m_jumpMatrices st' = m_jumpMatrices st
    /\ m_localSchurOps st' = m_localSchurOps st
    /\ forall k jm op,
        nth_error (m_jumpMatrices st) k = Some jm ->
        nth_error (m_localSchurOps st) k = Some op ->
        exists sc,
          nth_error (m_localScaling st') k = Some sc
          /\ length sc = op_rows op
          /\ forall i, i < op_rows op ->
               nth i sc 0%Qc = (1 + of_nat (rows_touching jm i))%Qc
               /\ (1 <= nth i sc 0)%Qc /\ (0 < nth i sc 0)%Qc.
Proof.
  intros Hwf Hdim.
  destruct (mapM_Forall2 (JumpMatrix * OpPtr) Vec
              (fun p => multiplicity (fst p) (snd p))
              (fun p sc => length sc = op_rows (snd p)
                           /\ forall i, i < op_rows (snd p) ->
                                nth i sc 0%Qc = (1 + of_nat (rows_touching (fst p) i))%Qc)
              (combine (m_jumpMatrices st) (m_localSchurOps st)))
    as (scaling & Hmap & HF).
  { intros [jm op] Hin. simpl. apply multiplicity_counts.
    - rewrite Forall_forall in Hwf. apply Hwf. eapply in_combine_l. exact Hin.
    - exact (Forall2_in_combine _ _ _ _ _ Hdim jm op Hin). }
  exists (mkState (m_jumpMatrices st) (m_localSchurOps st)
                  (m_localScalingOps st) (m_localScalingTransOps st) scaling).
  split.
  { unfold setupMultiplicityScaling.
    rewrite (Forall2_length Hdim), Nat.eqb_refl. cbn [GISMO_ASSERT bind].
    rewrite Hmap. reflexivity. }
  cbn [m_jumpMatrices m_localSchurOps m_localScaling].
  split; [reflexivity|]. split; [reflexivity|].
  intros k jm op Hjm Hop.
  destruct (Forall2_nth_error _ _ _ _ _ HF k (jm, op) (nth_error_combine _ _ _ _ k jm op Hjm Hop))
    as (sc & Hsc & Hlen & Hval).
  exists sc. split; [exact Hsc|]. split; [exact Hlen|].
  intros i Hi. simpl in Hval. rewrite (Hval i Hi).
  split; [reflexivity | apply one_le_succ].
Qed.

Definition jump_plus : JumpMatrix := mkSparse RowMajor 1 3 [mkEntry 0 2 1%Qc].
Definition jump_minus : JumpMatrix := mkSparse RowMajor 1 3 [mkEntry 0 2 (Qcopp 1%Qc)].

(** The stiffness matrix of the 1-D Laplacian on three dofs. *)
Definition laplace3 : SparseMatrix :=
  mkSparse ColMajor 3 3
    [ mkEntry 0 0 1%Qc; mkEntry 1 0 (Qcopp 1%Qc);
      mkEntry 0 1 (Qcopp 1%Qc); mkEntry 1 1 (1 + 1)%Qc; mkEntry 2 1 (Qcopp 1%Qc);
      mkEntry 1 2 (Qcopp 1%Qc); mkEntry 2 2 1%Qc ].

Definition two_subdomains : State :=
  mkState [jump_plus; jump_minus] [makeMatrixOp laplace3; makeMatrixOp laplace3]
          [None; None] [None; None] [].

Lemma jump_plus_wf : wf jump_plus.
Proof.
  split; simpl.
  - repeat constructor.
  - repeat constructor. intros [].
Qed.

Lemma jump_minus_wf : wf jump_minus.
Proof.
  split; simpl.
  - repeat constructor.
  - repeat constructor. intros [].
Qed.

(** C5 at a concrete input: two subdomains with the jump rows [0, 0, 1]
    and [0, 0, -1]. *)
Lemma multiplicity_scaling_counts_witness :
  exists st',
    setupMultiplicityScaling two_subdomains = Ok st'
    /\ m_jumpMatrices st' = m_jumpMatrices two_subdomains
    /\ m_localSchurOps st' = m_localSchurOps two_subdomains
    /\ forall k jm op,
        nth_error (m_jumpMatrices two_subdomains) k = Some jm ->
        nth_error (m_localSchurOps two_subdomains) k = Some op ->
        exists sc,
          nth_error (m_localScaling st') k = Some sc
          /\ length sc = op_rows op
          /\ forall i, i < op_rows op ->
               nth i sc 0%Qc = (1 + of_nat (rows_touching jm i))%Qc
               /\ (1 <= nth i sc 0)%Qc /\ (0 < nth i sc 0)%Qc.
Proof.
  apply (multiplicity_scaling_counts two_subdomains).
  - constructor; [apply jump_plus_wf | constructor; [apply jump_minus_wf | constructor]].
  - repeat constructor.
Defined.

End MultiplicityFacts.

(* ================================================================= *)
(** ** The block partition and the Schur complement *)

Module SchurFacts.

Import gsScaledDirichletPrec.

(** The interior indices: those of [0 .. n-1] that are not kept, in
    increasing order. *)
Definition interior (n : nat) (dofs : list nat) : list nat :=
  filter (fun c => negb (existsb (Nat.eqb c) dofs)) (seq 0 n).

(** The indices at which [reverse] holds zero. *)
Definition zeros (reverse : list Z) : list nat :=
  filter (fun c => (at_index reverse c =? 0)%Z) (seq 0 (length reverse)).

Lemma zeros_cons (r : Z) (reverse : list Z) :
  zeros (r :: reverse)
  = (if (r =? 0)%Z then [0] else []) ++ map S (zeros reverse).
Proof.
  unfold zeros. cbn [length seq filter]. unfold at_index at 1. cbn [nth].
  rewrite <- seq_shift.
  assert (Hmap : forall l, filter (fun c => (at_index (r :: reverse) c =? 0)%Z) (map S l)
                           = map S (filter (fun c => (at_index reverse c =? 0)%Z) l)).
  { induction l as [|a l IH]; [reflexivity|]. cbn [map filter].
    unfold at_index at 1. cbn [nth]. fold (at_index reverse a).
    destruct (at_index reverse a =? 0)%Z; cbn [map]; now rewrite IH. }
  rewrite Hmap. now destruct (r =? 0)%Z.
Qed.

Lemma number_rest_nonzero (reverse : list Z) :
  forall (j : Z) (c : nat),
    at_index reverse c <> 0%Z -> at_index (number_rest reverse j) c = at_index reverse c.
Proof.
  unfold at_index. induction reverse as [|r reverse IH]; intros j c Hc.
  - destruct c; simpl in Hc; congruence.
  - cbn [number_rest]. destruct c as [|c]; simpl in Hc.
    + destruct (r =? 0)%Z eqn:E; [apply Z.eqb_eq in E; congruence | reflexivity].
    + destruct (r =? 0)%Z; simpl; now apply IH.
Qed.

Lemma number_rest_zero (reverse : list Z) :
  forall (j : Z) (k c : nat),
    nth_error (zeros reverse) k = Some c ->
    at_index (number_rest reverse j) c = (j - 1 - Z.of_nat k)%Z.
Proof.
  unfold at_index. induction reverse as [|r reverse IH]; intros j k c Hk.
  - destruct k; discriminate Hk.
  - rewrite zeros_cons in Hk. cbn [number_rest].
    destruct (r =? 0)%Z eqn:E; cbn [app] in Hk.
    + destruct k as [|k]; simpl in Hk.
      * inversion Hk; subst c. simpl. lia.
      * rewrite nth_error_map in Hk.
        destruct (nth_error (zeros reverse) k) as [c'|] eqn:Ec; [|discriminate Hk].
        inversion Hk; subst c. simpl. rewrite (IH (j - 1)%Z k c' Ec). lia.
    + rewrite nth_error_map in Hk.
      destruct (nth_error (zeros reverse) k) as [c'|] eqn:Ec; [|discriminate Hk].
      inversion Hk; subst c. simpl. now apply IH.
Qed.

Lemma existsb_eqb_In (c : nat) (l : list nat) : existsb (Nat.eqb c) l = true <-> In c l.
Proof.
  rewrite existsb_exists. split.
  - intros (x & Hx & E). apply Nat.eqb_eq in E. now subst.
  - intros H. exists c. split; [assumption | apply Nat.eqb_refl].
Qed.

Lemma in_interior (n : nat) (dofs : list nat) (c : nat) :
  In c (interior n dofs) <-> c < n /\ ~ In c dofs.
Proof.
  unfold interior. rewrite filter_In, in_seq, negb_true_iff.
  rewrite <- (existsb_eqb_In c dofs). destruct (existsb (Nat.eqb c) dofs); intuition (try lia; congruence).
Qed.

Lemma interior_NoDup (n : nat) (dofs : list nat) : NoDup (interior n dofs).
Proof.
  unfold interior. apply NoDup_filter. apply seq_NoDup.
Qed.

Lemma interior_zeros (n : nat) (dofs : list nat) (reverse : list Z) :
  RestrictFacts.marks dofs reverse -> length reverse = n ->
  interior n dofs = zeros reverse.
Proof.
  intros [Hin Hout] Hlen. unfold interior, zeros. rewrite Hlen.
  apply filter_ext_in. intros c _.
  destruct (marked_or_not dofs c) as [[i Hi] | Hni].
  - rewrite (Hin i c Hi).
    replace (existsb (Nat.eqb c) dofs) with true
      by (symmetry; apply existsb_eqb_In; eapply nth_error_In; exact Hi).
    simpl. symmetry. apply Z.eqb_neq. lia.
  - rewrite (Hout c Hni).
    destruct (existsb (Nat.eqb c) dofs) eqn:E; [|reflexivity].
    apply existsb_eqb_In in E. contradiction.
Qed.

Lemma interior_length (n : nat) (dofs : list nat) :
  NoDup dofs -> Forall (fun d => d < n) dofs ->
  length (interior n dofs) = n - length dofs.
Proof.
  intros Hnd Hr.
  assert (Hperm : Permutation (seq 0 n) (dofs ++ interior n dofs)).
  { apply NoDup_Permutation.
    - apply seq_NoDup.
    - apply NoDup_app; [assumption | apply interior_NoDup|].
      intros c Hc Hi. apply in_interior in Hi. tauto.
    - intros c. rewrite in_seq, in_app_iff, in_interior.
      rewrite Forall_forall in Hr. split.
      + intros Hc. destruct (in_dec Nat.eq_dec c dofs); [now left | right; split; [lia | assumption]].
      + intros [Hc | [Hc _]]; [specialize (Hr c Hc)|]; lia. }
  apply Permutation_length in Hperm. rewrite length_seq, length_app in Hperm. lia.
Qed.

(** The two loops over [reverse] together: a kept index carries its place
    in [dofs] plus one, an interior index minus its place in the interior
    list minus one. *)
Definition coded (inside : bool) (dofs : list nat) (n : nat) (reverse : list Z)
           (i c : nat) : Prop :=
  if inside
  then nth_error (interior n dofs) i = Some c /\ at_index reverse c = (- Z.of_nat i - 1)%Z
  else nth_error dofs i = Some c /\ at_index reverse c = (Z.of_nat i + 1)%Z.

Lemma reverse_codes (n : nat) (dofs : list nat) :
  NoDup dofs -> Forall (fun d => d < n) dofs ->
  exists reverse,
    mark_dofs n dofs = Ok reverse
    /\ forall c, c < n ->
         exists inside i, coded inside dofs n (number_rest reverse 0%Z) i c.
Proof.
  intros Hnd Hr.
  destruct (mark_dofs_ok n dofs Hr Hnd) as (reverse & Hmark & Hlen & Hin & Hout).
  exists reverse. split; [exact Hmark|].
  intros c Hc. destruct (marked_or_not dofs c) as [[i Hi] | Hni].
  - exists false, i. simpl. split; [exact Hi|].
    rewrite number_rest_nonzero; rewrite (Hin i c Hi); lia.
  - assert (Hint : In c (interior n dofs)) by (apply in_interior; tauto).
    apply In_nth_error in Hint. destruct Hint as [k Hk].
    exists true, k. simpl. split; [exact Hk|].
    rewrite (interior_zeros n dofs reverse (conj Hin Hout) Hlen) in Hk.
    rewrite (number_rest_zero reverse 0%Z k c Hk). lia.
Qed.

(** The two index lists, and the parts of the loop state and of the result
    they select: [false] for the kept indices, [true] for the interior. *)
Definition indices (inside : bool) (dofs : list nat) (n : nat) : list nat :=
  if inside then interior n dofs else dofs.

Definition sel (ri ci : bool) (se : Triplets) : list Entry :=
  match ri, ci with
  | false, false => se_A00 se
  | false, true => se_A01 se
  | true, false => se_A10 se
  | true, true => se_A11 se
  end.

Definition blk (ri ci : bool) (b : Blocks) : SparseMatrix :=
  match ri, ci with
  | false, false => A00 b
  | false, true => A01 b
  | true, false => A10 b
  | true, true => A11 b
  end.

(** The sign with which a coefficient enters a block: [A11] is negated. *)
Definition signed (ri ci : bool) (v : T) : T := if ri && ci then (- v)%Qc else v.

Lemma coded_indices (inside : bool) (dofs : list nat) (n : nat) (reverse : list Z) (i c : nat) :
  coded inside dofs n reverse i c -> nth_error (indices inside dofs n) i = Some c.
Proof.
  unfold coded, indices. destruct inside; tauto.
Qed.

Lemma indices_NoDup (inside : bool) (dofs : list nat) (n : nat) :
  NoDup dofs -> NoDup (indices inside dofs n).
Proof.
  destruct inside; simpl; [intros _; apply interior_NoDup | auto].
Qed.

Lemma indices_disjoint (a b : bool) (dofs : list nat) (n : nat) (i j c d : nat) :
  a <> b ->
  nth_error (indices a dofs n) i = Some c -> nth_error (indices b dofs n) j = Some d ->
  c <> d.
Proof.
  intros Hab Hc Hd Heq. subst d.
  apply nth_error_In in Hc. apply nth_error_In in Hd.
  destruct a, b; simpl in *; try congruence;
    match goal with H : In c (interior _ _) |- _ => apply in_interior in H end; tauto.
Qed.

Lemma classify_coded (dofs : list nat) (n : nat) (reverse : list Z) (se : Triplets)
      (e : Entry) (ri ci : bool) (i j : nat) :
  coded ri dofs n reverse i (e_row e) -> coded ci dofs n reverse j (e_col e) ->
  forall ri' ci',
    sel ri' ci' (classify reverse se e)
    = sel ri' ci' se
      ++ (if Bool.eqb ri ri' && Bool.eqb ci ci'
          then [mkEntry i j (signed ri ci (e_val e))] else []).
Proof.
  intros Hr Hc ri' ci'. unfold classify.
  destruct ri, ci; simpl in Hr, Hc; destruct Hr as [_ Hr]; destruct Hc as [_ Hc];
    rewrite Hr, Hc.
  - replace (0 <? - Z.of_nat i - 1)%Z with false by (symmetry; apply Z.ltb_ge; lia).
    replace (- Z.of_nat i - 1 <? 0)%Z with true by (symmetry; apply Z.ltb_lt; lia).
    replace (0 <? - Z.of_nat j - 1)%Z with false by (symmetry; apply Z.ltb_ge; lia).
    cbn [andb].
    replace (Z.to_nat (- (- Z.of_nat i - 1) - 1)) with i by lia.
    replace (Z.to_nat (- (- Z.of_nat j - 1) - 1)) with j by lia.
    destruct ri', ci'; simpl; now rewrite ?app_nil_r.
  - replace (0 <? - Z.of_nat i - 1)%Z with false by (symmetry; apply Z.ltb_ge; lia).
    replace (- Z.of_nat i - 1 <? 0)%Z with true by (symmetry; apply Z.ltb_lt; lia).
    replace (0 <? Z.of_nat j + 1)%Z with true by (symmetry; apply Z.ltb_lt; lia).
    cbn [andb].
    replace (Z.to_nat (- (- Z.of_nat i - 1) - 1)) with i by lia.
    replace (Z.to_nat (Z.of_nat j + 1 - 1)) with j by lia.
    destruct ri', ci'; simpl; now rewrite ?app_nil_r.
  - replace (0 <? Z.of_nat i + 1)%Z with true by (symmetry; apply Z.ltb_lt; lia).
    replace (0 <? - Z.of_nat j - 1)%Z with false by (symmetry; apply Z.ltb_ge; lia).
    replace (- Z.of_nat j - 1 <? 0)%Z with true by (symmetry; apply Z.ltb_lt; lia).
    cbn [andb].
    replace (Z.to_nat (Z.of_nat i + 1 - 1)) with i by lia.
    replace (Z.to_nat (- (- Z.of_nat j - 1) - 1)) with j by lia.
    destruct ri', ci'; simpl; now rewrite ?app_nil_r.
  - replace (0 <? Z.of_nat i + 1)%Z with true by (symmetry; apply Z.ltb_lt; lia).
    replace (0 <? Z.of_nat j + 1)%Z with true by (symmetry; apply Z.ltb_lt; lia).
    cbn [andb].
    replace (Z.to_nat (Z.of_nat i + 1 - 1)) with i by lia.
    replace (Z.to_nat (Z.of_nat j + 1 - 1)) with j by lia.
    destruct ri', ci'; simpl; now rewrite ?app_nil_r.
Qed.

Section Partition.

Variables (dofs : list nat) (n : nat) (reverse : list Z).
Hypothesis dofs_NoDup : NoDup dofs.
Hypothesis codes : forall c, c < n -> exists inside i, coded inside dofs n reverse i c.

Lemma index_eqb (a : bool) (i0 i c d : nat) :
  nth_error (indices a dofs n) i0 = Some c -> nth_error (indices a dofs n) i = Some d ->
  (i0 =? i) = (c =? d).
Proof.
  intros Hc Hd. destruct (i0 =? i) eqn:E1; destruct (c =? d) eqn:E2; try reflexivity;
    exfalso; nat_bool.
  - subst i0. congruence.
  - subst d. apply E1.
    apply (proj1 (NoDup_nth_error (indices a dofs n)) (indices_NoDup a dofs n dofs_NoDup));
      [apply nth_error_Some|]; congruence.
Qed.

(** One stored coefficient of the matrix, seen from block [(ri, ci)] at the
    block position [(i, j)] that stands for the position [(di, dj)]. *)
Lemma classified_sum (e : Entry) (ri0 ci0 : bool) (i0 j0 : nat) (ri ci : bool) (i j di dj : nat) :
  coded ri0 dofs n reverse i0 (e_row e) -> coded ci0 dofs n reverse j0 (e_col e) ->
  nth_error (indices ri dofs n) i = Some di -> nth_error (indices ci dofs n) j = Some dj ->
  sum_at i j (if Bool.eqb ri0 ri && Bool.eqb ci0 ci
              then [mkEntry i0 j0 (signed ri0 ci0 (e_val e))] else [])
  = if at_pos di dj e then signed ri ci (e_val e) else 0%Qc.
Proof.
  intros Hr Hc Hi Hj.
  apply coded_indices in Hr. apply coded_indices in Hc.
  destruct (Bool.eqb ri0 ri) eqn:Er.
  - apply eqb_prop in Er. subst ri0.
    destruct (Bool.eqb ci0 ci) eqn:Ec.
    + apply eqb_prop in Ec. subst ci0. cbn [andb].
      rewrite sum_at_cons. unfold sum_at, at_pos. cbn [filter map vsum e_row e_col e_val].
      rewrite (index_eqb ri i0 i (e_row e) di Hr Hi), (index_eqb ci j0 j (e_col e) dj Hc Hj).
      destruct ((e_row e =? di) && (e_col e =? dj)); cbn [vsum fold_right]; ring.
    + cbn [andb]. unfold sum_at at 1. cbn [filter map vsum fold_right]. unfold at_pos.
      replace (e_col e =? dj) with false; [now rewrite andb_false_r|].
      symmetry. apply Nat.eqb_neq.
      apply (indices_disjoint ci0 ci dofs n j0 j); [|assumption..].
      intros ->. now rewrite eqb_reflx in Ec.
  - cbn [andb]. unfold sum_at at 1. cbn [filter map vsum fold_right]. unfold at_pos.
    replace (e_row e =? di) with false; [reflexivity|].
    symmetry. apply Nat.eqb_neq.
    apply (indices_disjoint ri0 ri dofs n i0 i); [|assumption..].
    intros ->. now rewrite eqb_reflx in Er.
Qed.

(** The triplet loop, block by block: what it adds to the sum at a block
    position is the sum of the stored coefficients of the matrix at the
    position it stands for. *)
Lemma classify_fold_sum (es : list Entry) :
  Forall (fun e => e_row e < n /\ e_col e < n) es ->
  forall (se : Triplets) (ri ci : bool) (i j di dj : nat),
    nth_error (indices ri dofs n) i = Some di -> nth_error (indices ci dofs n) j = Some dj ->
    sum_at i j (sel ri ci (fold_left (classify reverse) es se))
    = (sum_at i j (sel ri ci se)
       + vsum (map (fun e => signed ri ci (e_val e)) (filter (at_pos di dj) es)))%Qc.
Proof.
  induction es as [|e es IH]; intros Hr se ri ci i j di dj Hi Hj.
  - simpl. ring.
  - inversion Hr as [|? ? [Her Hec] Hr']; subst.
    destruct (codes (e_row e) Her) as (ri0 & i0 & Hcr).
    destruct (codes (e_col e) Hec) as (ci0 & j0 & Hcc).
    cbn [fold_left]. rewrite (IH Hr' _ ri ci i j di dj Hi Hj).
    rewrite (classify_coded dofs n reverse se e ri0 ci0 i0 j0 Hcr Hcc ri ci).
    rewrite sum_at_app.
    rewrite (classified_sum e ri0 ci0 i0 j0 ri ci i j di dj Hcr Hcc Hi Hj).
    cbn [filter]. destruct (at_pos di dj e); unfold sum_at, vsum; cbn [map fold_right]; ring.
Qed.

Lemma classify_fold_range (es : list Entry) :
  Forall (fun e => e_row e < n /\ e_col e < n) es ->
  forall (se : Triplets) (ri ci : bool),
    Forall (fun t => e_row t < length (indices ri dofs n)
                     /\ e_col t < length (indices ci dofs n)) (sel ri ci se) ->
    Forall (fun t => e_row t < length (indices ri dofs n)
                     /\ e_col t < length (indices ci dofs n))
           (sel ri ci (fold_left (classify reverse) es se)).
Proof.
  induction es as [|e es IH]; intros Hr se ri ci Hse.
  - exact Hse.
  - inversion Hr as [|? ? [Her Hec] Hr']; subst.
    destruct (codes (e_row e) Her) as (ri0 & i0 & Hcr).
    destruct (codes (e_col e) Hec) as (ci0 & j0 & Hcc).
    cbn [fold_left]. apply (IH Hr').
    rewrite (classify_coded dofs n reverse se e ri0 ci0 i0 j0 Hcr Hcc ri ci).
    apply Forall_app. split; [exact Hse|].
    destruct (Bool.eqb ri0 ri) eqn:Er; [|constructor].
    destruct (Bool.eqb ci0 ci) eqn:Ec; [|constructor].
    apply eqb_prop in Er. apply eqb_prop in Ec. subst ri0 ci0.
    cbn [andb]. constructor; [|constructor]. cbn [e_row e_col].
    apply coded_indices in Hcr. apply coded_indices in Hcc.
    split; apply nth_error_Some; congruence.
Qed.

End Partition.

(** Modelled from the spec: the block of [M] with the rows [rs] and the
    columns [cs], in the order given, applied to a vector; [A00] is the
    block of the kept indices, [A11] that of the interior indices, [A01]
    and [A10] the two couplings. *)
Definition block_apply (M : SparseMatrix) (rs cs : list nat) (x : Vec) : Vec :=
  map (fun r => bigsum (length cs) (fun j => coeff M r (nth j cs 0%nat) * nth j x 0)%Qc) rs.

(** The interior block is nonsingular. *)
Definition nonsingular_block (M : SparseMatrix) (rs : list nat) : Prop :=
  forall u v : Vec,
    length u = length rs -> length v = length rs ->
    block_apply M rs rs u = block_apply M rs rs v -> u = v.

(** [solver] realizes the inverse of [N]. *)
Definition realizes_inverse (N : SparseMatrix) (solver : Op) : Prop :=
  forall y : Vec,
    length y = sm_rows N ->
    length (op_apply solver y) = sm_cols N /\ mulvec N (op_apply solver y) = y.

Lemma signed_sum (ri ci : bool) (l : list Entry) :
  vsum (map (fun e => signed ri ci (e_val e)) l) = signed ri ci (vsum (map e_val l)).
Proof.
  unfold signed. destruct (ri && ci); [|reflexivity].
  apply (vsum_map_opp Entry e_val).
Qed.

Lemma number_rest_length (reverse : list Z) :
  forall j : Z, length (number_rest reverse j) = length reverse.
Proof.
  induction reverse as [|r reverse IH]; intros j; [reflexivity|].
  cbn [number_rest]. destruct (r =? 0)%Z; cbn [length]; now rewrite IH.
Qed.

Lemma read_in_range (A : Type) (v : list A) (i : nat) :
  i < length v -> exists a, read v i = Ok a.
Proof.
  intros Hi. unfold read. destruct (nth_error v i) as [a|] eqn:E.
  - now exists a.
  - apply nth_error_None in E. lia.
Qed.

(** With every index within [reverse], the triplet loop runs to its end. *)
Lemma classify_loop_ok (reverse : list Z) (es : list Entry) :
  Forall (fun e => e_row e < length reverse /\ e_col e < length reverse) es ->
  forall se : Triplets,
    foldM (classify_step reverse) es se = Ok (fold_left (classify reverse) es se).
Proof.
  induction es as [|e es IH]; intros Hr se; [reflexivity|].
  apply Forall_cons_iff in Hr. destruct Hr as [[Her Hec] Hr].
  cbn [foldM fold_left]. unfold classify_step at 1.
  destruct (read_in_range Z reverse (e_row e) Her) as [a ->].
  destruct (read_in_range Z reverse (e_col e) Hec) as [c ->].
  cbn [bind]. now apply IH.
Qed.

Lemma setFrom_checked_ok (o : StorageOrder) (rows cols : nat) (ts : list Entry) :
  Forall (fun t => e_row t < rows /\ e_col t < cols) ts ->
  setFrom_checked o rows cols ts = Ok (setFrom o rows cols ts).
Proof.
  intros H. unfold setFrom_checked.
  replace (forallb (fits rows cols) ts) with true; [reflexivity|].
  symmetry. apply forallb_forall. rewrite Forall_forall in H.
  intros t Ht. destruct (H t Ht) as [Hr Hc]. unfold fits.
  apply andb_true_iff. split; now apply Nat.ltb_lt.
Qed.

Lemma dofs_fit (n : nat) (dofs : list nat) :
  NoDup dofs -> Forall (fun d => d < n) dofs -> length dofs <= n.
Proof.
  intros Hnd Hr.
  assert (H : length dofs <= length (seq 0 n)).
  { apply NoDup_incl_length; [exact Hnd|].
    intros d Hd. rewrite Forall_forall in Hr. apply in_seq. specialize (Hr d Hd). lia. }
  now rewrite length_seq in H.
Qed.

Lemma idivide_ok (site : DivSite) (a b : nat) :
  b <> 0 -> idivide site a b = Ok (a / b).
Proof.
  intros Hb. unfold idivide. destruct (Nat.eqb_spec b 0) as [E|_]; [contradiction | reflexivity].
Qed.

Lemma matrixBlocks_ok (M : SparseMatrix) (dofs : list nat) :
  wf M -> sm_rows M = sm_cols M -> sm_rows M <> 0 ->
  NoDup dofs -> Forall (fun d => d < sm_cols M) dofs ->
  exists b,
    matrixBlocks M dofs = Ok b
    /\ forall ri ci,
         sm_rows (blk ri ci b) = length (indices ri dofs (sm_cols M))
         /\ sm_cols (blk ri ci b) = length (indices ci dofs (sm_cols M))
         /\ forall i j di dj,
              nth_error (indices ri dofs (sm_cols M)) i = Some di ->
              nth_error (indices ci dofs (sm_cols M)) j = Some dj ->
              coeff (blk ri ci b) i j = signed ri ci (coeff M di dj).
Proof.
  intros Hwf Hsq Hpos Hnd Hr.
  destruct (reverse_codes (sm_cols M) dofs Hnd Hr) as (reverse & Hmark & Hcodes).
  destruct (mark_dofs_ok (sm_cols M) dofs Hr Hnd) as (reverse' & Hmark' & Hrl & _).
  assert (reverse' = reverse) by congruence. subst reverse'.
  pose proof (interior_length (sm_cols M) dofs Hnd Hr) as Hlen.
  pose proof (dofs_fit (sm_cols M) dofs Hnd Hr) as Hfit.
  assert (Hrange : Forall (fun e => e_row e < sm_cols M /\ e_col e < sm_cols M) (stored M)).
  { rewrite Forall_forall. intros e He.
    pose proof (stored_in_range M e Hwf He). lia. }
  assert (Hdims : forall a : bool,
             (if a then sm_rows M - length dofs else length dofs)
             = length (indices a dofs (sm_cols M))).
  { intros [|]; simpl; [rewrite Hlen; lia | reflexivity]. }
  set (se := fold_left (classify (number_rest reverse 0%Z)) (stored M) (mkTriplets [] [] [] [])).
  assert (Hfr : forall ri ci : bool,
             Forall (fun t => e_row t < (if ri then sm_rows M - length dofs else length dofs)
                              /\ e_col t < (if ci then sm_rows M - length dofs else length dofs))
                    (sel ri ci se)).
  { intros ri ci. rewrite (Hdims ri), (Hdims ci).
    apply (classify_fold_range dofs (sm_cols M) (number_rest reverse 0%Z) Hcodes
             (stored M) Hrange (mkTriplets [] [] [] []) ri ci).
    destruct ri, ci; constructor. }
  exists (mkBlocks
            (setFrom ColMajor (length dofs) (length dofs) (se_A00 se))
            (setFrom ColMajor (length dofs) (sm_rows M - length dofs) (se_A01 se))
            (setFrom ColMajor (sm_rows M - length dofs) (length dofs) (se_A10 se))
            (setFrom ColMajor (sm_rows M - length dofs) (sm_rows M - length dofs) (se_A11 se))).
  split.
  { unfold matrixBlocks. rewrite Hmark. cbn [bind].
    rewrite (idivide_ok SiteReserve _ _ Hpos). cbn [bind].
    rewrite classify_loop_ok by (now rewrite number_rest_length, Hrl).
    cbn [bind]. fold se. unfold interiorSize.
    replace (length dofs <=? sm_rows M) with true
      by (symmetry; apply Nat.leb_le; lia).
    cbn [GISMO_ASSERT bind].
    rewrite (setFrom_checked_ok _ _ _ _ (Hfr false false)). cbn [bind].
    rewrite (setFrom_checked_ok _ _ _ _ (Hfr true false)). cbn [bind].
    rewrite (setFrom_checked_ok _ _ _ _ (Hfr false true)). cbn [bind].
    rewrite (setFrom_checked_ok _ _ _ _ (Hfr true true)). cbn [bind].
    reflexivity. }
  intros ri ci.
  pose proof (classify_fold_sum dofs (sm_cols M) (number_rest reverse 0%Z) Hnd Hcodes
                (stored M) Hrange (mkTriplets [] [] [] []) ri ci) as Hfs.
  assert (Hempty : sel ri ci (mkTriplets [] [] [] []) = []) by (now destruct ri, ci).
  rewrite Hempty in Hfs. fold se in Hfs.
  pose proof (Hdims ri) as Hdr. pose proof (Hdims ci) as Hdc.
  destruct ri, ci; cbn [blk A00 A01 A10 A11 sel] in *;
    (split; [cbn [setFrom sm_rows]; assumption|]);
    (split; [cbn [setFrom sm_cols]; assumption|]);
    intros i j di dj Hi Hj;
    (rewrite setFrom_coeff;
     [ rewrite (Hfs i j di dj Hi Hj), signed_sum; unfold sum_at, coeff; simpl; ring
     | rewrite Hdr; apply nth_error_Some; congruence
     | rewrite Hdc; apply nth_error_Some; congruence ]).
Qed.

Lemma map_seq_nth_error (A : Type) (l : list nat) (g : nat -> A) (h : nat -> A) :
  (forall i a, nth_error l i = Some a -> g i = h a) ->
  map g (seq 0 (length l)) = map h l.
Proof.
  intros H.
  assert (Hgen : forall l' k, (forall i a, nth_error l' i = Some a -> g (k + i) = h a) ->
                              map g (seq k (length l')) = map h l').
  { induction l' as [|a l' IH]; intros k Hk; [reflexivity|].
    cbn [length seq map]. f_equal.
    - rewrite <- (Hk 0 a eq_refl). f_equal. lia.
    - apply IH. intros i a' Hi. rewrite <- (Hk (S i) a' Hi). f_equal. lia. }
  apply (Hgen l 0). intros i a Hi. now apply H.
Qed.

(** The product with a block the code built is the product with the block
    of [M] it stands for, negated in the case of [A11]. *)
Lemma mulvec_blk (M : SparseMatrix) (dofs : list nat) (b : Blocks) (ri ci : bool) (x : Vec) :
  (sm_rows (blk ri ci b) = length (indices ri dofs (sm_cols M))
   /\ sm_cols (blk ri ci b) = length (indices ci dofs (sm_cols M))
   /\ forall i j di dj,
        nth_error (indices ri dofs (sm_cols M)) i = Some di ->
        nth_error (indices ci dofs (sm_cols M)) j = Some dj ->
        coeff (blk ri ci b) i j = signed ri ci (coeff M di dj)) ->
  mulvec (blk ri ci b) x
  = map (signed ri ci)
        (block_apply M (indices ri dofs (sm_cols M)) (indices ci dofs (sm_cols M)) x).
Proof.
  intros (Hrows & Hcols & Hcoeff). unfold mulvec, block_apply.
  rewrite Hrows, Hcols, map_map.
  apply map_seq_nth_error. intros i di Hi.
  unfold bigsum.
  rewrite (vsum_map_ext nat
             (fun j => (coeff (blk ri ci b) i j * nth j x 0)%Qc)
             (fun j => signed ri ci
                         (coeff M di (nth j (indices ci dofs (sm_cols M)) 0%nat) * nth j x 0)%Qc)).
  - unfold signed. destruct (ri && ci); [|reflexivity].
    apply (vsum_map_opp nat).
  - intros j Hj. apply in_seq in Hj.
    rewrite (Hcoeff i j di (nth j (indices ci dofs (sm_cols M)) 0) Hi).
    + unfold signed. destruct (ri && ci); ring.
    + apply nth_error_nth'. lia.
Qed.

Lemma vopp_vopp (u : Vec) : vopp (vopp u) = u.
Proof.
  unfold vopp. rewrite map_map. rewrite <- (map_id u) at 2.
  apply map_ext. intros a. ring.
Qed.

Lemma vadd_vopp (a b : Vec) : vadd a (vopp b) = vsub a b.
Proof.
  unfold vadd, vsub, vopp. revert b.
  induction a as [|x a IH]; intros [|y b]; simpl; try reflexivity.
  now rewrite IH.
Qed.

Lemma vsub_map_zero (A : Type) (f : A -> T) (l : list A) :
  vsub (map f l) (map (fun _ => 0%Qc) l) = map f l.
Proof.
  unfold vsub. induction l as [|a l IH]; simpl; [reflexivity|].
  rewrite IH. f_equal. ring.
Qed.

Lemma nth_vopp (u : Vec) (j : nat) : nth j (vopp u) 0%Qc = (- nth j u 0)%Qc.
Proof.
  unfold vopp. change 0%Qc with (- 0)%Qc at 1. apply map_nth.
Qed.

Lemma block_apply_length (M : SparseMatrix) (rs cs : list nat) (x : Vec) :
  length (block_apply M rs cs x) = length rs.
Proof.
  unfold block_apply. apply length_map.
Qed.

Lemma block_apply_vopp (M : SparseMatrix) (rs cs : list nat) (u : Vec) :
  block_apply M rs cs (vopp u) = vopp (block_apply M rs cs u).
Proof.
  unfold block_apply, vopp at 2. rewrite map_map. apply map_ext. intros r.
  unfold bigsum. rewrite <- (vsum_map_opp nat).
  apply vsum_map_ext. intros j _. rewrite nth_vopp. ring.
Qed.

Lemma interior_full (n : nat) : interior n (seq 0 n) = [].
Proof.
  unfold interior.
  assert (H : forall l, (forall c, In c l -> In c (seq 0 n)) ->
                        filter (fun c => negb (existsb (Nat.eqb c) (seq 0 n))) l = []).
  { induction l as [|a l IH]; intros Hl; [reflexivity|]. simpl.
    replace (existsb (Nat.eqb a) (seq 0 n)) with true.
    - simpl. apply IH. intros c Hc. apply Hl. now right.
    - symmetry. apply existsb_eqb_In. apply Hl. now left. }
  apply H. auto.
Qed.

Lemma block_apply_full (M : SparseMatrix) (x : Vec) :
  sm_rows M = sm_cols M ->
  block_apply M (seq 0 (sm_cols M)) (seq 0 (sm_cols M)) x = mulvec M x.
Proof.
  intros Hsq. unfold block_apply, mulvec. rewrite Hsq, length_seq.
  apply map_ext. intros r. apply bigsum_ext. intros j Hj.
  now rewrite seq_nth.
Qed.

Section WithSolver.

Variable makeSparseCholeskySolver : SparseMatrix -> Outcome Op.

(** C3.  For a well-formed square matrix [M] with at least one row and a
    duplicate-free list [dofs] of kept indices with nonsingular interior
    block, and a factorization that succeeds on the interior block with a
    solver that realizes its inverse, the operator returned by
    [schurComplement(M, dofs)] applied to [x] is [A00 x - A01 z], where
    [z] is the solution of [A11 z = A10 x], that is
    [(A00 - A01 A11^{-1} A10) x]; when [dofs] is the full index set
    [0 .. n-1] the result is [M x]. *)
Theorem schurComplement_refines (M : SparseMatrix) (dofs : list nat) (x z : Vec) :
  wf M -> sm_rows M = sm_cols M -> sm_rows M <> 0 ->
  NoDup dofs -> Forall (fun d => d < sm_cols M) dofs ->
  length x = length dofs ->
  nonsingular_block M (interior (sm_cols M) dofs) ->
  (forall b, matrixBlocks M dofs = Ok b ->
             exists solver,
               makeSparseCholeskySolver (A11 b) = Ok solver
               /\ realizes_inverse (A11 b) solver) ->
  length z = length (interior (sm_cols M) dofs) ->
  block_apply M (interior (sm_cols M) dofs) (interior (sm_cols M) dofs) z
  = block_apply M (interior (sm_cols M) dofs) dofs x ->
  exists S,
    schurComplement makeSparseCholeskySolver M dofs = Ok S
    /\ op_apply S x
       = vsub (block_apply M dofs dofs x)
              (block_apply M dofs (interior (sm_cols M) dofs) z)
    /\ (dofs = seq 0 (sm_cols M) -> op_apply S x = mulvec M x).
Proof.
  intros Hwf Hsq Hpos Hnd Hr Hx Hns Hsolver Hz Hzeq.
  destruct (matrixBlocks_ok M dofs Hwf Hsq Hpos Hnd Hr) as (b & Hb & Hblk).
  destruct (Hsolver b Hb) as (solver & Hfact & Hinv).
  set (inner := interior (sm_cols M) dofs) in *.
  pose proof (mulvec_blk M dofs b false false x (Hblk false false)) as H00.
  pose proof (mulvec_blk M dofs b true false x (Hblk true false)) as H10.
  rewrite (map_ext (signed false false) (fun v => v)), map_id in H00 by reflexivity.
  rewrite (map_ext (signed true false) (fun v => v)), map_id in H10 by reflexivity.
  change (mulvec (A00 b) x = block_apply M dofs dofs x) in H00.
  change (mulvec (A10 b) x = block_apply M inner dofs x) in H10.
  destruct (Hblk true true) as (Hr11 & Hc11 & _).
  change (sm_rows (A11 b) = length inner) in Hr11.
  change (sm_cols (A11 b) = length inner) in Hc11.
  destruct (Hinv (mulvec (A10 b) x)) as [Hwlen Hw].
  { rewrite H10, block_apply_length. now rewrite Hr11. }
  set (w := op_apply solver (mulvec (A10 b) x)) in *.
  pose proof (mulvec_blk M dofs b true true w (Hblk true true)) as H11.
  pose proof (mulvec_blk M dofs b false true w (Hblk false true)) as H01.
  rewrite (map_ext (signed false true) (fun v => v)), map_id in H01 by reflexivity.
  change (mulvec (A11 b) w = vopp (block_apply M inner inner w)) in H11.
  change (mulvec (A01 b) w = block_apply M dofs inner w) in H01.
  assert (Hwz : w = vopp z).
  { rewrite <- (vopp_vopp w). f_equal. apply Hns.
    - unfold vopp. rewrite length_map. now rewrite Hwlen, Hc11.
    - exact Hz.
    - rewrite block_apply_vopp, <- H11, Hw, H10. now rewrite Hzeq. }
  assert (Happly : op_apply
                     (gsSumOp_make (makeMatrixOp (A00 b))
                        (gsProductOp_make
                           [makeMatrixOp (A10 b); solver; makeMatrixOp (A01 b)])) x
                   = vsub (block_apply M dofs dofs x) (block_apply M dofs inner z)).
  { cbn [gsSumOp_make gsProductOp_make makeMatrixOp op_apply fold_left].
    fold w. rewrite H00, H01, Hwz, block_apply_vopp. apply vadd_vopp. }
  eexists. unfold schurComplement. rewrite Hb. cbn [bind]. rewrite Hfact. cbn [bind].
  split; [reflexivity|]. split; [exact Happly|].
  intros Hfull. rewrite Happly.
  assert (Hin : inner = []) by (unfold inner; rewrite Hfull; apply interior_full).
  rewrite Hin. unfold block_apply at 2. cbn [length bigsum seq map vsum fold_right].
  unfold block_apply at 1. rewrite vsub_map_zero.
  fold (block_apply M dofs dofs x). rewrite Hfull. now apply block_apply_full.
Qed.

End WithSolver.

(** *** The example of the 2 x 2 matrix [[2, 1], [1, 2]] *)

Definition sym2 : SparseMatrix :=
  mkSparse ColMajor 2 2
    [ mkEntry 0 0 (1 + 1)%Qc; mkEntry 1 0 1%Qc; mkEntry 0 1 1%Qc; mkEntry 1 1 (1 + 1)%Qc ].

(** The solver operator for a diagonal matrix: every component is divided
    by the diagonal coefficient. *)
Definition diagonalOp (N : SparseMatrix) : Op :=
  mkOp (sm_rows N) (sm_cols N)
       (fun y => map (fun i => (nth i y 0 / coeff N i i)%Qc) (seq 0 (sm_cols N))).

(** A factorization for diagonal matrices: it fails when a diagonal
    coefficient is zero. *)
Definition diagonalSolver (N : SparseMatrix) : Outcome Op :=
  if forallb (fun i => negb (T_eqb (coeff N i i) 0%Qc)) (seq 0 (sm_rows N))
  then Ok (diagonalOp N)
  else Fault SingularBlock.

Fixpoint Vec_eqb (u v : Vec) : bool :=
  match u, v with
  | [], [] => true
  | a :: u', b :: v' => T_eqb a b && Vec_eqb u' v'
  | _, _ => false
  end.

Lemma Vec_eqb_eq (u v : Vec) : Vec_eqb u v = true -> u = v.
Proof.
  revert v. induction u as [|a u IH]; intros [|b v] H; simpl in H; try discriminate.
  - reflexivity.
  - apply andb_true_iff in H. destruct H as [Hab Huv].
    apply T_eqb_eq in Hab. subst b. f_equal. now apply IH.
Qed.

Lemma sym2_wf : wf sym2.
Proof.
  split; simpl.
  - repeat constructor.
  - repeat constructor; simpl; intuition congruence.
Qed.

Lemma sym2_interior_nonsingular : nonsingular_block sym2 (interior (sm_cols sym2) [0]).
Proof.
  change (interior (sm_cols sym2) [0]) with [1].
  intros [|u0 [|u1 u]] [|v0 [|v1 v]] Hu Hv H; try discriminate Hu; try discriminate Hv.
  unfold block_apply, bigsum in H. cbn [map seq length nth vsum fold_right] in H.
  apply (f_equal (fun l => nth 0 l 0%Qc)) in H. cbn [nth] in H. rename H into H0. f_equal.
  assert (C : coeff sym2 1 1 = (1 + 1)%Qc) by (apply T_eqb_eq; vm_compute; reflexivity).
  rewrite C in H0.
  assert (E : forall a : Qc, a = (((1 + 1) * a + 0) / (1 + 1))%Qc).
  { intros a. field. apply T_eqb_neq. vm_compute. reflexivity. }
  rewrite (E u0), (E v0). now rewrite H0.
Qed.

Lemma sym2_solver_one (b : Blocks) :
  matrixBlocks sym2 [0] = Ok b ->
  exists solver, diagonalSolver (A11 b) = Ok solver /\ realizes_inverse (A11 b) solver.
Proof.
  intros Hb. vm_compute in Hb. inversion Hb; subst b. clear Hb. cbn [A11].
  match goal with |- exists _, diagonalSolver ?N = _ /\ _ => set (N0 := N) end.
  exists (diagonalOp N0). split.
  { unfold diagonalSolver.
    replace (forallb (fun i => negb (T_eqb (coeff N0 i i) 0%Qc)) (seq 0 (sm_rows N0)))
      with true by (vm_compute; reflexivity).
    reflexivity. }
  assert (C : coeff N0 0 0 = (- (1 + 1))%Qc) by (apply T_eqb_eq; vm_compute; reflexivity).
  intros [|y0 [|y1 y]] Hy; try discriminate Hy. split; [reflexivity|].
  unfold mulvec, diagonalOp, bigsum.
  change (sm_rows N0) with 1. change (sm_cols N0) with 1.
  cbn [op_apply map seq length nth vsum fold_right]. rewrite C. f_equal.
  field. apply T_eqb_neq. vm_compute. reflexivity.
Qed.

Lemma sym2_solver_full (b : Blocks) :
  matrixBlocks sym2 [0; 1] = Ok b ->
  exists solver, diagonalSolver (A11 b) = Ok solver /\ realizes_inverse (A11 b) solver.
Proof.
  intros Hb. vm_compute in Hb. inversion Hb; subst b. clear Hb.
  eexists. split; [reflexivity|].
  intros [|y0 y] Hy; try discriminate Hy. split; reflexivity.
Qed.

Lemma sym2_full_nonsingular : nonsingular_block sym2 (interior (sm_cols sym2) [0; 1]).
Proof.
  intros [|u0 u] [|v0 v] Hu Hv _; try discriminate Hu; try discriminate Hv. reflexivity.
Qed.

(** C3 at two concrete inputs, both for [[2, 1], [1, 2]]: the kept set
    [0], where [A11 = [2]] and [z = 1/2] for [x = 1], and the full index
    set [0, 1]. *)
Lemma schurComplement_refines_witness :
  (exists S,
      schurComplement diagonalSolver sym2 [0] = Ok S
      /\ op_apply S [1%Qc]
         = vsub (block_apply sym2 [0] [0] [1%Qc])
                (block_apply sym2 [0] (interior (sm_cols sym2) [0]) [(1 / (1 + 1))%Qc])
      /\ ([0] = seq 0 (sm_cols sym2) -> op_apply S [1%Qc] = mulvec sym2 [1%Qc]))
  /\ (exists S,
         schurComplement diagonalSolver sym2 [0; 1] = Ok S
         /\ op_apply S [1%Qc; (1 + 1 + 1)%Qc]
            = vsub (block_apply sym2 [0; 1] [0; 1] [1%Qc; (1 + 1 + 1)%Qc])
                   (block_apply sym2 [0; 1] (interior (sm_cols sym2) [0; 1]) [])
         /\ ([0; 1] = seq 0 (sm_cols sym2) ->
             op_apply S [1%Qc; (1 + 1 + 1)%Qc] = mulvec sym2 [1%Qc; (1 + 1 + 1)%Qc])).
Proof.
  split.
  - apply (schurComplement_refines diagonalSolver sym2 [0] [1%Qc] [(1 / (1 + 1))%Qc]).
    + exact sym2_wf.
    + reflexivity.
    + discriminate.
    + repeat constructor. intros [].
    + repeat constructor.
    + reflexivity.
    + exact sym2_interior_nonsingular.
    + exact sym2_solver_one.
    + reflexivity.
    + apply Vec_eqb_eq. vm_compute. reflexivity.
  - apply (schurComplement_refines diagonalSolver sym2 [0; 1] [1%Qc; (1 + 1 + 1)%Qc] []).
    + exact sym2_wf.
    + reflexivity.
    + discriminate.
    + repeat constructor; simpl; intuition congruence.
    + repeat constructor.
    + reflexivity.
    + exact sym2_full_nonsingular.
    + exact sym2_solver_full.
    + reflexivity.
    + reflexivity.
Defined.

End SchurFacts.

(* ================================================================= *)
(** ** The assembled preconditioner on two subdomains *)

Module PreconditionerFacts.

Import gsScaledDirichletPrec BuilderFacts MultiplicityFacts SchurFacts.

(** A linear operator commutes with the multiplication by a scalar. *)
Definition homogeneous (S : Op) : Prop :=
  forall (c : T) (v : Vec), op_apply S (vscale c v) = vscale c (op_apply S v).

Lemma nth_vscale (c : T) (v : Vec) (j : nat) : nth j (vscale c v) 0%Qc = (c * nth j v 0)%Qc.
Proof.
  unfold vscale. replace 0%Qc with (c * 0)%Qc at 1 by ring. apply map_nth.
Qed.

Lemma mulvec_vscale (M : SparseMatrix) (c : T) (v : Vec) :
  mulvec M (vscale c v) = vscale c (mulvec M v).
Proof.
  unfold mulvec, vscale at 2. rewrite map_map. apply map_ext. intros i.
  unfold bigsum. rewrite <- (vsum_map_scale nat).
  apply vsum_map_ext. intros j _. rewrite nth_vscale. ring.
Qed.

Definition half : T := (1 / (1 + 1))%Qc.
Definition quarter : T := (1 / ((1 + 1) * (1 + 1)))%Qc.

(** The scaling matrix of a subdomain with the scaling vector [1, 1, 2]. *)
Definition scaling112 : SparseMatrix :=
  mkSparse ColMajor 3 3
    [ mkEntry 0 0 (1 / 1)%Qc; mkEntry 1 1 (1 / 1)%Qc; mkEntry 2 2 (1 / (1 + 1))%Qc ].

Definition unit1 : Vec := [1%Qc].

Ltac closed_vec := apply Vec_eqb_eq; vm_compute; reflexivity.
Ltac closed_scalar := apply T_eqb_eq; vm_compute; reflexivity.

Lemma mulvec_row3 (B : SparseMatrix) (b2 : T) (v : Vec) :
  sm_rows B = 1 -> sm_cols B = 3 ->
  coeff B 0 0 = 0%Qc -> coeff B 0 1 = 0%Qc -> coeff B 0 2 = b2 ->
  mulvec B v = [(b2 * nth 2 v 0)%Qc].
Proof.
  intros Hr Hc H0 H1 H2. unfold mulvec, bigsum. rewrite Hr, Hc.
  cbn [seq map vsum fold_right]. rewrite H0, H1, H2. f_equal. ring.
Qed.

Lemma scaling112_third (v : Vec) :
  nth 2 (mulvec scaling112 v) 0%Qc = (half * nth 2 v 0)%Qc.
Proof.
  unfold mulvec, bigsum. change (sm_rows scaling112) with 3. change (sm_cols scaling112) with 3.
  cbn [seq map vsum fold_right nth].
  replace (coeff scaling112 2 0) with 0%Qc by (symmetry; closed_scalar).
  replace (coeff scaling112 2 1) with 0%Qc by (symmetry; closed_scalar).
  replace (coeff scaling112 2 2) with half by (symmetry; closed_scalar).
  ring.
Qed.

(** One side of the interface: the jump row [0, 0, b] with [b = 1] or
    [b = -1], scaled and unscaled. *)
Lemma side_quarter (B : SparseMatrix) (b2 : T) (S : Op) :
  sm_rows B = 1 -> sm_cols B = 3 ->
  coeff B 0 0 = 0%Qc -> coeff B 0 1 = 0%Qc -> coeff B 0 2 = b2 ->
  mulvec scaling112 (mulvecT B unit1) = vscale half (mulvecT B unit1) ->
  homogeneous S ->
  contribution (B, gsProductOp_make [makeMatrixOp scaling112; S; makeMatrixOp scaling112]) unit1
  = vscale quarter (contribution (B, S) unit1).
Proof.
  intros Hr Hc H0 H1 H2 HD HS. unfold contribution.
  cbn [fst snd gsProductOp_make makeMatrixOp op_apply fold_left].
  rewrite HD, HS.
  rewrite !(mulvec_row3 B b2 _ Hr Hc H0 H1 H2).
  rewrite scaling112_third, nth_vscale.
  unfold vscale. cbn [map]. f_equal. unfold half, quarter. field.
  split; apply T_eqb_neq; vm_compute; reflexivity.
Qed.

(** The scaled local operator [D_k S_k D_k] of a subdomain with scaling
    vector [1, 1, 2]. *)
Definition scaled_local (S : Op) : Op :=
  gsProductOp_make [makeMatrixOp scaling112; S; makeMatrixOp scaling112].

(** C4.  Two subdomains share one interface dof through one Lagrange
    multiplier, with the jump rows [0, 0, 1] and [0, 0, -1] and any two
    linear Schur operators on three dofs.  Multiplicity scaling gives the
    scaling vector [1, 1, 2] on each side, the value 2 for the shared dof.
    The preconditioner is the additive operator of the two terms
    [B_k D_k S_k D_k B_k^T]; applied to the unit vector of the multiplier
    it is the sum of the contributions of the two sides, each of which is
    1/(2*2) = 1/4 of the unscaled contribution [B_k S_k B_k^T]. *)
Theorem scaled_dirichlet_quarter (S1 S2 : Op) :
  op_rows S1 = 3 -> op_rows S2 = 3 -> homogeneous S1 -> homogeneous S2 ->
  exists st st' P,
    registerAll [(jump_plus, S1); (jump_minus, S2)] empty = Ok st
    /\ setupMultiplicityScaling st = Ok st'
    /\ m_localScaling st' = [[1; 1; 1 + 1]; [1; 1; 1 + 1]]%Qc
    /\ preconditioner st' = Ok P
    /\ P = gsAdditiveOp_make [(jump_plus, scaled_local S1); (jump_minus, scaled_local S2)]
    /\ op_apply P unit1
       = vadd (contribution (jump_plus, scaled_local S1) unit1)
              (contribution (jump_minus, scaled_local S2) unit1)
    /\ contribution (jump_plus, scaled_local S1) unit1
       = vscale quarter (contribution (jump_plus, S1) unit1)
    /\ contribution (jump_minus, scaled_local S2) unit1
       = vscale quarter (contribution (jump_minus, S2) unit1).
Proof.
  intros Hr1 Hr2 Hh1 Hh2.
  destruct S1 as [r1 c1 f1]. destruct S2 as [r2 c2 f2].
  cbn [op_rows] in Hr1, Hr2. subst r1 r2.
  eexists. eexists. eexists.
  split; [reflexivity|]. split; [reflexivity|]. split; [reflexivity|].
  split; [reflexivity|]. split; [reflexivity|]. split; [reflexivity|].
  split.
  - apply (side_quarter jump_plus 1%Qc); try reflexivity; try closed_scalar; try closed_vec.
    exact Hh1.
  - apply (side_quarter jump_minus (- (1))%Qc); try reflexivity; try closed_scalar; try closed_vec.
    exact Hh2.
Qed.

Lemma laplace3_homogeneous : homogeneous (makeMatrixOp laplace3).
Proof.
  intros c v. apply mulvec_vscale.
Qed.

(** C4 at a concrete input: the 1-D Laplacian on both sides. *)
Lemma scaled_dirichlet_quarter_witness :
  exists st st' P,
    registerAll [(jump_plus, makeMatrixOp laplace3); (jump_minus, makeMatrixOp laplace3)] empty = Ok st
    /\ setupMultiplicityScaling st = Ok st'
    /\ m_localScaling st' = [[1; 1; 1 + 1]; [1; 1; 1 + 1]]%Qc
    /\ preconditioner st' = Ok P
    /\ P = gsAdditiveOp_make [(jump_plus, scaled_local (makeMatrixOp laplace3));
                              (jump_minus, scaled_local (makeMatrixOp laplace3))]
    /\ op_apply P unit1
       = vadd (contribution (jump_plus, scaled_local (makeMatrixOp laplace3)) unit1)
              (contribution (jump_minus, scaled_local (makeMatrixOp laplace3)) unit1)
    /\ contribution (jump_plus, scaled_local (makeMatrixOp laplace3)) unit1
       = vscale quarter (contribution (jump_plus, makeMatrixOp laplace3) unit1)
    /\ contribution (jump_minus, scaled_local (makeMatrixOp laplace3)) unit1
       = vscale quarter (contribution (jump_minus, makeMatrixOp laplace3) unit1).
Proof.
  apply (scaled_dirichlet_quarter (makeMatrixOp laplace3) (makeMatrixOp laplace3)).
  - reflexivity.
  - reflexivity.
  - exact laplace3_homogeneous.
  - exact laplace3_homogeneous.
Defined.

End PreconditionerFacts.

(* ================================================================= *)
(** ** One call of [step] *)

Module BiCgStabFacts.

Import gsBiCgStab.

Lemma divide_ok (site : DivSite) (a b q : T) :
  divide site a b = Ok q <-> b <> 0%Qc /\ q = (a / b)%Qc.
Proof.
  unfold divide. destruct (T_eqb b 0%Qc) eqn:E.
  - apply T_eqb_eq in E. split; [discriminate | tauto].
  - apply T_eqb_neq in E. split.
    + intros H. inversion H. auto.
    + intros [_ ->]. reflexivity.
Qed.

Lemma divide_fault (site : DivSite) (a b : T) (e : Error) :
  divide site a b = Fault e <-> b = 0%Qc /\ e = DivisionByZero site.
Proof.
  unfold divide. destruct (T_eqb b 0%Qc) eqn:E.
  - apply T_eqb_eq in E. split.
    + intros H. inversion H. auto.
    + intros [_ ->]. reflexivity.
  - apply T_eqb_neq in E. split; [discriminate | tauto].
Qed.

Lemma divide_cases (site : DivSite) (a b : T) :
  (b = 0%Qc /\ divide site a b = Fault (DivisionByZero site))
  \/ (b <> 0%Qc /\ divide site a b = Ok (a / b)%Qc).
Proof.
  unfold divide. destruct (T_eqb b 0%Qc) eqn:E.
  - apply T_eqb_eq in E. now left.
  - apply T_eqb_neq in E. now right.
Qed.

(** The value of the stabilization scalar. *)
Definition omega_value (t s : Vec) : T :=
  if T_ltb 0%Qc (dot t t) then (dot t s / dot t t)%Qc else 0%Qc.

Lemma omega_total (t s : Vec) : omega t s = Ok (omega_value t s).
Proof.
  unfold omega, omega_value. destruct (T_ltb 0%Qc (dot t t)) eqn:E; [|reflexivity].
  apply T_ltb_lt in E.
  destruct (divide_cases SiteOmega (dot t s) (dot t t)) as [[Hz _] | [_ Hd]]; [|exact Hd].
  rewrite Hz in E. exfalso. exact (Qclt_not_le _ _ E (Qcle_refl _)).
Qed.

Lemma Root_div_cases (site : DivSite) (a b : Root) :
  (radicand b = 0%Qc /\ Root_div site a b = Fault (DivisionByZero site))
  \/ (radicand b <> 0%Qc /\ Root_div site a b = Ok (Sqrt (radicand a / radicand b)%Qc)).
Proof.
  unfold Root_div.
  destruct (divide_cases site (radicand a) (radicand b)) as [[Hz Hd] | [Hnz Hd]];
    rewrite Hd; [left | right]; auto.
Qed.

(** The quantities of one call of [step], in the order it computes them. *)
Record Locals : Type := mkLocals {
  restart : bool;
  r0 : Vec;
  rho : T;
  beta : T;
  p : Vec;
  y : Vec;
  v : Vec;
  alpha : T;
  s : Vec;
  z : Vec;
  t : Vec;
  w : T
}.

Definition locals (S : Solver) (st : State) : Locals :=
  let restart := too_orthogonal (dot (m_r0 st) (m_res st)) (m_r0 st) in
  let r0 := if restart then m_res st else m_r0 st in
  let rho := if restart then dot (m_res st) (m_res st) else dot (m_r0 st) (m_res st) in
  let beta := ((rho / m_rho st) * (m_alpha st / m_w st))%Qc in
  let p := vadd (m_res st) (vscale beta (vsub (m_p st) (vscale (m_w st) (m_v st)))) in
  let y := op_apply (m_precond S) p in
  let v := op_apply (m_mat S) y in
  let alpha := (rho / dot r0 v)%Qc in
  let s := vsub (m_res st) (vscale alpha v) in
  let z := op_apply (m_precond S) s in
  let t := op_apply (m_mat S) z in
  mkLocals restart r0 rho beta p y v alpha s z t (omega_value t s).

(** What [step] returns, by the denominators it meets. *)
Lemma step_cases (S : Solver) (st : State) (x : Vec) :
  let L := locals S st in
  let res := vsub (m_res st) (vadd (vscale (alpha L) (v L)) (vscale (w L) (t L))) in
  (m_rho st = 0%Qc /\ step S st x = Fault (DivisionByZero SiteBetaRho))
  \/ (m_rho st <> 0%Qc /\ m_w st = 0%Qc
      /\ step S st x = Fault (DivisionByZero SiteBetaOmega))
  \/ (m_rho st <> 0%Qc /\ m_w st <> 0%Qc /\ dot (r0 L) (v L) = 0%Qc
      /\ step S st x = Fault (DivisionByZero SiteAlpha))
  \/ (m_rho st <> 0%Qc /\ m_w st <> 0%Qc /\ dot (r0 L) (v L) <> 0%Qc
      /\ radicand (m_rhs_norm st) = 0%Qc
      /\ step S st x = Fault (DivisionByZero SiteError))
  \/ (m_rho st <> 0%Qc /\ m_w st <> 0%Qc /\ dot (r0 L) (v L) <> 0%Qc
      /\ radicand (m_rhs_norm st) <> 0%Qc
      /\ step S st x
         = Ok (mkResult
                 (Root_ltb (Sqrt (radicand (norm res) / radicand (m_rhs_norm st))%Qc) (m_tol S))
                 (mkState res (r0 L) (m_tmp st) (p L) (v L) (y L) (s L) (z L) (t L)
                          (alpha L) (rho L) (w L) (m_rhs_norm st)
                          (Sqrt (radicand (norm res) / radicand (m_rhs_norm st))%Qc))
                 (vadd x (vadd (vscale (alpha L) (y L)) (vscale (w L) (z L))))
                 (if restart L then [ResidualTooOrthogonal] else []))).
Proof.
  unfold locals, step. cbv zeta.
  destruct (too_orthogonal (dot (m_r0 st) (m_res st)) (m_r0 st)) eqn:Eorth;
    cbn [restart r0 rho beta p y v alpha s z t w].
  - destruct (divide_cases SiteBetaRho (dot (m_res st) (m_res st)) (m_rho st))
      as [[Hz Hd] | [Hnz Hd]]; rewrite Hd; cbn [bind]; [now left | right].
    destruct (divide_cases SiteBetaOmega (m_alpha st) (m_w st))
      as [[Hz2 Hd2] | [Hnz2 Hd2]]; rewrite Hd2; cbn [bind]; [now left | right].
    match goal with |- context [divide SiteAlpha ?a ?b] =>
      destruct (divide_cases SiteAlpha a b) as [[Hz3 Hd3] | [Hnz3 Hd3]] end;
      rewrite Hd3; cbn [bind]; [now left | right].
    rewrite omega_total. cbn [bind].
    match goal with |- context [Root_div SiteError ?a ?b] =>
      destruct (Root_div_cases SiteError a b) as [[Hz4 Hd4] | [Hnz4 Hd4]] end;
      rewrite Hd4; cbn [bind]; [left | right]; auto.
  - destruct (divide_cases SiteBetaRho (dot (m_r0 st) (m_res st)) (m_rho st))
      as [[Hz Hd] | [Hnz Hd]]; rewrite Hd; cbn [bind]; [now left | right].
    destruct (divide_cases SiteBetaOmega (m_alpha st) (m_w st))
      as [[Hz2 Hd2] | [Hnz2 Hd2]]; rewrite Hd2; cbn [bind]; [now left | right].
    match goal with |- context [divide SiteAlpha ?a ?b] =>
      destruct (divide_cases SiteAlpha a b) as [[Hz3 Hd3] | [Hnz3 Hd3]] end;
      rewrite Hd3; cbn [bind]; [now left | right].
    rewrite omega_total. cbn [bind].
    match goal with |- context [Root_div SiteError ?a ?b] =>
      destruct (Root_div_cases SiteError a b) as [[Hz4 Hd4] | [Hnz4 Hd4]] end;
      rewrite Hd4; cbn [bind]; [left | right]; auto.
Qed.

Lemma step_not_omega_fault (S : Solver) (st : State) (x : Vec) :
  step S st x <> Fault (DivisionByZero SiteOmega).
Proof.
  destruct (step_cases S st x) as [H | [H | [H | [H | H]]]];
    decompose [and] H; clear H;
    match goal with H : step S st x = _ |- _ => rewrite H end; discriminate.
Qed.

Lemma vadd_vscale_zero (c : T) (a b : Vec) :
  length a = length b -> vadd (vscale c a) (vscale 0%Qc b) = vscale c a.
Proof.
  unfold vadd, vscale. revert b.
  induction a as [|x a IH]; intros [|y b] H; simpl in H; try discriminate; [reflexivity|].
  simpl. rewrite IH by lia. f_equal. ring.
Qed.

(** C9.  In a call of [step] on the members [st], with [t] and [s] the
    vectors the call computes from them, the stabilization scalar is
    [<t,s>/<t,t>] when [<t,t> > 0] and [0] otherwise: computing it never
    divides by zero, and no call stops at that division.  A call that meets
    a zero denominator does so at another division ([beta], [alpha] or the
    relative error); every other call returns, with that scalar in [m_w],
    the iterate [x + alpha y + omega z] and the residual
    [m_res - (alpha v + omega t)].  When the scalar is zero these are
    [x + alpha y] and [m_res - alpha v]: the stabilization update is
    disabled (for operators that return vectors of one length). *)
Theorem omega_division_guarded (S : Solver) (st : State) (x : Vec) :
  let L := locals S st in
  let guarded :=
    if T_ltb 0%Qc (dot (t L) (t L))
    then (dot (t L) (s L) / dot (t L) (t L))%Qc else 0%Qc in
  omega (t L) (s L) = Ok guarded
  /\ step S st x <> Fault (DivisionByZero SiteOmega)
  /\ (m_rho st = 0%Qc \/ m_w st = 0%Qc \/ dot (r0 L) (v L) = 0%Qc
      \/ radicand (m_rhs_norm st) = 0%Qc ->
      exists site, site <> SiteOmega /\ step S st x = Fault (DivisionByZero site))
  /\ (m_rho st <> 0%Qc -> m_w st <> 0%Qc -> dot (r0 L) (v L) <> 0%Qc ->
      radicand (m_rhs_norm st) <> 0%Qc ->
      exists r : Result,
        step S st x = Ok r
        /\ m_s (state r) = s L /\ m_t (state r) = t L
        /\ m_w (state r) = guarded
        /\ iterate r = vadd x (vadd (vscale (alpha L) (y L)) (vscale guarded (z L)))
        /\ m_res (state r)
           = vsub (m_res st) (vadd (vscale (alpha L) (v L)) (vscale guarded (t L)))
        /\ (guarded = 0%Qc ->
            (length (y L) = length (z L) ->
             iterate r = vadd x (vscale (alpha L) (y L)))
            /\ (length (v L) = length (t L) ->
                m_res (state r) = vsub (m_res st) (vscale (alpha L) (v L))))).
Proof.
  intros L guarded.
  split; [apply omega_total|].
  split; [apply step_not_omega_fault|].
  pose proof (step_cases S st x) as Hc. cbv zeta in Hc. fold L in Hc.
  destruct Hc as [H | [H | [H | [H | H]]]]; decompose [and] H; clear H.
  - split; [|intros; contradiction].
    intros _. exists SiteBetaRho. split; [discriminate | assumption].
  - split; [|intros; contradiction].
    intros _. exists SiteBetaOmega. split; [discriminate | assumption].
  - split; [|intros; contradiction].
    intros _. exists SiteAlpha. split; [discriminate | assumption].
  - split; [|intros; contradiction].
    intros _. exists SiteError. split; [discriminate | assumption].
  - split; [intros [Hz | [Hz | [Hz | Hz]]]; contradiction|].
    intros _ _ _ _.
    match goal with H : step S st x = Ok ?r0 |- _ => exists r0; split; [exact H|] end.
    cbn [state iterate m_s m_t m_w m_res].
    change (w L) with guarded.
    split; [reflexivity|]. split; [reflexivity|]. split; [reflexivity|].
    split; [reflexivity|]. split; [reflexivity|].
    intros Hw. rewrite Hw. split; intros Hlen; now rewrite vadd_vscale_zero.
Qed.

(** *** A reachable state in which [alpha] is a quotient by zero *)

(** The symmetric, nonsingular matrix [[0, 1], [1, 0]]. *)
Definition swap2 : SparseMatrix :=
  mkSparse ColMajor 2 2 [mkEntry 1 0 1%Qc; mkEntry 0 1 1%Qc].

(** No preconditioning. *)
Definition identityOp (n : nat) : Op := mkOp n n (fun x => x).

Definition swap_solver : Solver :=
  mkSolver (makeMatrixOp swap2) (identityOp 2) (Q2Qc (1 # 1000000)).

(** The members of an object on which nothing was called yet. *)
Definition blank : State :=
  mkState [] [] [] [] [] [] [] [] [] 0%Qc 0%Qc 0%Qc (Sqrt 0%Qc) (Sqrt 0%Qc).

Definition swap_start : Result :=
  match initIteration swap_solver blank [1%Qc; 0%Qc] [0%Qc; 0%Qc] with
  | Ok r => r
  | Fault _ => mkResult true blank [] []
  end.

Lemma swap_start_init :
  initIteration swap_solver blank [1%Qc; 0%Qc] [0%Qc; 0%Qc] = Ok swap_start.
Proof. vm_compute. reflexivity. Qed.

Lemma swap_start_unfinished : finished swap_start = false.
Proof. vm_compute. reflexivity. Qed.

Lemma swap_step_alpha :
  step swap_solver (state swap_start) (iterate swap_start)
  = Fault (DivisionByZero SiteAlpha).
Proof. vm_compute. reflexivity. Qed.

(** C10.  [alpha] is [rho / <r0, v>] with no test of the denominator:
    whenever [beta] can be computed and [<r0, v>] is zero, the call stops
    at that division.  Such a state is reachable: for the matrix
    [[0, 1], [1, 0]], the right-hand side [(1, 0)] and the initial guess
    zero, the first call of [step] after [initIteration] finds
    [<r0, v> = 0].  The division that computes [omega] is never one by
    zero. *)
Theorem alpha_division_unguarded :
  (forall (S : Solver) (st : State) (x : Vec),
      m_rho st <> 0%Qc -> m_w st <> 0%Qc ->
      dot (r0 (locals S st)) (v (locals S st)) = 0%Qc ->
      step S st x = Fault (DivisionByZero SiteAlpha))
  /\ (exists (S : Solver) (st : State) (x : Vec),
         reachable S st x /\ step S st x = Fault (DivisionByZero SiteAlpha))
  /\ (forall (S : Solver) (st : State) (x : Vec),
         step S st x <> Fault (DivisionByZero SiteOmega)).
Proof.
  split.
  { intros S st x Hrho Hw Hden.
    destruct (step_cases S st x) as [H | [H | [H | [H | H]]]];
      decompose [and] H; clear H; try contradiction; assumption. }
  split.
  { exists swap_solver, (state swap_start), (iterate swap_start). split.
    - apply (reach_init swap_solver blank [1%Qc; 0%Qc] [0%Qc; 0%Qc]).
      exact swap_start_init.
    - exact swap_step_alpha. }
  exact step_not_omega_fault.
Qed.

End BiCgStabFacts.

(* ================================================================= *)
(** ** The restart of [step] *)

Module RestartFacts.

Import gsBiCgStab.
Import BiCgStabFacts.

(** No call of [step] ends in a breakdown failure: a call returns, or it
    stops at a division. *)
Lemma step_never_breakdown (S : Solver) (st : State) (x : Vec) :
  step S st x <> Fault NumericalBreakdown.
Proof.
  destruct (step_cases S st x) as [H | [H | [H | [H | H]]]];
    decompose [and] H; clear H;
    match goal with H : step S st x = _ |- _ => rewrite H end; discriminate.
Qed.

(** Nor does any number of calls, one after the other. *)
Lemma steps_never_breakdown (S : Solver) (n : nat) (r : Result) :
  steps S n r <> Fault NumericalBreakdown.
Proof.
  revert r. induction n as [|n IH]; intros r; cbn [steps].
  - discriminate.
  - destruct (step S (state r) (iterate r)) as [r1 | e] eqn:E; cbn [bind].
    + apply IH.
    + rewrite <- E. apply step_never_breakdown.
Qed.

Lemma too_orthogonal_spec (rho_new : T) (r0hat : Vec) :
  too_orthogonal rho_new r0hat = true
  <-> (Qcabs rho_new < restart_threshold * dot r0hat r0hat)%Qc.
Proof. unfold too_orthogonal. apply T_ltb_lt. Qed.

(** C2, as the code has it.  [step] computes [rho_new = <r0, res>] and
    tests [|rho_new| < 1e-32 * <r0, r0>].  When the test holds, the call
    writes the message, replaces [r0] by the current residual and takes
    [<res, res>] for [rho_new]; otherwise [r0] is kept.  The outcome of the
    test is a function of [r0] and the residual alone: the members hold no
    count of earlier restarts, so whenever the test holds and the
    denominators of the call are not zero the call restarts and returns,
    whatever came before.  No call, and no sequence of calls, ends in a
    breakdown failure. *)
Theorem restart_has_no_retry_budget (S : Solver) (st : State) (x : Vec) :
  (too_orthogonal (dot (m_r0 st) (m_res st)) (m_r0 st) = true
   <-> (Qcabs (dot (m_r0 st) (m_res st))
        < restart_threshold * dot (m_r0 st) (m_r0 st))%Qc)
  /\ (forall r : Result,
         step S st x = Ok r ->
         (too_orthogonal (dot (m_r0 st) (m_res st)) (m_r0 st) = true ->
          gsInfo r = [ResidualTooOrthogonal]
          /\ m_r0 (state r) = m_res st
          /\ m_rho (state r) = dot (m_res st) (m_res st))
         /\ (too_orthogonal (dot (m_r0 st) (m_res st)) (m_r0 st) = false ->
             gsInfo r = []
             /\ m_r0 (state r) = m_r0 st
             /\ m_rho (state r) = dot (m_r0 st) (m_res st)))
  /\ (too_orthogonal (dot (m_r0 st) (m_res st)) (m_r0 st) = true ->
      m_rho st <> 0%Qc -> m_w st <> 0%Qc ->
      dot (m_res st) (v (locals S st)) <> 0%Qc ->
      radicand (m_rhs_norm st) <> 0%Qc ->
      exists r : Result,
        step S st x = Ok r /\ gsInfo r = [ResidualTooOrthogonal]
        /\ m_r0 (state r) = m_res st)
  /\ step S st x <> Fault NumericalBreakdown
  /\ (forall (n : nat) (r : Result), steps S n r <> Fault NumericalBreakdown).
Proof.
  split; [apply too_orthogonal_spec|].
  split.
  { intros r Hr.
    destruct (step_cases S st x) as [H | [H | [H | [H | H]]]];
      decompose [and] H; clear H;
      match goal with H : step S st x = _ |- _ => rewrite H in Hr end;
      try discriminate Hr.
    inversion Hr; subst r; clear Hr.
    cbn [state gsInfo m_r0 m_rho]. unfold locals. cbv zeta.
    cbn [restart r0 rho].
    split; intros E; rewrite E; auto. }
  split.
  { intros E Hrho Hw Hden Hnorm.
    destruct (step_cases S st x) as [H | [H | [H | [H | H]]]];
      decompose [and] H; clear H; try contradiction.
    - exfalso.
      match goal with H : dot (r0 (locals S st)) _ = 0%Qc |- _ => revert H end.
      unfold locals at 1. cbv zeta. cbn [r0]. rewrite E. exact Hden.
    - match goal with H : step S st x = _ |- _ => rewrite H end.
      eexists. split; [reflexivity|].
      cbn [state gsInfo m_r0]. unfold locals. cbv zeta. cbn [restart r0].
      rewrite E. auto. }
  split; [apply step_never_breakdown|].
  intros n r. apply steps_never_breakdown.
Qed.

End RestartFacts.

(* ================================================================= *)
(** ** Vectors: sums, products with a scalar, inner products *)

Module VectorFacts.

Lemma length_vadd (u v : Vec) : length (vadd u v) = Nat.min (length u) (length v).
Proof. unfold vadd. now rewrite length_map, length_combine. Qed.

Lemma length_vsub (u v : Vec) : length (vsub u v) = Nat.min (length u) (length v).
Proof. unfold vsub. now rewrite length_map, length_combine. Qed.

Lemma length_vscale (c : T) (v : Vec) : length (vscale c v) = length v.
Proof. unfold vscale. apply length_map. Qed.

Lemma length_mulvec (M : SparseMatrix) (x : Vec) : length (mulvec M x) = sm_rows M.
Proof. unfold mulvec. now rewrite length_map, length_seq. Qed.

Lemma dot_nil_r (u : Vec) : dot u [] = 0%Qc.
Proof. unfold dot. now destruct u. Qed.

Lemma dot_cons (a b : T) (u v : Vec) : dot (a :: u) (b :: v) = (a * b + dot u v)%Qc.
Proof. reflexivity. Qed.

Lemma dot_comm (u v : Vec) : dot u v = dot v u.
Proof.
  revert v. induction u as [|a u IH]; intros [|b v]; try reflexivity.
  rewrite !dot_cons, IH. ring.
Qed.

Lemma dot_vscale_r (c : T) (u v : Vec) : dot u (vscale c v) = (c * dot u v)%Qc.
Proof.
  revert v. induction u as [|a u IH]; intros [|b v].
  - unfold dot. simpl. ring.
  - unfold dot. simpl. ring.
  - rewrite !dot_nil_r. ring.
  - change (vscale c (b :: v)) with ((c * b)%Qc :: vscale c v).
    rewrite !dot_cons, IH. ring.
Qed.

Lemma dot_vsub_r (u v w : Vec) :
  length v = length w -> dot u (vsub v w) = (dot u v - dot u w)%Qc.
Proof.
  revert v w. induction u as [|a u IH]; intros [|b v] [|c w] H; simpl in H; try discriminate.
  - unfold dot. simpl. ring.
  - unfold dot. simpl. ring.
  - change (vsub [] []) with (@nil T). rewrite !dot_nil_r. ring.
  - change (vsub (b :: v) (c :: w)) with ((b - c)%Qc :: vsub v w).
    rewrite !dot_cons, IH by lia. ring.
Qed.

Lemma mult_nonneg (a b : T) : (0 <= a)%Qc -> (0 <= b)%Qc -> (0 <= a * b)%Qc.
Proof.
  intros Ha Hb. replace 0%Qc with (0 * b)%Qc by ring.
  now apply Qcmult_le_compat_r.
Qed.

Lemma square_nonneg (a : T) : (0 <= a * a)%Qc.
Proof.
  destruct (Qclt_le_dec a 0) as [Hneg | Hpos].
  - replace (a * a)%Qc with ((- a) * (- a))%Qc by ring.
    assert (H0 : (0 <= - a)%Qc).
    { apply Qclt_le_weak in Hneg. apply Qcopp_le_compat in Hneg.
      now replace (- 0)%Qc with 0%Qc in Hneg by ring. }
    now apply mult_nonneg.
  - now apply mult_nonneg.
Qed.

Lemma dot_self_nonneg (u : Vec) : (0 <= dot u u)%Qc.
Proof.
  induction u as [|a u IH].
  - apply Qcle_refl.
  - rewrite dot_cons.
    replace 0%Qc with (0 + 0)%Qc by ring.
    apply Qcplus_le_compat; [apply square_nonneg | exact IH].
Qed.

(** A vector all of whose coefficients are zero. *)
Definition is_zero (u : Vec) : Prop := Forall (fun c => c = 0%Qc) u.

Lemma dot_self_zero (u : Vec) : dot u u = 0%Qc -> is_zero u.
Proof.
  induction u as [|a u IH]; intros H; [constructor|].
  rewrite dot_cons in H.
  pose proof (square_nonneg a) as Ha.
  pose proof (dot_self_nonneg u) as Hu.
  assert (Hu0 : dot u u = 0%Qc).
  { apply Qcle_antisym; [|exact Hu].
    rewrite <- H. replace (dot u u) with (0 + dot u u)%Qc at 1 by ring.
    apply Qcplus_le_compat; [exact Ha | apply Qcle_refl]. }
  constructor; [|now apply IH].
  rewrite Hu0 in H. replace (a * a + 0)%Qc with (a * a)%Qc in H by ring.
  destruct (Qcmult_integral _ _ H); assumption.
Qed.

Lemma dot_zero_l (u v : Vec) : is_zero u -> dot u v = 0%Qc.
Proof.
  intros H. revert v. induction H as [|a u Ha _ IH]; intros [|b v]; try reflexivity.
  rewrite dot_cons, IH, Ha. ring.
Qed.

Lemma dot_zero_r (u v : Vec) : is_zero v -> dot u v = 0%Qc.
Proof. intros H. rewrite dot_comm. now apply dot_zero_l. Qed.

Lemma setZero_is_zero (n : nat) : is_zero (setZero n).
Proof.
  unfold is_zero, setZero. apply Forall_forall. intros c Hc.
  now apply repeat_spec in Hc.
Qed.

Lemma vscale_is_zero (c : T) (u : Vec) : is_zero u -> is_zero (vscale c u).
Proof.
  unfold is_zero, vscale. intros H. apply Forall_map.
  eapply Forall_impl; [|exact H]. simpl. intros a ->. ring.
Qed.

Lemma vsub_is_zero (u v : Vec) : is_zero u -> is_zero v -> is_zero (vsub u v).
Proof.
  unfold is_zero. intros Hu. revert v.
  induction Hu as [|a u Ha _ IH]; intros [|b v] Hv; try constructor.
  - inversion Hv; subst. simpl. ring.
  - inversion Hv; subst. now apply IH.
Qed.

(** Adding a vector of zeros that is long enough changes nothing. *)
Lemma vadd_zero_r (u z : Vec) : is_zero z -> length u <= length z -> vadd u z = u.
Proof.
  unfold is_zero. intros Hz. revert u.
  induction Hz as [|b z Hb _ IH]; intros [|a u] Hl; simpl in Hl; try reflexivity; [lia|].
  change (vadd (a :: u) (b :: z)) with ((a + b)%Qc :: vadd u z).
  rewrite IH by lia. rewrite Hb. f_equal. ring.
Qed.

Lemma vsub_vadd (a b c : Vec) : vsub a (vadd b c) = vsub (vsub a b) c.
Proof.
  revert b c. induction a as [|x a IH]; intros [|y b] [|z c]; try reflexivity.
  change (vsub (x :: a) (vadd (y :: b) (z :: c)))
    with ((x - (y + z))%Qc :: vsub a (vadd b c)).
  change (vsub (vsub (x :: a) (y :: b)) (z :: c))
    with ((x - y - z)%Qc :: vsub (vsub a b) c).
  rewrite IH. f_equal. ring.
Qed.

Lemma vsub_zero_eq (a b : Vec) : length a = length b -> is_zero (vsub a b) -> a = b.
Proof.
  unfold is_zero. revert b.
  induction a as [|x a IH]; intros [|y b] Hl Hz; simpl in Hl; try discriminate; [reflexivity|].
  change (vsub (x :: a) (y :: b)) with ((x - y)%Qc :: vsub a b) in Hz.
  inversion Hz as [|? ? Hxy Hz']; subst. f_equal.
  - replace x with (x - y + y)%Qc by ring. rewrite Hxy. ring.
  - apply IH; [lia | assumption].
Qed.

Lemma nth_vadd (u v : Vec) (j : nat) :
  length u = length v -> nth j (vadd u v) 0%Qc = (nth j u 0 + nth j v 0)%Qc.
Proof.
  revert v j. induction u as [|a u IH]; intros [|b v] j H; simpl in H; try discriminate.
  - destruct j; simpl; ring.
  - destruct j as [|j]; [reflexivity|].
    change (vadd (a :: u) (b :: v)) with ((a + b)%Qc :: vadd u v).
    cbn [nth]. apply IH. lia.
Qed.

Lemma vadd_map (A : Type) (f g : A -> T) (l : list A) :
  vadd (map f l) (map g l) = map (fun a => f a + g a)%Qc l.
Proof.
  unfold vadd. induction l as [|a l IH]; [reflexivity|].
  cbn [map combine fst snd]. now rewrite <- IH.
Qed.

Lemma vsum_map_plus (A : Type) (f g : A -> T) (l : list A) :
  vsum (map (fun a => f a + g a)%Qc l) = (vsum (map f l) + vsum (map g l))%Qc.
Proof.
  induction l as [|a l IH]; simpl; [ring|]. rewrite IH. ring.
Qed.

(** The product with a matrix is additive on vectors of one length. *)
Lemma mulvec_vadd (M : SparseMatrix) (u v : Vec) :
  length u = length v -> mulvec M (vadd u v) = vadd (mulvec M u) (mulvec M v).
Proof.
  intros H. unfold mulvec. rewrite vadd_map. apply map_ext. intros i.
  unfold bigsum. rewrite <- vsum_map_plus. apply vsum_map_ext.
  intros j _. rewrite nth_vadd by assumption. ring.
Qed.

End VectorFacts.

(* ================================================================= *)
(** ** Runs with any number of restarts *)

Module RestartBudgetFacts.

Import gsBiCgStab.
Import BiCgStabFacts.
Import VectorFacts.

(** *** Vectors given by their coefficients *)

(** The vector [(f 0, ..., f (n-1))]. *)
Definition vec (n : nat) (f : nat -> T) : Vec := map f (seq 0 n).

Lemma vec_ext (n : nat) (f g : nat -> T) :
  (forall i, i < n -> f i = g i) -> vec n f = vec n g.
Proof.
  intros H. unfold vec. apply map_ext_in. intros i Hi. apply in_seq in Hi. apply H. lia.
Qed.

Lemma nth_vec (n : nat) (f : nat -> T) (j : nat) : j < n -> nth j (vec n f) 0%Qc = f j.
Proof.
  intros Hj. unfold vec.
  rewrite (nth_indep _ 0%Qc (f 0)) by (now rewrite length_map, length_seq).
  rewrite map_nth, seq_nth by assumption. reflexivity.
Qed.

Lemma vadd_vec (n : nat) (f g : nat -> T) :
  vadd (vec n f) (vec n g) = vec n (fun i => f i + g i)%Qc.
Proof. apply vadd_map. Qed.

Lemma vsub_vec (n : nat) (f g : nat -> T) :
  vsub (vec n f) (vec n g) = vec n (fun i => f i - g i)%Qc.
Proof.
  unfold vsub, vec. induction (seq 0 n) as [|a l IH]; [reflexivity|].
  cbn [map combine fst snd]. now rewrite IH.
Qed.

Lemma vscale_vec (n : nat) (c : T) (f : nat -> T) :
  vscale c (vec n f) = vec n (fun i => c * f i)%Qc.
Proof. unfold vscale, vec. apply map_map. Qed.

Lemma dot_vec (n : nat) (f g : nat -> T) :
  dot (vec n f) (vec n g) = bigsum n (fun i => f i * g i)%Qc.
Proof.
  unfold dot, vec, bigsum. induction (seq 0 n) as [|a l IH]; [reflexivity|].
  cbn [map combine fst snd vsum fold_right]. unfold vsum in IH. now rewrite IH.
Qed.

Lemma setZero_vec (n : nat) : setZero n = vec n (fun _ => 0%Qc).
Proof.
  unfold setZero, vec. generalize 0 as a.
  induction n as [|n IH]; intros a; [reflexivity|].
  cbn [repeat seq map]. now rewrite (IH (S a)).
Qed.

(** *** Indicator functions *)

(** [1] for [i < c], [0] otherwise. *)
Definition below (c i : nat) : T := if i <? c then 1%Qc else 0%Qc.

(** [1] for [i = c]. *)
Definition delta (c i : nat) : T := if i =? c then 1%Qc else 0%Qc.

(** [1] for [a <= i < b]. *)
Definition between (a b i : nat) : T := if (a <=? i) && (i <? b) then 1%Qc else 0%Qc.

Lemma delta_below (c i : nat) : delta c i = (below (S c) i - below c i)%Qc.
Proof.
  unfold delta, below.
  destruct (Nat.eqb_spec i c); destruct (Nat.ltb_spec i (S c)); destruct (Nat.ltb_spec i c);
    try lia; ring.
Qed.

Lemma between_below (a b i : nat) : a <= b -> between a b i = (below b i - below a i)%Qc.
Proof.
  intros Hab. unfold between, below.
  destruct (Nat.leb_spec a i); destruct (Nat.ltb_spec i b); destruct (Nat.ltb_spec i a);
    cbn [andb]; try lia; ring.
Qed.

Lemma delta_same (c : nat) : delta c c = 1%Qc.
Proof. unfold delta. now rewrite Nat.eqb_refl. Qed.

Lemma delta_other (c i : nat) : i <> c -> delta c i = 0%Qc.
Proof. intros H. unfold delta. now destruct (Nat.eqb_spec i c). Qed.

Lemma bigsum_plus (n : nat) (f g : nat -> T) :
  bigsum n (fun j => f j + g j)%Qc = (bigsum n f + bigsum n g)%Qc.
Proof. unfold bigsum. apply vsum_map_plus. Qed.

Lemma bigsum_scale (n : nat) (c : T) (f : nat -> T) :
  bigsum n (fun j => c * f j)%Qc = (c * bigsum n f)%Qc.
Proof. unfold bigsum. apply vsum_map_scale. Qed.

Lemma bigsum_zero (n : nat) : bigsum n (fun _ => 0%Qc) = 0%Qc.
Proof. unfold bigsum. apply vsum_map_zero. Qed.

(** A sum against an indicator picks one term. *)
Lemma bigsum_delta (n c : nat) (g : nat -> T) :
  c < n -> bigsum n (fun j => g j * delta c j)%Qc = g c.
Proof.
  intros Hc. unfold bigsum.
  assert (Hgen : forall a m,
             vsum (map (fun j => g j * delta c j)%Qc (seq a m))
             = if (a <=? c) && (c <? a + m) then g c else 0%Qc).
  { intros a m. revert a. induction m as [|m IH]; intros a.
    - cbn [seq map vsum fold_right].
      destruct (Nat.leb_spec a c); destruct (Nat.ltb_spec c (a + 0)); cbn [andb];
        try lia; reflexivity.
    - cbn [seq map]. change (vsum (?h :: ?l)) with (h + vsum l)%Qc. rewrite IH.
      unfold delta.
      destruct (Nat.eqb_spec a c); destruct (Nat.leb_spec a c);
        destruct (Nat.leb_spec (S a) c); destruct (Nat.ltb_spec c (a + S m));
        destruct (Nat.ltb_spec c (S a + m)); cbn [andb]; try lia; subst; ring. }
  rewrite Hgen. destruct (Nat.leb_spec 0 c); destruct (Nat.ltb_spec c (0 + n));
    cbn [andb]; try lia; reflexivity.
Qed.


(** *** One call of [step] in which every scalar is one *)

Lemma one_not_zero : 1%Qc <> 0%Qc.
Proof. apply T_eqb_neq. vm_compute. reflexivity. Qed.

Lemma one_by_one : (1 / 1)%Qc = 1%Qc.
Proof. apply T_eqb_eq. vm_compute. reflexivity. Qed.

Lemma beta_one : (1 / 1 * (1 / 1))%Qc = 1%Qc.
Proof. apply T_eqb_eq. vm_compute. reflexivity. Qed.

Lemma zero_lt_one : T_ltb 0%Qc 1%Qc = true.
Proof. vm_compute. reflexivity. Qed.

(** The quantities of a call for which [rho], [alpha] and [omega] are one
    before and after, without preconditioning: [rst] is the outcome of the
    restart test, [r0'] the shadow residual after it. *)
Lemma locals_unit (S : Solver) (st : State) (rst : bool) (r0' u' v' s' t' : Vec) :
  (forall z, op_apply (m_precond S) z = z) ->
  m_alpha st = 1%Qc -> m_rho st = 1%Qc -> m_w st = 1%Qc ->
  too_orthogonal (dot (m_r0 st) (m_res st)) (m_r0 st) = rst ->
  (if rst then m_res st else m_r0 st) = r0' ->
  (if rst then dot (m_res st) (m_res st) else dot (m_r0 st) (m_res st)) = 1%Qc ->
  vadd (m_res st) (vscale 1%Qc (vsub (m_p st) (vscale 1%Qc (m_v st)))) = u' ->
  op_apply (m_mat S) u' = v' ->
  dot r0' v' = 1%Qc ->
  vsub (m_res st) (vscale 1%Qc v') = s' ->
  op_apply (m_mat S) s' = t' ->
  dot t' t' = 1%Qc -> dot t' s' = 1%Qc ->
  locals S st = mkLocals rst r0' 1%Qc 1%Qc u' u' v' 1%Qc s' s' t' 1%Qc.
Proof.
  intros Hprec Ha Hrho Hw Hrst Hr0 Hrho' Hu Hv Hden Hs Ht Htt Hts.
  unfold locals. cbv zeta.
  rewrite Hrst, Hr0, Hrho', Ha, Hrho, Hw, beta_one, Hu, !Hprec, Hv, Hden, one_by_one,
    Hs, Ht.
  unfold omega_value. rewrite Htt, Hts, zero_lt_one, one_by_one. reflexivity.
Qed.

Lemma unit_step (S : Solver) (st : State) (x : Vec) (rst : bool)
      (r0' u' v' s' t' res' : Vec) :
  (forall z, op_apply (m_precond S) z = z) ->
  m_alpha st = 1%Qc -> m_rho st = 1%Qc -> m_w st = 1%Qc ->
  radicand (m_rhs_norm st) = 1%Qc ->
  too_orthogonal (dot (m_r0 st) (m_res st)) (m_r0 st) = rst ->
  (if rst then m_res st else m_r0 st) = r0' ->
  (if rst then dot (m_res st) (m_res st) else dot (m_r0 st) (m_res st)) = 1%Qc ->
  vadd (m_res st) (vscale 1%Qc (vsub (m_p st) (vscale 1%Qc (m_v st)))) = u' ->
  op_apply (m_mat S) u' = v' ->
  dot r0' v' = 1%Qc ->
  vsub (m_res st) (vscale 1%Qc v') = s' ->
  op_apply (m_mat S) s' = t' ->
  dot t' t' = 1%Qc -> dot t' s' = 1%Qc ->
  vsub (m_res st) (vadd (vscale 1%Qc v') (vscale 1%Qc t')) = res' ->
  dot res' res' = 1%Qc ->
  exists r : Result,
    step S st x = Ok r
    /\ m_res (state r) = res' /\ m_r0 (state r) = r0'
    /\ m_p (state r) = u' /\ m_v (state r) = v'
    /\ m_alpha (state r) = 1%Qc /\ m_rho (state r) = 1%Qc /\ m_w (state r) = 1%Qc
    /\ m_rhs_norm (state r) = m_rhs_norm st
    /\ gsInfo r = (if rst then [ResidualTooOrthogonal] else [])
    /\ finished r = Root_ltb (Sqrt 1%Qc) (m_tol S).
Proof.
  intros Hprec Ha Hrho Hw Hn Hrst Hr0 Hrho' Hu Hv Hden Hs Ht Htt Hts Hres Hrr.
  pose proof (locals_unit S st rst r0' u' v' s' t'
                Hprec Ha Hrho Hw Hrst Hr0 Hrho' Hu Hv Hden Hs Ht Htt Hts) as HL.
  pose proof (step_cases S st x) as Hc. cbv zeta in Hc. rewrite HL in Hc.
  cbn [restart r0 rho beta p y v alpha s z t w] in Hc.
  rewrite Hres in Hc. unfold norm in Hc. cbn [radicand] in Hc.
  rewrite Hrr, Hn, one_by_one in Hc.
  destruct Hc as [H | [H | [H | [H | H]]]]; decompose [and] H; clear H.
  - exfalso. rewrite Hrho in *. now apply one_not_zero.
  - exfalso. rewrite Hw in *. now apply one_not_zero.
  - exfalso. rewrite Hden in *. now apply one_not_zero.
  - exfalso. now apply one_not_zero.
  - eexists. split; [eassumption|].
    cbn [state gsInfo finished m_res m_r0 m_p m_v m_alpha m_rho m_w m_rhs_norm].
    repeat split.
Qed.


(** *** A family of systems *)

(** [1] for [i = c] when [c] is one of the first [N] indices. *)
Definition delta_in (N c i : nat) : T := if c <? N then delta c i else 0%Qc.

(** The coefficient [(i, j)] of the system with [N] cells, a matrix with
    [2 N] rows and columns whose coefficients are [0], [1], [-1] and [2].
    The column [j < N] holds [1] on the diagonal, [-1] in the row [j + 1]
    (when that is below [N]) and [-1] in the rows [N .. N + j].  The
    column [N + m] holds [2] on the diagonal, [1] in the row below it, [1]
    in the rows [N .. N + m - 1], [-1] in the row [m + 1] and [1] in the
    row [m + 2] (when these are below [N]).  For [N = 3]:
<<
      [  1   0   0   0   0   0 ]
      [ -1   1   0  -1   0   0 ]
      [  0  -1   1   1  -1   0 ]
      [ -1  -1  -1   2   1   1 ]
      [  0  -1  -1   1   2   1 ]
      [  0   0  -1   0   1   2 ]
>> *)
Definition chain_coeff (N i j : nat) : T :=
  if j <? N
  then (delta j i - delta_in N (S j) i - between N (S (N + j)) i)%Qc
  else ((1 + 1) * delta j i + delta (S j) i + between N j i
        - delta_in N (S (j - N)) i + delta_in N (S (S (j - N))) i)%Qc.

(** The triplets of a matrix with [n] rows and columns given by its
    coefficients [k], column by column, zeros left out. *)
Definition triplets_of (n : nat) (k : nat -> nat -> T) : list Entry :=
  flat_map (fun j => flat_map (fun i => if T_eqb (k i j) 0%Qc then []
                                        else [mkEntry i j (k i j)])
                              (seq 0 n))
           (seq 0 n).

(** The sparse matrix of the system, filled from its triplets. *)
Definition chain_matrix (N : nat) : SparseMatrix :=
  setFrom ColMajor (N + N) (N + N) (triplets_of (N + N) (chain_coeff N)).

Definition chainOp (N : nat) : Op := makeMatrixOp (chain_matrix N).

Lemma sum_at_flat (A : Type) (F : A -> list Entry) (r c : nat) (l : list A) :
  sum_at r c (flat_map F l) = vsum (map (fun a => sum_at r c (F a)) l).
Proof.
  induction l as [|a l IH]; [reflexivity|].
  cbn [flat_map map]. rewrite sum_at_app, IH. reflexivity.
Qed.

Lemma sum_at_triplets (n : nat) (k : nat -> nat -> T) (r c : nat) :
  r < n -> c < n -> sum_at r c (triplets_of n k) = k r c.
Proof.
  intros Hr Hc. unfold triplets_of. rewrite sum_at_flat.
  change (bigsum n (fun j => sum_at r c
                               (flat_map (fun i => if T_eqb (k i j) 0%Qc then []
                                                   else [mkEntry i j (k i j)])
                                         (seq 0 n)))
          = k r c).
  rewrite (bigsum_ext _ _ (fun j => k r j * delta c j)%Qc).
  - now apply bigsum_delta.
  - intros j Hj. rewrite sum_at_flat.
    change (bigsum n (fun i => sum_at r c (if T_eqb (k i j) 0%Qc then []
                                           else [mkEntry i j (k i j)]))
            = (k r j * delta c j)%Qc).
    rewrite (bigsum_ext _ _ (fun i => (k i j * delta c j) * delta r i)%Qc).
    + now apply bigsum_delta.
    + intros i Hi. unfold delta.
      destruct (T_eqb (k i j) 0%Qc) eqn:E.
      * apply T_eqb_eq in E. rewrite E. unfold sum_at. cbn [filter map vsum fold_right]. ring.
      * rewrite sum_at_cons. unfold sum_at at 1, at_pos.
        cbn [filter map vsum fold_right e_row e_col e_val].
        rewrite (Nat.eqb_sym j c).
        destruct (i =? r); destruct (c =? j); cbn [andb]; ring.
Qed.

Lemma chain_matrix_coeff (N i j : nat) :
  i < N + N -> j < N + N -> coeff (chain_matrix N) i j = chain_coeff N i j.
Proof.
  intros Hi Hj. unfold chain_matrix.
  rewrite setFrom_coeff by assumption. now apply sum_at_triplets.
Qed.

(** The solver for it, without preconditioning, tolerance [1e-6]. *)
Definition chain_solver (N : nat) : Solver :=
  mkSolver (chainOp N) (identityOp (N + N)) (Q2Qc (1 # 1000000)).

(** The right-hand side: the first unit vector. *)
Definition chain_rhs (N : nat) : Vec := vec (N + N) (delta 0).

Section Chain.

Variable N : nat.

Lemma chain_apply (f : nat -> T) :
  op_apply (chainOp N) (vec (N + N) f)
  = vec (N + N) (fun i => bigsum (N + N) (fun j => chain_coeff N i j * f j)%Qc).
Proof.
  unfold chainOp, makeMatrixOp, mulvec. cbn [op_apply chain_matrix setFrom sm_rows sm_cols].
  apply (vec_ext (N + N)). intros i Hi.
  apply bigsum_ext. intros j Hj.
  rewrite nth_vec by assumption.
  now rewrite <- (chain_matrix_coeff N i j Hi Hj).
Qed.

Lemma dot_delta_l (c : nat) (g : nat -> T) :
  c < N + N -> dot (vec (N + N) (delta c)) (vec (N + N) g) = g c.
Proof.
  intros Hc. rewrite dot_vec.
  rewrite (bigsum_ext _ _ (fun j => g j * delta c j)%Qc) by (intros; ring).
  now apply bigsum_delta.
Qed.

(** [m_v] and [m_p] after [m] calls of [step]. *)
Definition V (m : nat) : nat -> T :=
  match m with
  | 0 => fun _ => 0%Qc
  | S m' => fun i => (delta m' i - delta (S m') i - delta (N + m') i)%Qc
  end.

Fixpoint P (m : nat) : nat -> T :=
  match m with
  | 0 => fun _ => 0%Qc
  | S m' => fun i => (delta m' i + (P m' i - V m' i))%Qc
  end.

Lemma column (c i : nat) :
  c < N + N -> bigsum (N + N) (fun j => chain_coeff N i j * delta c j)%Qc = chain_coeff N i c.
Proof. intros Hc. now apply (bigsum_delta (N + N) c (chain_coeff N i)). Qed.

Lemma delta_in_below (c i : nat) :
  c < N -> delta_in N c i = (below (S c) i - below c i)%Qc.
Proof.
  intros Hc. unfold delta_in. destruct (Nat.ltb_spec c N); [|lia]. apply delta_below.
Qed.

Lemma column_left (j i : nat) :
  j < N ->
  chain_coeff N i j
  = (below (S j) i - below j i - delta_in N (S j) i
     - (below (S (N + j)) i - below N i))%Qc.
Proof.
  intros Hj. unfold chain_coeff.
  destruct (Nat.ltb_spec j N); [|lia].
  rewrite !delta_below, between_below by lia. reflexivity.
Qed.

Lemma column_right (m i : nat) :
  chain_coeff N i (N + m)
  = ((1 + 1) * (below (S (N + m)) i - below (N + m) i)
     + (below (S (S (N + m))) i - below (S (N + m)) i)
     + (below (N + m) i - below N i)
     - delta_in N (S m) i + delta_in N (S (S m)) i)%Qc.
Proof.
  unfold chain_coeff.
  destruct (Nat.ltb_spec (N + m) N); [lia|].
  replace (N + m - N) with m by lia.
  rewrite !delta_below, between_below by lia. reflexivity.
Qed.

(** The product with the search direction of the call [m + 1]. *)
Lemma apply_P (m : nat) :
  S m < N ->
  forall i, bigsum (N + N) (fun j => chain_coeff N i j * P (S m) j)%Qc = V (S m) i.
Proof.
  induction m as [|m IH]; intros Hm i.
  - rewrite (bigsum_ext _ _ (fun j => chain_coeff N i j * delta 0 j)%Qc)
      by (intros; cbn [P V]; ring).
    rewrite column by lia. rewrite column_left by lia.
    rewrite delta_in_below by lia.
    cbn [V]. rewrite !delta_below, Nat.add_0_r. ring.
  - rewrite (bigsum_ext _ _
               (fun j => (chain_coeff N i j * delta (S m) j
                          + chain_coeff N i j * P (S m) j)
                         + ((- (1)) * (chain_coeff N i j * delta m j)
                            + (chain_coeff N i j * delta (S m) j
                               + chain_coeff N i j * delta (N + m) j)))%Qc)
      by (intros; cbn [P V]; ring).
    rewrite !bigsum_plus, bigsum_scale, !column by lia.
    rewrite (IH (Nat.lt_succ_l _ _ Hm)).
    rewrite !column_left by lia. rewrite column_right.
    rewrite !delta_in_below by lia.
    cbn [V]. rewrite !delta_below, !Nat.add_succ_r. ring.
Qed.

(** The product with [s] of the call [m + 1]. *)
Lemma apply_s (m : nat) :
  S m < N ->
  forall i, bigsum (N + N) (fun j => chain_coeff N i j * (delta (S m) j + delta (N + m) j))%Qc
            = delta (N + m) i.
Proof.
  intros Hm i.
  rewrite (bigsum_ext _ _
             (fun j => chain_coeff N i j * delta (S m) j
                       + chain_coeff N i j * delta (N + m) j)%Qc)
    by (intros; ring).
  rewrite bigsum_plus, !column by lia.
  rewrite column_left by lia. rewrite column_right.
  rewrite (delta_in_below (S m)) by lia.
  rewrite !delta_below, !Nat.add_succ_r. ring.
Qed.


(** The members after [m] calls of [step]: the residual is the unit vector
    [m], the shadow residual the one before it, and the three scalars are
    one. *)
Definition at_step (m : nat) (st : State) : Prop :=
  m_res st = vec (N + N) (delta m)
  /\ m_r0 st = vec (N + N) (delta (m - 1))
  /\ m_p st = vec (N + N) (P m)
  /\ m_v st = vec (N + N) (V m)
  /\ m_alpha st = 1%Qc /\ m_rho st = 1%Qc /\ m_w st = 1%Qc
  /\ radicand (m_rhs_norm st) = 1%Qc.

Lemma restart_test (m : nat) :
  m < N ->
  too_orthogonal (dot (vec (N + N) (delta (m - 1))) (vec (N + N) (delta m)))
                 (vec (N + N) (delta (m - 1)))
  = negb (m =? 0).
Proof.
  intros Hm. unfold too_orthogonal. rewrite !dot_delta_l by lia. rewrite delta_same.
  destruct m as [|m]; cbn [Nat.sub Nat.eqb negb].
  - rewrite delta_same. vm_compute. reflexivity.
  - rewrite Nat.sub_0_r, delta_other by lia. vm_compute. reflexivity.
Qed.

Lemma unfinished : Root_ltb (Sqrt 1%Qc) (m_tol (chain_solver N)) = false.
Proof. vm_compute. reflexivity. Qed.

(** The call [m + 1]: it restarts unless it is the first one, and leaves
    the unit vector [m + 1] as the residual. *)
Lemma chain_step (m : nat) (st : State) (x : Vec) :
  S m < N -> at_step m st ->
  exists r : Result,
    step (chain_solver N) st x = Ok r
    /\ at_step (S m) (state r)
    /\ gsInfo r = (if m =? 0 then [] else [ResidualTooOrthogonal])
    /\ finished r = false.
Proof.
  intros Hm (Hres & Hr0 & Hp & Hv & Ha & Hrho & Hw & Hn).
  destruct (unit_step (chain_solver N) st x (negb (m =? 0))
              (vec (N + N) (delta m)) (vec (N + N) (P (S m))) (vec (N + N) (V (S m)))
              (vec (N + N) (fun i => delta (S m) i + delta (N + m) i)%Qc)
              (vec (N + N) (delta (N + m))) (vec (N + N) (delta (S m))))
    as (r & Hstep & Hres' & Hr0' & Hp' & Hv' & Ha' & Hrho' & Hw' & Hn' & Hinfo & Hfin);
    try assumption.
  - intros z. reflexivity.
  - rewrite Hr0, Hres. apply restart_test. lia.
  - rewrite Hr0, Hres. destruct m; cbn [Nat.eqb negb Nat.sub]; reflexivity.
  - rewrite Hr0, Hres.
    destruct m; cbn [Nat.eqb negb Nat.sub]; rewrite dot_delta_l by lia; apply delta_same.
  - rewrite Hres, Hp, Hv. rewrite vscale_vec, vsub_vec, vscale_vec, vadd_vec.
    apply vec_ext. intros i _. cbn [P]. ring.
  - cbn [chain_solver m_mat]. rewrite chain_apply. apply vec_ext. intros i _.
    apply apply_P. lia.
  - rewrite dot_delta_l by lia. cbn [V].
    rewrite delta_same, !delta_other by lia. ring.
  - rewrite Hres. rewrite vscale_vec, vsub_vec.
    apply vec_ext. intros i _. cbn [V]. ring.
  - cbn [chain_solver m_mat]. rewrite chain_apply. apply vec_ext. intros i _.
    now apply apply_s.
  - rewrite dot_delta_l by lia. apply delta_same.
  - rewrite dot_delta_l by lia. rewrite delta_same, delta_other by lia. ring.
  - rewrite Hres. rewrite !vscale_vec, vadd_vec, vsub_vec.
    apply vec_ext. intros i _. cbn [V]. ring.
  - rewrite dot_delta_l by lia. apply delta_same.
  - exists r. split; [exact Hstep|]. split; [|split].
    + unfold at_step. cbn [Nat.sub]. rewrite Nat.sub_0_r.
      repeat (split; [assumption|]). now rewrite Hn'.
    + rewrite Hinfo. now destruct m.
    + rewrite Hfin. apply unfinished.
Qed.

(** Any number of calls, as long as the unit vectors last. *)
Lemma chain_run (k : nat) :
  forall (m : nat) (r : Result),
    at_step m (state r) -> length (gsInfo r) = m - 1 -> m + k < N ->
    exists r' : Result,
      steps (chain_solver N) k r = Ok r'
      /\ at_step (m + k) (state r')
      /\ length (gsInfo r') = m + k - 1.
Proof.
  induction k as [|k IH]; intros m r Hat Hlen Hk.
  - exists r. rewrite Nat.add_0_r. cbn [steps]. auto.
  - destruct (chain_step m (state r) (iterate r)) as (r1 & Hstep & Hat1 & Hinfo & _);
      [lia | exact Hat|].
    cbn [steps]. rewrite Hstep. cbn [bind].
    destruct (IH (S m) (mkResult (finished r1) (state r1) (iterate r1) (gsInfo r ++ gsInfo r1)))
      as (r' & Hr' & Hat' & Hlen').
    + exact Hat1.
    + cbn [gsInfo]. rewrite length_app, Hlen, Hinfo.
      destruct m; cbn [Nat.eqb length]; lia.
    + lia.
    + exists r'. split; [exact Hr'|].
      replace (m + S k) with (S m + k) by lia. auto.
Qed.

Lemma keep_guess (x a : Vec) : x <> [] -> match x with [] => a | _ :: _ => x end = x.
Proof. now destruct x. Qed.

(** [initIteration] for the initial guess zero. *)
Lemma chain_init :
  0 < N ->
  exists ri : Result,
    initIteration (chain_solver N) blank (chain_rhs N) (setZero (N + N)) = Ok ri
    /\ at_step 0 (state ri) /\ gsInfo ri = [] /\ finished ri = false.
Proof.
  intros HN.
  assert (Hx : setZero (N + N) <> []).
  { destruct N; [lia|]. discriminate. }
  assert (Hres : vsub (chain_rhs N) (op_apply (chainOp N) (setZero (N + N)))
                 = vec (N + N) (delta 0)).
  { unfold chain_rhs. rewrite setZero_vec, chain_apply, vsub_vec.
    apply vec_ext. intros i _.
    rewrite (bigsum_ext _ _ (fun _ => 0%Qc)) by (intros; ring).
    rewrite bigsum_zero. ring. }
  assert (Hrhs : dot (chain_rhs N) (chain_rhs N) = 1%Qc).
  { unfold chain_rhs. rewrite dot_delta_l by lia. apply delta_same. }
  unfold initIteration, Base_initIteration. rewrite (keep_guess _ _ Hx).
  cbn [chain_solver m_mat m_tol]. rewrite Hres.
  unfold Root_div, norm. cbn [radicand]. fold (chain_rhs N). rewrite Hrhs.
  destruct (divide_cases SiteError 1%Qc 1%Qc) as [[Hz _] | [_ Hd]];
    [now apply one_not_zero in Hz|].
  rewrite Hd, one_by_one. cbn [bind].
  eexists. split; [reflexivity|].
  cbn [state gsInfo finished]. split; [|split; [reflexivity | apply unfinished]].
  unfold at_step.
  cbn [m_res m_r0 m_p m_v m_alpha m_rho m_w m_rhs_norm radicand Nat.sub op_cols chainOp P V].
  rewrite setZero_vec. repeat split.
Qed.

End Chain.

(** *** The claim with a retry budget *)

(** C2 as the claim has it, for a budget of [budget] recoveries.  Over
    every run, [initIteration] and any number of calls of [step], the
    recoveries number at most [budget]: *)
Definition recoveries_bounded (budget : nat) : Prop :=
  forall (S : Solver) (st0 : State) (rhs x0 : Vec) (ri r : Result) (n : nat),
    initIteration S st0 rhs x0 = Ok ri ->
    steps S n ri = Ok r ->
    length (gsInfo r) <= budget.

(** and a call that finds the test true when the budget is used up fails
    with [NumericalBreakdown]. *)
Definition escalates_when_exhausted (budget : nat) : Prop :=
  forall (S : Solver) (st0 : State) (rhs x0 : Vec) (ri r : Result) (n : nat),
    initIteration S st0 rhs x0 = Ok ri ->
    steps S n ri = Ok r ->
    length (gsInfo r) = budget ->
    too_orthogonal (dot (m_r0 (state r)) (m_res (state r))) (m_r0 (state r)) = true ->
    step S (state r) (iterate r) = Fault NumericalBreakdown.

Definition bounded_recovery (budget : nat) : Prop :=
  recoveries_bounded budget /\ escalates_when_exhausted budget.

(** The run of the system with [budget + 3] cells, for the right-hand side
    [(1, 0, ..., 0)] and the initial guess zero: after [budget + 1] calls
    it has restarted [budget] times, the test holds again, and the next
    call restarts once more and returns. *)
Lemma budget_used_up (budget : nat) :
  exists ri r r' : Result,
    initIteration (chain_solver (budget + 3)) blank (chain_rhs (budget + 3))
                  (setZero (budget + 3 + (budget + 3))) = Ok ri
    /\ steps (chain_solver (budget + 3)) (budget + 1) ri = Ok r
    /\ length (gsInfo r) = budget
    /\ too_orthogonal (dot (m_r0 (state r)) (m_res (state r))) (m_r0 (state r)) = true
    /\ step (chain_solver (budget + 3)) (state r) (iterate r) = Ok r'
    /\ gsInfo r' = [ResidualTooOrthogonal]
    /\ finished r' = false.
Proof.
  destruct (chain_init (budget + 3)) as (ri & Hinit & Hat & Hinfo & _); [lia|].
  destruct (chain_run (budget + 3) (budget + 1) 0 ri Hat) as (r & Hr & Hat1 & Hlen).
  { now rewrite Hinfo. }
  { lia. }
  cbn [Nat.add] in Hat1, Hlen.
  destruct (chain_step (budget + 3) (budget + 1) (state r) (iterate r))
    as (r' & Hstep & _ & Hinfo' & Hfin); [lia | exact Hat1|].
  exists ri, r, r'. split; [exact Hinit|]. split; [exact Hr|]. split; [lia|].
  split.
  - destruct Hat1 as (Hres & Hr0 & _). rewrite Hr0, Hres.
    rewrite restart_test by lia.
    replace (budget + 1) with (S budget) by lia. reflexivity.
  - split; [exact Hstep|]. split; [|exact Hfin].
    rewrite Hinfo'. replace (budget + 1) with (S budget) by lia. reflexivity.
Qed.

(** C2, as stated, fails: no budget bounds the recoveries, and at no
    budget does the solver escalate.  For every budget the system with
    [budget + 3] cells has a run from [initIteration] that restarts
    [budget] times, finds the test true again and restarts once more. *)
Lemma restarts_exceed_every_budget :
  ~ (exists budget : nat, bounded_recovery budget)
  /\ ~ (exists budget : nat, recoveries_bounded budget)
  /\ ~ (exists budget : nat, escalates_when_exhausted budget).
Proof.
  assert (Hbound : ~ (exists budget : nat, recoveries_bounded budget)).
  { intros [budget Hb].
    destruct (budget_used_up (S budget)) as (ri & r & _ & Hinit & Hr & Hlen & _).
    pose proof (Hb _ _ _ _ _ _ _ Hinit Hr) as Hle. lia. }
  assert (Hesc : ~ (exists budget : nat, escalates_when_exhausted budget)).
  { intros [budget Hb].
    destruct (budget_used_up budget) as (ri & r & r' & Hinit & Hr & Hlen & Htest & Hstep & _).
    rewrite (Hb _ _ _ _ _ _ _ Hinit Hr Hlen Htest) in Hstep. discriminate Hstep. }
  split; [|split; assumption].
  intros [budget [Hb _]]. apply Hbound. now exists budget.
Qed.

(** The system with five cells, call by call: the flag each of the first
    four calls returns and the number of restarts so far.  All the numbers
    of these calls are [0], [1], [-1] and [2]. *)
Definition trace (S : Solver) (r : Result) (n : nat) : list (option (bool * nat)) :=
  map (fun k => match steps S k r with
                | Ok r' => Some (finished r', length (gsInfo r'))
                | Fault _ => None
                end) (seq 1 n).

Definition chain_start (N : nat) : Result :=
  match initIteration (chain_solver N) blank (chain_rhs N) (setZero (N + N)) with
  | Ok r => r
  | Fault _ => mkResult true blank [] []
  end.

Lemma chain_of_five :
  initIteration (chain_solver 5) blank (chain_rhs 5) (setZero 10) = Ok (chain_start 5)
  /\ trace (chain_solver 5) (chain_start 5) 4
     = [Some (false, 0); Some (false, 1); Some (false, 2); Some (false, 3)].
Proof.
  split; vm_compute; reflexivity.
Qed.

End RestartBudgetFacts.

(* ================================================================= *)
(** ** The first call of [step] *)

Module ResidualFacts.

Import gsBiCgStab.
Import BiCgStabFacts.
Import VectorFacts.

(** A call of [step] that returns met no zero denominator, and returns the
    quantities it computed. *)
Lemma step_returns (S : Solver) (st : State) (x : Vec) (r : Result) :
  step S st x = Ok r ->
  m_rho st <> 0%Qc /\ m_w st <> 0%Qc
  /\ dot (r0 (locals S st)) (v (locals S st)) <> 0%Qc
  /\ radicand (m_rhs_norm st) <> 0%Qc
  /\ state r
     = mkState (vsub (m_res st)
                     (vadd (vscale (alpha (locals S st)) (v (locals S st)))
                           (vscale (w (locals S st)) (t (locals S st)))))
               (r0 (locals S st)) (m_tmp st) (p (locals S st)) (v (locals S st))
               (y (locals S st)) (s (locals S st)) (z (locals S st)) (t (locals S st))
               (alpha (locals S st)) (rho (locals S st)) (w (locals S st))
               (m_rhs_norm st)
               (Sqrt (radicand
                        (norm (vsub (m_res st)
                                    (vadd (vscale (alpha (locals S st)) (v (locals S st)))
                                          (vscale (w (locals S st)) (t (locals S st))))))
                      / radicand (m_rhs_norm st))%Qc)
  /\ iterate r
     = vadd x (vadd (vscale (alpha (locals S st)) (y (locals S st)))
                    (vscale (w (locals S st)) (z (locals S st))))
  /\ gsInfo r = (if restart (locals S st) then [ResidualTooOrthogonal] else [])
  /\ finished r
     = Root_ltb (Sqrt (radicand
                         (norm (vsub (m_res st)
                                     (vadd (vscale (alpha (locals S st)) (v (locals S st)))
                                           (vscale (w (locals S st)) (t (locals S st))))))
                       / radicand (m_rhs_norm st))%Qc)
                (m_tol S).
Proof.
  intros Hr.
  destruct (step_cases S st x) as [H | [H | [H | [H | H]]]];
    decompose [and] H; clear H;
    match goal with H : step S st x = _ |- _ => rewrite H in Hr end;
    try discriminate Hr.
  inversion Hr; subst r; clear Hr. cbn [state iterate gsInfo finished].
  repeat (split; [assumption|]). repeat split.
Qed.

Lemma threshold_lt_1 : (restart_threshold < 1)%Qc.
Proof. vm_compute. reflexivity. Qed.

(** The test never holds when [r0] is the residual itself. *)
Lemma no_restart_on_self (res : Vec) : too_orthogonal (dot res res) res = false.
Proof.
  destruct (too_orthogonal (dot res res) res) eqn:E; [|reflexivity].
  exfalso. unfold too_orthogonal in E. apply T_ltb_lt in E.
  pose proof (dot_self_nonneg res) as Hq.
  rewrite (Qcabs_pos _ Hq) in E.
  destruct (Qc_eq_dec (dot res res) 0) as [H0 | Hne].
  - rewrite H0 in E. replace (restart_threshold * 0)%Qc with 0%Qc in E by ring.
    exact (Qclt_not_le _ _ E (Qcle_refl _)).
  - assert (Hpos : (0 < dot res res)%Qc).
    { destruct (Qclt_le_dec 0 (dot res res)) as [Hlt | Hle]; [exact Hlt|].
      exfalso. apply Hne. now apply Qcle_antisym. }
    pose proof (Qcmult_lt_compat_r _ _ _ Hpos threshold_lt_1) as Hlt.
    replace (1 * dot res res)%Qc with (dot res res) in Hlt by ring.
    exact (Qclt_not_le _ _ (Qclt_trans _ _ _ E Hlt) (Qcle_refl _)).
Qed.

(** What [initIteration] leaves behind when it returns. *)
Lemma initIteration_returns (S : Solver) (st : State) (rhs x : Vec) (r : Result) :
  initIteration S st rhs x = Ok r ->
  m_res (state r) = vsub rhs (op_apply (m_mat S) (iterate r))
  /\ m_r0 (state r) = m_res (state r)
  /\ m_p (state r) = setZero (op_cols (m_mat S))
  /\ m_v (state r) = setZero (op_cols (m_mat S))
  /\ m_alpha (state r) = 1%Qc /\ m_rho (state r) = 1%Qc /\ m_w (state r) = 1%Qc
  /\ iterate r = match x with [] => setZero (length rhs) | _ => x end
  /\ gsInfo r = [].
Proof.
  unfold initIteration, Base_initIteration.
  match goal with |- context [Root_div SiteError ?a ?b] =>
    destruct (Root_div_cases SiteError a b) as [[_ Hd] | [_ Hd]] end;
    rewrite Hd; cbn [bind]; [discriminate|].
  intros Hr. inversion Hr; subst r; clear Hr.
  cbn [state iterate gsInfo m_res m_r0 m_p m_v m_alpha m_rho m_w].
  repeat split.
Qed.

(** X5.  The first call of [step] after [initIteration] does not restart, keeps
    [r0] and takes the initial residual as the first search direction
    [p]. *)
Theorem first_step_takes_residual
        (S : Solver) (st0 : State) (rhs x0 : Vec) (ri r : Result) :
  length rhs <= op_cols (m_mat S) ->
  initIteration S st0 rhs x0 = Ok ri ->
  step S (state ri) (iterate ri) = Ok r ->
  gsInfo r = []
  /\ m_r0 (state r) = m_res (state ri)
  /\ m_p (state r) = m_res (state ri)
  /\ m_rho (state r) = dot (m_res (state ri)) (m_res (state ri)).
Proof.
  intros Hlen Hinit Hr.
  destruct (initIteration_returns S st0 rhs x0 ri Hinit)
    as (Hres & Hr0 & Hp & Hv & Ha & Hrho & Hw & _ & _).
  destruct (step_returns S (state ri) (iterate ri) r Hr)
    as (_ & _ & _ & _ & Hst & _ & Hinfo & _).
  assert (Hno : too_orthogonal (dot (m_r0 (state ri)) (m_res (state ri))) (m_r0 (state ri))
                = false).
  { rewrite Hr0. apply no_restart_on_self. }
  rewrite Hinfo, Hst. cbn [m_r0 m_p m_rho].
  unfold locals. cbv zeta. cbn [restart r0 p rho].
  rewrite Hno, Hr0. split; [reflexivity|]. split; [reflexivity|]. split; [|reflexivity].
  apply vadd_zero_r.
  - apply vscale_is_zero. rewrite Hp, Hv. apply vsub_is_zero.
    + apply setZero_is_zero.
    + apply vscale_is_zero, setZero_is_zero.
  - rewrite length_vscale, length_vsub, length_vscale, Hp, Hv.
    unfold setZero. rewrite !repeat_length.
    rewrite Hres, length_vsub. lia.
Qed.

(** *** A system of two unknowns *)

Definition sym_solver : Solver :=
  mkSolver (makeMatrixOp SchurFacts.sym2) (identityOp 2) (Q2Qc (1 # 1000000)).

Definition sym_rhs : Vec := [1%Qc; 0%Qc].

Definition sym_start : Result :=
  match initIteration sym_solver blank sym_rhs (setZero 2) with
  | Ok r => r
  | Fault _ => mkResult true blank [] []
  end.

Definition sym_first : Result :=
  match step sym_solver (state sym_start) (iterate sym_start) with
  | Ok r => r
  | Fault _ => mkResult true blank [] []
  end.

Lemma first_step_takes_residual_witness :
  gsInfo sym_first = []
  /\ m_r0 (state sym_first) = m_res (state sym_start)
  /\ m_p (state sym_first) = m_res (state sym_start)
  /\ m_rho (state sym_first) = dot (m_res (state sym_start)) (m_res (state sym_start)).
Proof.
  apply (first_step_takes_residual sym_solver blank sym_rhs (setZero 2) sym_start sym_first).
  - vm_compute. lia.
  - vm_compute. reflexivity.
  - vm_compute. reflexivity.
Defined.

End ResidualFacts.

(* ================================================================= *)
(** ** Registered subdomains, scaling and the preconditioner *)

Module SubdomainFacts.

Import gsScaledDirichletPrec.
Import BuilderFacts.
Import MultiplicityFacts.

Lemma read_nth_error (A : Type) (v : list A) (k : nat) (a : A) :
  nth_error v k = Some a -> read v k = Ok a.
Proof. unfold read. now intros ->. Qed.

Lemma mapM_inv (A B : Type) (f : A -> Outcome B) (l : list A) (bs : list B) :
  mapM f l = Ok bs -> Forall2 (fun a b => f a = Ok b) l bs.
Proof.
  revert bs. induction l as [|a l IH]; intros bs H; cbn [mapM] in H.
  - inversion H. constructor.
  - destruct (f a) as [b | e] eqn:Ea; cbn [bind] in H; [|discriminate H].
    destruct (mapM f l) as [bs' | e] eqn:El; cbn [bind] in H; [|discriminate H].
    inversion H; subst. constructor; [exact Ea | now apply IH].
Qed.

Lemma mapM_fault (A B : Type) (f : A -> Outcome B) (e : Error) (l : list A) :
  (forall a, In a l -> (exists b, f a = Ok b) \/ f a = Fault e) ->
  ~ Forall (fun a => exists b, f a = Ok b) l ->
  mapM f l = Fault e.
Proof.
  induction l as [|a l IH]; intros Hall Hbad.
  - exfalso. apply Hbad. constructor.
  - cbn [mapM]. destruct (Hall a (or_introl eq_refl)) as [[b Hb] | Hf].
    + rewrite Hb. cbn [bind]. rewrite IH; [reflexivity | |].
      * intros a' Ha'. apply Hall. now right.
      * intros HF. apply Hbad. constructor; [now exists b | exact HF].
    + rewrite Hf. reflexivity.
Qed.

(** What [setupMultiplicityScaling] returns: the object with a new
    [m_localScaling], everything else as it was. *)
Lemma setup_returns (st st' : State) :
  setupMultiplicityScaling st = Ok st' ->
  length (m_jumpMatrices st) = length (m_localSchurOps st)
  /\ exists scaling,
       mapM (fun p => multiplicity (fst p) (snd p))
            (combine (m_jumpMatrices st) (m_localSchurOps st)) = Ok scaling
       /\ st' = mkState (m_jumpMatrices st) (m_localSchurOps st)
                        (m_localScalingOps st) (m_localScalingTransOps st) scaling.
Proof.
  unfold setupMultiplicityScaling.
  destruct (length (m_jumpMatrices st) =? length (m_localSchurOps st)) eqn:E;
    cbn [GISMO_ASSERT bind]; [|discriminate].
  apply Nat.eqb_eq in E.
  destruct (mapM _ _) as [scaling | e] eqn:Em; cbn [bind]; [|discriminate].
  intros H. inversion H. split; [exact E|]. now exists scaling.
Qed.

(** Every stored coefficient of [jm] lies in a column that is a row of
    [op]: what the loop of [setupMultiplicityScaling] indexes [sc] with. *)
Definition columns_fit (jm : JumpMatrix) (op : OpPtr) : Prop :=
  Forall (fun e => e_col e < op_rows op) (stored jm).

Lemma columns_fit_dec (jm : JumpMatrix) (op : OpPtr) :
  {columns_fit jm op} + {~ columns_fit jm op}.
Proof.
  unfold columns_fit. apply Forall_dec. intros e. apply lt_dec.
Qed.

Lemma count_fault (es : list Entry) :
  forall sc : Vec,
    ~ Forall (fun e => e_col e < length sc) es ->
    foldM (fun sc it => update sc (e_col it) (fun s => s + 1)%Qc) es sc
    = Fault IndexOutOfRange.
Proof.
  induction es as [|e es IH]; intros sc Hbad.
  - exfalso. apply Hbad. constructor.
  - cbn [foldM]. destruct (Nat.lt_ge_cases (e_col e) (length sc)) as [Hlt | Hge].
    + destruct (update_ok Qc sc (e_col e) (fun s => s + 1)%Qc Hlt) as (sc1 & Hu & Hl & _).
      rewrite Hu. cbn [bind]. apply IH. rewrite Hl.
      intros HF. apply Hbad. now constructor.
    + rewrite update_fault by exact Hge. reflexivity.
Qed.

(** The scaling vector of one subdomain: computed when the columns fit,
    with one entry per row of the operator, none below 1. *)
Lemma multiplicity_outcome (jm : JumpMatrix) (op : OpPtr) :
  (columns_fit jm op ->
   exists sc, multiplicity jm op = Ok sc /\ length sc = op_rows op
              /\ Forall (fun s => (1 <= s)%Qc) sc)
  /\ (~ columns_fit jm op -> multiplicity jm op = Fault IndexOutOfRange).
Proof.
  unfold columns_fit, multiplicity. split.
  - intros Hfit.
    destruct (count_columns (stored jm) (repeat 1%Qc (op_rows op))) as (sc & Hf & Hl & Hn).
    { now rewrite repeat_length. }
    rewrite repeat_length in Hl.
    exists sc. split; [exact Hf|]. split; [exact Hl|].
    apply Forall_nth. intros i d Hi.
    rewrite (nth_indep sc d 0%Qc Hi), Hn, nth_repeat_lt by lia.
    apply one_le_succ.
  - intros Hbad. apply count_fault. now rewrite repeat_length.
Qed.

Lemma multiplicity_returns (jm : JumpMatrix) (op : OpPtr) (sc : Vec) :
  multiplicity jm op = Ok sc ->
  columns_fit jm op /\ length sc = op_rows op /\ Forall (fun s => (1 <= s)%Qc) sc.
Proof.
  intros H. destruct (multiplicity_outcome jm op) as [Hok Hbad].
  destruct (columns_fit_dec jm op) as [Hfit | Hno].
  - destruct (Hok Hfit) as (sc' & Hsc' & Hl & Hge).
    rewrite H in Hsc'. inversion Hsc'; subst. auto.
  - rewrite (Hbad Hno) in H. discriminate H.
Qed.

Lemma Forall2_combine (A B : Type) (P : A -> B -> Prop) (l : list A) (l' : list B) :
  length l = length l' ->
  (Forall2 P l l' <-> Forall (fun p => P (fst p) (snd p)) (combine l l')).
Proof.
  revert l'. induction l as [|a l IH]; intros [|b l'] H; simpl in H; try discriminate.
  - split; constructor.
  - cbn [combine]. split; intros HF; inversion HF; subst; constructor; auto;
      apply (IH l'); auto.
Qed.

Lemma setup_ok (st : State) :
  length (m_jumpMatrices st) = length (m_localSchurOps st) ->
  Forall2 columns_fit (m_jumpMatrices st) (m_localSchurOps st) ->
  exists st', setupMultiplicityScaling st = Ok st'
              /\ length (m_localScaling st') = length (m_jumpMatrices st).
Proof.
  intros Hlen Hfit. unfold setupMultiplicityScaling.
  rewrite Hlen, Nat.eqb_refl. cbn [GISMO_ASSERT bind].
  destruct (mapM_Forall2 (JumpMatrix * OpPtr) Vec
              (fun p => multiplicity (fst p) (snd p)) (fun _ _ => True)
              (combine (m_jumpMatrices st) (m_localSchurOps st)))
    as (scaling & Hmap & HF).
  { intros [jm op] Hin. cbn [fst snd].
    apply (Forall2_combine _ _ columns_fit _ _ Hlen) in Hfit.
    rewrite Forall_forall in Hfit. specialize (Hfit (jm, op) Hin).
    destruct (proj1 (multiplicity_outcome jm op) Hfit) as (sc & Hsc & _).
    exists sc. auto. }
  rewrite Hmap. cbn [bind]. eexists. split; [reflexivity|].
  cbn [m_localScaling]. apply Forall2_length in HF.
  rewrite <- HF, length_combine. lia.
Qed.

Lemma setup_index_fault (st : State) :
  length (m_jumpMatrices st) = length (m_localSchurOps st) ->
  ~ Forall2 columns_fit (m_jumpMatrices st) (m_localSchurOps st) ->
  setupMultiplicityScaling st = Fault IndexOutOfRange.
Proof.
  intros Hlen Hbad. unfold setupMultiplicityScaling.
  rewrite Hlen, Nat.eqb_refl. cbn [GISMO_ASSERT bind].
  rewrite (mapM_fault _ _ (fun p => multiplicity (fst p) (snd p)) IndexOutOfRange);
    [reflexivity | |].
  - intros [jm op] _. cbn [fst snd].
    destruct (columns_fit_dec jm op) as [Hfit | Hno].
    + left. destruct (proj1 (multiplicity_outcome jm op) Hfit) as (sc & Hsc & _).
      now exists sc.
    + right. now apply multiplicity_outcome.
  - intros HF. apply Hbad. apply (Forall2_combine _ _ columns_fit _ _ Hlen).
    eapply Forall_impl; [|exact HF].
    intros [jm op] [sc Hsc]. cbn [fst snd] in *.
    now apply multiplicity_returns in Hsc.
Qed.

Lemma all_fit_dec (jms : list JumpMatrix) (ops : list OpPtr) :
  length jms = length ops ->
  Forall2 columns_fit jms ops \/ ~ Forall2 columns_fit jms ops.
Proof.
  intros Hlen.
  destruct (Forall_dec (fun p => columns_fit (fst p) (snd p))
                       (fun p => columns_fit_dec (fst p) (snd p)) (combine jms ops))
    as [H | H]; [left | right].
  - now apply (Forall2_combine _ _ columns_fit _ _ Hlen).
  - intros HF. apply H. now apply (Forall2_combine _ _ columns_fit _ _ Hlen).
Qed.

(** X8.  [setupMultiplicityScaling] fails with [InvalidConfiguration] exactly
    when the numbers of jump matrices and of Schur operators differ, which
    no sequence of [addSubdomain] calls brings about; with equal numbers it
    returns when every stored coefficient of every jump matrix lies in a
    column below the number of rows of its Schur operator, and otherwise
    stops at the access [sc(c,0)] out of range. *)
Theorem setupMultiplicityScaling_outcome (st : State) :
  (length (m_jumpMatrices st) <> length (m_localSchurOps st) ->
   setupMultiplicityScaling st = Fault InvalidConfiguration)
  /\ (length (m_jumpMatrices st) = length (m_localSchurOps st) ->
      Forall2 columns_fit (m_jumpMatrices st) (m_localSchurOps st) ->
      exists st', setupMultiplicityScaling st = Ok st'
                  /\ length (m_localScaling st') = length (m_jumpMatrices st))
  /\ (length (m_jumpMatrices st) = length (m_localSchurOps st) ->
      ~ Forall2 columns_fit (m_jumpMatrices st) (m_localSchurOps st) ->
      setupMultiplicityScaling st = Fault IndexOutOfRange)
  /\ (forall subdomains,
        setupMultiplicityScaling (registered subdomains) <> Fault InvalidConfiguration).
Proof.
  split; [|split; [|split]].
  - intros H. unfold setupMultiplicityScaling.
    apply Nat.eqb_neq in H. now rewrite H.
  - apply setup_ok.
  - apply setup_index_fault.
  - intros subdomains.
    assert (Hlen : length (m_jumpMatrices (registered subdomains))
                   = length (m_localSchurOps (registered subdomains))).
    { unfold registered. cbn [m_jumpMatrices m_localSchurOps]. now rewrite !length_map. }
    destruct (all_fit_dec _ _ Hlen) as [Hfit | Hbad].
    + destruct (setup_ok _ Hlen Hfit) as (st' & Hs & _). rewrite Hs. discriminate.
    + rewrite (setup_index_fault _ Hlen Hbad). discriminate.
Qed.

Lemma Forall2_snd_combine (A B C : Type) (R : B -> C -> Prop)
      (l1 : list A) (l2 : list B) (l3 : list C) :
  length l1 = length l2 ->
  Forall2 (fun p c => R (snd p) c) (combine l1 l2) l3 -> Forall2 R l2 l3.
Proof.
  revert l2 l3. induction l1 as [|a l1 IH]; intros [|b l2] l3 Hlen HF;
    simpl in Hlen; try discriminate.
  - inversion HF. constructor.
  - cbn [combine] in HF. inversion HF; subst. constructor; [assumption|].
    apply IH; [lia | assumption].
Qed.

Lemma one_le_nonzero (s : T) : (1 <= s)%Qc -> s <> 0%Qc.
Proof.
  intros H H0. rewrite H0 in H.
  assert (H1 : (0 < 1)%Qc) by reflexivity.
  exact (Qclt_not_le _ _ H1 H).
Qed.

(** The diagonal matrix of the reciprocals is built whenever the scaling
    vector has one nonzero entry per row of the operator. *)
Lemma scalingMatrix_ok (op : OpPtr) (sc : Vec) :
  length sc = op_rows op -> Forall (fun s => s <> 0%Qc) sc ->
  exists m, scalingMatrix op sc = Ok m /\ sm_rows m = op_rows op /\ sm_cols m = op_rows op.
Proof.
  intros Hlen Hnz. unfold scalingMatrix.
  destruct (mapM_Forall2 nat Entry
              (fun i => s <- read sc i ;; q <- divide SiteScaling 1%Qc s ;; Ok (mkEntry i i q))
              (fun _ _ => True) (seq 0 (op_rows op)))
    as (diag & Hmap & _).
  { intros i Hi. apply in_seq in Hi.
    assert (Hs : nth_error sc i = Some (nth i sc 0%Qc)).
    { apply nth_error_nth'. lia. }
    rewrite (read_nth_error _ _ _ _ Hs). cbn [bind].
    unfold divide.
    assert (Hne : nth i sc 0%Qc <> 0%Qc).
    { rewrite Forall_forall in Hnz. apply Hnz. apply nth_In. lia. }
    apply T_eqb_neq in Hne. rewrite Hne. cbn [bind]. eexists. split; [reflexivity | exact I]. }
  rewrite Hmap. cbn [bind]. eexists. split; [reflexivity|]. split; reflexivity.
Qed.

Lemma preconditioner_after_setup (st st' : State) :
  setupMultiplicityScaling st = Ok st' ->
  Forall (Forall (fun s => (1 <= s)%Qc)) (m_localScaling st')
  /\ Forall2 (fun op sc => length sc = op_rows op) (m_localSchurOps st') (m_localScaling st')
  /\ exists P, preconditioner st' = Ok P.
Proof.
  intros Hs. destruct (setup_returns st st' Hs) as (Hlen & scaling & Hmap & ->).
  cbn [m_localScaling m_localSchurOps].
  apply mapM_inv in Hmap.
  assert (HF : Forall2 (fun op sc => length sc = op_rows op /\ Forall (fun s => (1 <= s)%Qc) sc)
                       (m_localSchurOps st) scaling).
  { apply (Forall2_snd_combine JumpMatrix OpPtr Vec _ (m_jumpMatrices st)); [exact Hlen|].
    eapply Forall2_impl; [|exact Hmap].
    intros [jm op] sc H. cbn [fst snd] in *.
    apply multiplicity_returns in H. tauto. }
  assert (Hls : length scaling = length (m_localSchurOps st)).
  { symmetry. exact (Forall2_length HF). }
  split; [|split].
  - clear - HF. induction HF; constructor; tauto.
  - eapply Forall2_impl; [|exact HF]. simpl. tauto.
  - unfold preconditioner. cbn [m_jumpMatrices m_localScaling m_localSchurOps].
    rewrite Hls, <- Hlen, !Nat.eqb_refl. cbn [GISMO_ASSERT bind].
    destruct (mapM_Forall2 (OpPtr * Vec) OpPtr
                (fun p => sm <- scalingMatrix (fst p) (snd p) ;; Ok (makeMatrixOp sm))
                (fun _ _ => True) (combine (m_localSchurOps st) scaling))
      as (scalingOps & Hops & _).
    { intros [op sc] Hin. cbn [fst snd].
      destruct (Forall2_in_combine _ _ _ _ _ HF op sc Hin) as [Hl Hge].
      destruct (scalingMatrix_ok op sc Hl) as (m & Hm & _).
      { eapply Forall_impl; [|exact Hge]. apply one_le_nonzero. }
      rewrite Hm. cbn [bind]. eexists. split; [reflexivity | exact I]. }
    rewrite Hops. cbn [bind]. eexists. reflexivity.
Qed.

(** X9.  Whenever [setupMultiplicityScaling] returns, every scaling value it
    stored is at least 1, each scaling vector has one entry per row of its
    Schur operator, and [preconditioner] returns: no reciprocal
    [1./m_localScaling[k](i,0)] is one of zero, and no assertion fails. *)
Theorem scaling_never_divides_by_zero (st st' : State) :
  setupMultiplicityScaling st = Ok st' ->
  Forall (Forall (fun s => (1 <= s)%Qc)) (m_localScaling st')
  /\ Forall2 (fun op sc => length sc = op_rows op) (m_localSchurOps st') (m_localScaling st')
  /\ exists P, preconditioner st' = Ok P.
Proof. apply preconditioner_after_setup. Qed.

(** X10.  [setupMultiplicityScaling] starts from a cleared [m_localScaling]: a
    second call gives the object of the first, the counts are not
    accumulated. *)
Theorem setupMultiplicityScaling_idempotent (st st' : State) :
  setupMultiplicityScaling st = Ok st' -> setupMultiplicityScaling st' = Ok st'.
Proof.
  intros Hs. destruct (setup_returns st st' Hs) as (Hlen & scaling & Hmap & ->).
  unfold setupMultiplicityScaling.
  cbn [m_jumpMatrices m_localSchurOps m_localScalingOps m_localScalingTransOps].
  rewrite Hlen, Nat.eqb_refl. cbn [GISMO_ASSERT bind].
  rewrite Hmap. reflexivity.
Qed.

(** The two subdomains with one shared dof, after the scaling was set up. *)
Definition scaled_two : State :=
  match setupMultiplicityScaling two_subdomains with
  | Ok st' => st'
  | Fault _ => two_subdomains
  end.

Lemma scaled_two_ok : setupMultiplicityScaling two_subdomains = Ok scaled_two.
Proof.
  destruct (setup_ok two_subdomains eq_refl) as (st' & Hs & _).
  - cbn [two_subdomains m_jumpMatrices m_localSchurOps].
    constructor; [|constructor; [|constructor]];
      unfold columns_fit; apply Forall_forall; intros e He;
      apply in_stored in He; destruct He as [He _]; cbn [sm_entries jump_plus jump_minus] in He;
      destruct He as [<- | []]; cbn [e_col]; unfold makeMatrixOp, laplace3; cbn [op_rows sm_rows]; lia.
  - unfold scaled_two. rewrite Hs. reflexivity.
Qed.

Lemma scaling_never_divides_by_zero_witness :
  Forall (Forall (fun s => (1 <= s)%Qc)) (m_localScaling scaled_two)
  /\ Forall2 (fun op sc => length sc = op_rows op)
             (m_localSchurOps scaled_two) (m_localScaling scaled_two)
  /\ exists P, preconditioner scaled_two = Ok P.
Proof.
  apply (scaling_never_divides_by_zero two_subdomains scaled_two).
  exact scaled_two_ok.
Defined.

Lemma setupMultiplicityScaling_idempotent_witness :
  setupMultiplicityScaling scaled_two = Ok scaled_two.
Proof.
  apply (setupMultiplicityScaling_idempotent two_subdomains scaled_two).
  exact scaled_two_ok.
Defined.

End SubdomainFacts.

(* ================================================================= *)
(** ** Restriction to the skeleton *)

Module SkeletonRestrictionFacts.

Import gsScaledDirichletPrec.
Import SkeletonFacts.
Import RestrictFacts.
Import SchurFacts.
Import BuilderFacts.
Import MultiplicityFacts.
Import SubdomainFacts.

(** The first loop over [dofs] goes through when every index is within
    the vector, whether or not indices repeat. *)
Lemma mark_dofs_total (n : nat) (dofs : list nat) :
  Forall (fun d => d < n) dofs ->
  exists reverse, mark_dofs n dofs = Ok reverse /\ length reverse = n.
Proof.
  unfold mark_dofs. generalize 0 as a.
  assert (Hlen : length (repeat 0%Z n) = n) by apply repeat_length.
  revert Hlen. generalize (repeat 0%Z n) as reverse.
  induction dofs as [|d dofs IH]; intros reverse Hlen a Hr.
  - exists reverse. split; [reflexivity | exact Hlen].
  - apply Forall_cons_iff in Hr. destruct Hr as [Hd Hr'].
    cbn [length seq combine foldM fst snd]. unfold write at 1.
    destruct (update_ok Z reverse d (fun _ => (Z.of_nat a + 1)%Z)) as (r1 & Hu & Hl & _).
    { now rewrite Hlen. }
    rewrite Hu. cbn [bind]. apply IH; [congruence | exact Hr'].
Qed.

Lemma in_range_dec (n : nat) (dofs : list nat) :
  {Forall (fun d => d < n) dofs} + {~ Forall (fun d => d < n) dofs}.
Proof. apply Forall_dec. intros d. apply lt_dec. Qed.

(** X12.  [restrictJumpMatrix] returns, with the rows of [B] and one column per
    entry of [dofs], exactly when every entry of [dofs] is a column index
    of [B]; otherwise the access [reverse[dofs[i]]] is out of range. *)
Theorem restrictJumpMatrix_bounds (B : JumpMatrix) (dofs : list nat) :
  (Forall (fun d => d < sm_cols B) dofs ->
   exists R, restrictJumpMatrix B dofs = Ok R
             /\ sm_rows R = sm_rows B /\ sm_cols R = length dofs)
  /\ (~ Forall (fun d => d < sm_cols B) dofs ->
      restrictJumpMatrix B dofs = Fault IndexOutOfRange)
  /\ ((exists R, restrictJumpMatrix B dofs = Ok R)
      <-> Forall (fun d => d < sm_cols B) dofs).
Proof.
  assert (Hok : Forall (fun d => d < sm_cols B) dofs ->
                exists R, restrictJumpMatrix B dofs = Ok R
                          /\ sm_rows R = sm_rows B /\ sm_cols R = length dofs).
  { intros Hr. destruct (mark_dofs_total (sm_cols B) dofs Hr) as (reverse & Hm & _).
    unfold restrictJumpMatrix. rewrite Hm. cbn [bind].
    eexists. split; [reflexivity|]. split; reflexivity. }
  assert (Hbad : ~ Forall (fun d => d < sm_cols B) dofs ->
                 restrictJumpMatrix B dofs = Fault IndexOutOfRange).
  { intros Hno. unfold restrictJumpMatrix.
    now rewrite (mark_dofs_fault (sm_cols B) dofs Hno). }
  split; [exact Hok|]. split; [exact Hbad|]. split.
  - intros [R HR]. destruct (in_range_dec (sm_cols B) dofs) as [H | H]; [exact H|].
    rewrite (Hbad H) in HR. discriminate HR.
  - intros H. destruct (Hok H) as (R & HR & _). now exists R.
Qed.

Section WithSolver.

Variable makeSparseCholeskySolver : SparseMatrix -> Outcome Op.

(** When the blocks are built, [schurComplement] returns what the
    factorization of [A11] allows. *)
Lemma schurComplement_after_blocks (M : SparseMatrix) (dofs : list nat) (b : Blocks) :
  matrixBlocks M dofs = Ok b ->
  (forall e, makeSparseCholeskySolver (A11 b) = Fault e ->
             schurComplement makeSparseCholeskySolver M dofs = Fault e)
  /\ (forall solver, makeSparseCholeskySolver (A11 b) = Ok solver ->
         exists op, schurComplement makeSparseCholeskySolver M dofs = Ok op
                    /\ op_rows op = sm_rows (A00 b) /\ op_cols op = sm_cols (A00 b)).
Proof.
  intros Hb. unfold schurComplement. rewrite Hb. cbn [bind]. split.
  - intros e ->. reflexivity.
  - intros solver ->. cbn [bind]. eexists. split; [reflexivity|]. split; reflexivity.
Qed.

Lemma schurComplement_ok (M : SparseMatrix) (dofs : list nat) :
  wf M -> sm_rows M = sm_cols M -> sm_rows M <> 0 ->
  NoDup dofs -> Forall (fun d => d < sm_cols M) dofs ->
  (forall b, matrixBlocks M dofs = Ok b ->
             exists solver, makeSparseCholeskySolver (A11 b) = Ok solver) ->
  exists op, schurComplement makeSparseCholeskySolver M dofs = Ok op
             /\ op_rows op = length dofs /\ op_cols op = length dofs.
Proof.
  intros Hwf Hsq Hpos Hnd Hr Hfact.
  destruct (matrixBlocks_ok M dofs Hwf Hsq Hpos Hnd Hr) as (b & Hb & Hblk).
  destruct (Hfact b Hb) as (solver & Hsolver).
  destruct (schurComplement_after_blocks M dofs b Hb) as [_ Hok].
  destruct (Hok solver Hsolver) as (op & Hop & Hrows & Hcols).
  destruct (Hblk false false) as (H00r & H00c & _). cbn [blk indices] in H00r, H00c.
  exists op. split; [exact Hop|]. split; congruence.
Qed.

(** X13.  What [schurComplement] returns.  A dof that is no column index of
    the matrix stops the call at the access [reverse[dofs[i]]], whatever the
    matrix; with valid dofs, a matrix without rows stops it at the integer
    division by [mat.rows()] of the [reserve] calls.  For a well-formed
    square matrix with at least one row and duplicate-free valid dofs the
    blocks are built, and the call returns what the factorization of the
    interior block allows: its failure, or an operator on vectors with one
    entry per kept dof. *)
Theorem schurComplement_bounds (M : SparseMatrix) (dofs : list nat) :
  (~ Forall (fun d => d < sm_cols M) dofs ->
   schurComplement makeSparseCholeskySolver M dofs = Fault IndexOutOfRange)
  /\ (Forall (fun d => d < sm_cols M) dofs -> sm_rows M = 0 ->
      schurComplement makeSparseCholeskySolver M dofs = Fault (DivisionByZero SiteReserve))
  /\ (wf M -> sm_rows M = sm_cols M -> sm_rows M <> 0 ->
      NoDup dofs -> Forall (fun d => d < sm_cols M) dofs ->
      exists b,
        matrixBlocks M dofs = Ok b
        /\ (forall e, makeSparseCholeskySolver (A11 b) = Fault e ->
                      schurComplement makeSparseCholeskySolver M dofs = Fault e)
        /\ (forall solver, makeSparseCholeskySolver (A11 b) = Ok solver ->
               exists op, schurComplement makeSparseCholeskySolver M dofs = Ok op
                          /\ op_rows op = length dofs /\ op_cols op = length dofs)).
Proof.
  split; [|split].
  - intros Hno. unfold schurComplement, matrixBlocks.
    now rewrite (mark_dofs_fault (sm_cols M) dofs Hno).
  - intros Hr H0. destruct (mark_dofs_total (sm_cols M) dofs Hr) as (reverse & Hm & _).
    unfold schurComplement, matrixBlocks. rewrite Hm. cbn [bind].
    rewrite H0. reflexivity.
  - intros Hwf Hsq Hpos Hnd Hr.
    destruct (matrixBlocks_ok M dofs Hwf Hsq Hpos Hnd Hr) as (b & Hb & Hblk).
    destruct (schurComplement_after_blocks M dofs b Hb) as [Hfail Hok].
    destruct (Hblk false false) as (H00r & H00c & _). cbn [blk indices] in H00r, H00c.
    exists b. split; [exact Hb|]. split; [exact Hfail|].
    intros solver Hsolver. destruct (Hok solver Hsolver) as (op & Hop & Hrows & Hcols).
    exists op. split; [exact Hop|]. split; congruence.
Qed.

End WithSolver.

Lemma nth_map_seq (f : nat -> T) (n i : nat) :
  i < n -> nth i (map f (seq 0 n)) 0%Qc = f i.
Proof.
  intros Hi. rewrite (nth_indep _ 0%Qc (f 0)) by (now rewrite length_map, length_seq).
  rewrite map_nth, seq_nth by assumption. reflexivity.
Qed.

(** X14.  For valid [dofs], the transposed restricted matrix applied to [y] is
    the selection, in the order of [dofs], of the entries of the
    transposed matrix applied to [y]. *)
Theorem restricted_transpose_product (B R : JumpMatrix) (dofs : list nat) (y : Vec) :
  wf B -> NoDup dofs -> Forall (fun d => d < sm_cols B) dofs ->
  restrictJumpMatrix B dofs = Ok R ->
  mulvecT R y = map (fun d => nth d (mulvecT B y) 0%Qc) dofs.
Proof.
  intros Hwf Hnd Hr HR.
  destruct (restrictJumpMatrix_columns B dofs Hwf Hnd Hr)
    as (R' & HR' & _ & Hrows & Hcols & Hcol & _).
  rewrite HR in HR'. inversion HR'; subst R'. clear HR'.
  unfold mulvecT at 1. rewrite Hcols, Hrows.
  apply map_seq_nth_error. intros j d Hj.
  assert (Hd : d < sm_cols B).
  { rewrite Forall_forall in Hr. apply Hr. eapply nth_error_In. exact Hj. }
  unfold mulvecT. rewrite nth_map_seq by exact Hd.
  apply bigsum_ext. intros i Hi.
  now rewrite (proj2 (Hcol i j d Hj) Hi).
Qed.

Lemma vsum_perm (A : Type) (f : A -> T) (l l' : list A) :
  Permutation l l' -> vsum (map f l) = vsum (map f l').
Proof.
  induction 1; simpl; try congruence; ring.
Qed.

Lemma seq_split (n : nat) (dofs : list nat) :
  NoDup dofs -> Forall (fun d => d < n) dofs ->
  Permutation (seq 0 n) (dofs ++ interior n dofs).
Proof.
  intros Hnd Hr. apply NoDup_Permutation.
  - apply seq_NoDup.
  - apply NoDup_app; [assumption | apply interior_NoDup|].
    intros c Hc Hi. apply in_interior in Hi. tauto.
  - intros c. rewrite in_seq, in_app_iff, in_interior.
    rewrite Forall_forall in Hr. split.
    + intros Hc. destruct (in_dec Nat.eq_dec c dofs); [now left | right; split; [lia | assumption]].
    + intros [Hc | [Hc _]]; [specialize (Hr c Hc)|]; lia.
Qed.

Lemma skeleton_sorted (B : JumpMatrix) : StronglySorted lt (getSkeletonDofs B).
Proof.
  rewrite getSkeletonDofs_fold. apply fold_push_sorted. constructor.
Qed.

Lemma skeleton_in_range (B : JumpMatrix) :
  wf B -> Forall (fun d => d < sm_cols B) (getSkeletonDofs B).
Proof.
  intros Hwf. apply Forall_forall. intros c Hc.
  apply in_getSkeletonDofs in Hc. destruct Hc as (r & e & He & _ & <-).
  now apply (stored_in_range B e Hwf).
Qed.

(** What [restrictJumpMatrix] returns for the skeleton dofs of the matrix
    itself. *)
Lemma skeleton_restriction (B : JumpMatrix) :
  wf B ->
  exists R,
    restrictJumpMatrix B (getSkeletonDofs B) = Ok R
    /\ wf R /\ sm_rows R = sm_rows B /\ sm_cols R = length (getSkeletonDofs B)
    /\ (forall r j dj, nth_error (getSkeletonDofs B) j = Some dj ->
          (occupied R r j <-> occupied B r dj)
          /\ (r < sm_rows B -> coeff R r j = coeff B r dj))
    /\ (forall r j, occupied R r j -> j < length (getSkeletonDofs B)).
Proof.
  intros Hwf. apply restrictJumpMatrix_columns.
  - exact Hwf.
  - apply StronglySorted_lt_NoDup, skeleton_sorted.
  - now apply skeleton_in_range.
Qed.

(** X15.  The restriction to the skeleton dofs loses nothing of the product:
    applied to the entries of [x] at the skeleton dofs, the restricted
    matrix gives what [B] gives applied to [x]. *)
Theorem skeleton_restriction_keeps_product (B R : JumpMatrix) (x : Vec) :
  wf B ->
  restrictJumpMatrix B (skeletonDofs B) = Ok R ->
  mulvec R (map (fun d => nth d x 0%Qc) (skeletonDofs B)) = mulvec B x.
Proof.
  unfold skeletonDofs. intros Hwf HR.
  destruct (skeleton_restriction B Hwf) as (R' & HR' & _ & Hrows & Hcols & Hcol & _).
  rewrite HR in HR'. inversion HR'; subst R'. clear HR'.
  set (dofs := getSkeletonDofs B) in *.
  unfold mulvec. rewrite Hrows, Hcols. apply map_ext_in. intros i Hi.
  apply in_seq in Hi. unfold bigsum.
  rewrite (map_seq_nth_error T dofs
             (fun j => (coeff R i j * nth j (map (fun d => nth d x 0) dofs) 0)%Qc)
             (fun d => (coeff B i d * nth d x 0)%Qc)).
  - rewrite (vsum_perm nat (fun j => (coeff B i j * nth j x 0)%Qc) _ _
               (seq_split (sm_cols B) dofs
                  (StronglySorted_lt_NoDup _ (skeleton_sorted B))
                  (skeleton_in_range B Hwf))).
    rewrite map_app, vsum_app.
    rewrite (vsum_map_ext nat _ (fun _ => 0%Qc) (interior (sm_cols B) dofs)).
    + rewrite vsum_map_zero. ring.
    + intros c Hc. apply in_interior in Hc. destruct Hc as [_ Hni].
      rewrite coeff_unoccupied; [ring|].
      intros Ho. apply Hni. apply in_getSkeletonDofs. now exists i.
  - intros j d Hj. rewrite (proj2 (Hcol i j d Hj)) by lia. f_equal.
    apply nth_error_nth. now rewrite nth_error_map, Hj.
Qed.

Lemma sorted_seq (a n : nat) : StronglySorted lt (seq a n).
Proof.
  revert a. induction n as [|n IH]; intros a; cbn [seq]; constructor.
  - apply IH.
  - apply Forall_forall. intros c Hc. apply in_seq in Hc. lia.
Qed.

Lemma sorted_unique (l1 l2 : list nat) :
  StronglySorted lt l1 -> StronglySorted lt l2 ->
  (forall c, In c l1 <-> In c l2) -> l1 = l2.
Proof.
  revert l2. induction l1 as [|a l1 IH]; intros [|b l2] H1 H2 Hin.
  - reflexivity.
  - exfalso. apply (proj2 (Hin b)). now left.
  - exfalso. apply (proj1 (Hin a)). now left.
  - inversion H1 as [|? ? Hs1 Ha]; subst. inversion H2 as [|? ? Hs2 Hb]; subst.
    rewrite Forall_forall in Ha, Hb.
    assert (Hab : a = b).
    { destruct (proj1 (Hin a) (or_introl eq_refl)) as [-> | Ha2]; [reflexivity|].
      destruct (proj2 (Hin b) (or_introl eq_refl)) as [-> | Hb1]; [reflexivity|].
      specialize (Ha b Hb1). specialize (Hb a Ha2). lia. }
    subst b. f_equal. apply IH; [assumption | assumption|].
    intros c. split; intros Hc.
    + destruct (proj1 (Hin c) (or_intror Hc)) as [<- | H]; [|exact H].
      specialize (Ha a Hc). lia.
    + destruct (proj2 (Hin c) (or_intror Hc)) as [<- | H]; [|exact H].
      specialize (Hb a Hc). lia.
Qed.

(** X16.  After the restriction to its skeleton dofs, every column of the jump
    matrix is a skeleton dof: [skeletonDofs] of the result is the list of
    all its columns; and every stored coefficient of [B] has its place in
    the result. *)
Theorem restricted_skeleton_is_everything (B R : JumpMatrix) :
  wf B ->
  restrictJumpMatrix B (skeletonDofs B) = Ok R ->
  skeletonDofs R = seq 0 (sm_cols R)
  /\ (forall r c, occupied B r c -> exists j, j < sm_cols R /\ occupied R r j).
Proof.
  unfold skeletonDofs. intros Hwf HR.
  destruct (skeleton_restriction B Hwf) as (R' & HR' & HwfR & Hrows & Hcols & Hcol & Hlt).
  rewrite HR in HR'. inversion HR'; subst R'. clear HR'.
  split.
  - apply sorted_unique; [apply skeleton_sorted | apply sorted_seq|].
    intros j. rewrite in_getSkeletonDofs, in_seq, Hcols. split.
    + intros [r Ho]. specialize (Hlt r j Ho). lia.
    + intros [_ Hj].
      destruct (nth_error (getSkeletonDofs B) j) as [dj|] eqn:Ej;
        [|apply nth_error_None in Ej; lia].
      assert (Hin : In dj (getSkeletonDofs B)) by (eapply nth_error_In; exact Ej).
      apply in_getSkeletonDofs in Hin. destruct Hin as [r Ho].
      exists r. now apply (Hcol r j dj Ej).
  - intros r c Ho.
    assert (Hin : In c (getSkeletonDofs B)) by (apply in_getSkeletonDofs; now exists r).
    apply In_nth_error in Hin. destruct Hin as [j Hj].
    exists j. split.
    + rewrite Hcols. apply nth_error_Some. congruence.
    + now apply (Hcol r j c Hj).
Qed.

(** *** The four blocks *)

Lemma sorted_filter (f : nat -> bool) (l : list nat) :
  StronglySorted lt l -> StronglySorted lt (filter f l).
Proof.
  induction 1 as [|a l Hs IH Ha]; cbn [filter]; [constructor|].
  destruct (f a); [|exact IH].
  constructor; [exact IH|].
  rewrite Forall_forall in *. intros c Hc. apply filter_In in Hc. now apply Ha.
Qed.

(** X17.  For a well-formed square matrix with at least one row and a
    duplicate-free list of valid kept dofs, [schurComplement] builds four
    blocks: [A00] of
    the kept rows and columns, in the order of [dofs]; [A01] and [A10] the
    couplings with the other dofs, which are numbered in increasing
    order; and [A11], the block of the other dofs, with every coefficient
    negated. *)
Theorem matrixBlocks_coefficients (M : SparseMatrix) (dofs : list nat) :
  wf M -> sm_rows M = sm_cols M -> sm_rows M <> 0 ->
  NoDup dofs -> Forall (fun d => d < sm_cols M) dofs ->
  exists b,
    matrixBlocks M dofs = Ok b
    /\ StronglySorted lt (interior (sm_cols M) dofs)
    /\ (forall c, In c (interior (sm_cols M) dofs) <-> c < sm_cols M /\ ~ In c dofs)
    /\ sm_rows (A00 b) = length dofs /\ sm_cols (A00 b) = length dofs
    /\ sm_rows (A11 b) = sm_cols M - length dofs
    /\ sm_cols (A11 b) = sm_cols M - length dofs
    /\ forall i j di dj,
         (nth_error dofs i = Some di -> nth_error dofs j = Some dj ->
          coeff (A00 b) i j = coeff M di dj)
         /\ (nth_error dofs i = Some di ->
             nth_error (interior (sm_cols M) dofs) j = Some dj ->
             coeff (A01 b) i j = coeff M di dj)
         /\ (nth_error (interior (sm_cols M) dofs) i = Some di ->
             nth_error dofs j = Some dj ->
             coeff (A10 b) i j = coeff M di dj)
         /\ (nth_error (interior (sm_cols M) dofs) i = Some di ->
             nth_error (interior (sm_cols M) dofs) j = Some dj ->
             coeff (A11 b) i j = (- coeff M di dj)%Qc).
Proof.
  intros Hwf Hsq Hpos Hnd Hr.
  destruct (matrixBlocks_ok M dofs Hwf Hsq Hpos Hnd Hr) as (b & Hb & Hblk).
  exists b. split; [exact Hb|].
  split; [apply sorted_filter, sorted_seq|].
  split; [intros c; apply in_interior|].
  pose proof (interior_length (sm_cols M) dofs Hnd Hr) as Hlen.
  destruct (Hblk false false) as (H00r & H00c & H00).
  destruct (Hblk false true) as (_ & _ & H01).
  destruct (Hblk true false) as (_ & _ & H10).
  destruct (Hblk true true) as (H11r & H11c & H11).
  cbn [blk indices signed andb] in *.
  split; [exact H00r|]. split; [exact H00c|].
  split; [now rewrite H11r|]. split; [now rewrite H11c|].
  intros i j di dj. repeat split; intros Hi Hj.
  - exact (H00 i j di dj Hi Hj).
  - exact (H01 i j di dj Hi Hj).
  - exact (H10 i j di dj Hi Hj).
  - exact (H11 i j di dj Hi Hj).
Qed.

(** *** Dofs listed more than once *)

Lemma mark_from_last (dofs : list nat) :
  forall (a : nat) (reverse : list Z),
    Forall (fun d => d < length reverse) dofs ->
    exists reverse',
      foldM (fun reverse id => write reverse (snd id) (Z.of_nat (fst id) + 1)%Z)
            (combine (seq a (length dofs)) dofs) reverse = Ok reverse'
      /\ length reverse' = length reverse
      /\ (forall i d, nth_error dofs i = Some d -> ~ In d (skipn (S i) dofs) ->
            at_index reverse' d = (Z.of_nat (a + i) + 1)%Z)
      /\ (forall c, ~ In c dofs -> at_index reverse' c = at_index reverse c).
Proof.
  induction dofs as [|d dofs IH]; intros a reverse Hr.
  - exists reverse. simpl. repeat split; auto.
    intros [|i] d H; discriminate H.
  - apply Forall_cons_iff in Hr. destruct Hr as [Hd Hr'].
    destruct (update_ok Z reverse d (fun _ => (Z.of_nat a + 1)%Z) Hd) as (r1 & Hu & Hl & Hn).
    destruct (IH (S a) r1) as (r2 & Hf & Hl2 & Hin & Hout).
    { now rewrite Hl. }
    exists r2. cbn [length seq combine foldM fst snd]. unfold write at 1.
    rewrite Hu. cbn [bind]. split; [exact Hf|]. split; [congruence|]. split.
    + intros [|i] d' Hd' Hlast.
      * cbn [nth_error] in Hd'. inversion Hd'; subst d'. cbn [skipn] in Hlast.
        rewrite (Hout d Hlast). unfold at_index.
        rewrite Hn, Nat.eqb_refl. f_equal. f_equal. lia.
      * cbn [nth_error] in Hd'. cbn [skipn] in Hlast.
        rewrite (Hin i d' Hd' Hlast). f_equal. f_equal. lia.
    + intros c Hc. rewrite Hout by (intros H; apply Hc; now right). unfold at_index.
      rewrite Hn. destruct (c =? d) eqn:E; [|reflexivity].
      apply Nat.eqb_eq in E. subst c. exfalso. apply Hc. now left.
Qed.

Lemma last_index_exists (dofs : list nat) (c : nat) :
  In c dofs -> exists i, nth_error dofs i = Some c /\ ~ In c (skipn (S i) dofs).
Proof.
  induction dofs as [|d dofs IH]; intros Hin; [contradiction|].
  destruct (in_dec Nat.eq_dec c dofs) as [Hlater | Hno].
  - destruct (IH Hlater) as (i & Hi & Hl). exists (S i). auto.
  - destruct Hin as [-> | Hin]; [|contradiction].
    exists 0. auto.
Qed.

Lemma later_occurrence (dofs : list nat) (i j d : nat) :
  nth_error dofs j = Some d -> i < j -> In d (skipn (S i) dofs).
Proof.
  intros Hj Hij. apply (nth_error_In _ (j - S i)).
  rewrite nth_error_skipn. replace (S i + (j - S i)) with j by lia. exact Hj.
Qed.

(** X18.  When an index is listed more than once in [dofs], its last place in
    the list wins: the column of the result at an earlier place stays
    empty, the column at the last place is the column of [B]. *)
Theorem restrict_repeated_dofs (B R : JumpMatrix) (dofs : list nat) :
  wf B -> Forall (fun d => d < sm_cols B) dofs ->
  restrictJumpMatrix B dofs = Ok R ->
  forall r j dj,
    r < sm_rows B -> nth_error dofs j = Some dj ->
    coeff R r j
    = if existsb (Nat.eqb dj) (skipn (S j) dofs) then 0%Qc else coeff B r dj.
Proof.
  intros Hwf Hr HR r j dj Hrow Hj.
  destruct (mark_from_last dofs 0 (repeat 0%Z (sm_cols B))) as (reverse & Hm & _ & Hin & Hout).
  { now rewrite repeat_length. }
  assert (Hzero : forall c, ~ In c dofs -> at_index reverse c = 0%Z).
  { intros c Hc. rewrite (Hout c Hc). unfold at_index.
    destruct (Nat.lt_ge_cases c (sm_cols B)) as [Hlt | Hge].
    - now rewrite nth_repeat_lt.
    - apply nth_overflow. now rewrite repeat_length. }
  unfold restrictJumpMatrix, mark_dofs in HR. rewrite Hm in HR. cbn [bind] in HR.
  inversion HR; subst R; clear HR.
  assert (Hjlt : j < length dofs) by (apply nth_error_Some; congruence).
  rewrite setFrom_coeff by assumption.
  set (later := existsb (Nat.eqb dj) (skipn (S j) dofs)).
  rewrite (sum_at_flat_map (restricted_triplet reverse)
             (fun v => if later then 0%Qc else v) r j r dj).
  - unfold coeff. destruct later; [|reflexivity].
    apply (vsum_map_zero Entry).
  - now destruct later.
  - intros e _. unfold restricted_triplet.
    destruct (in_dec Nat.eq_dec (e_col e) dofs) as [Hc | Hc].
    + destruct (last_index_exists dofs (e_col e) Hc) as (i & Hi & Hlast).
      rewrite (Hin i (e_col e) Hi Hlast). cbn [Nat.add].
      replace (0 <? Z.of_nat i + 1)%Z with true by (symmetry; apply Z.ltb_lt; lia).
      replace (Z.to_nat (Z.of_nat i + 1 - 1)) with i by lia.
      unfold sum_at, at_pos. cbn [filter e_row e_col].
      destruct (e_row e =? r); cbn [andb]; [|reflexivity].
      destruct (e_col e =? dj) eqn:Ec.
      * apply Nat.eqb_eq in Ec. unfold later.
        destruct (existsb (Nat.eqb dj) (skipn (S j) dofs)) eqn:El.
        -- apply existsb_eqb_In in El.
           destruct (i =? j) eqn:Eij; [|reflexivity].
           apply Nat.eqb_eq in Eij. subst i. exfalso. apply Hlast. now rewrite Ec.
        -- assert (Hnl : ~ In dj (skipn (S j) dofs)).
           { intros H. apply existsb_eqb_In in H. congruence. }
           assert (Heq : i = j).
           { destruct (Nat.lt_trichotomy i j) as [Hlt | [Heq | Hgt]]; [|exact Heq|].
             - exfalso. apply Hlast. rewrite Ec.
               exact (later_occurrence dofs i j dj Hj Hlt).
             - exfalso. apply Hnl. rewrite <- Ec.
               exact (later_occurrence dofs j i (e_col e) Hi Hgt). }
           subst i. rewrite Nat.eqb_refl. cbn [map e_val vsum fold_right]. ring.
      * destruct (i =? j) eqn:Eij; [|reflexivity].
        apply Nat.eqb_eq in Eij. subst i. apply Nat.eqb_neq in Ec. congruence.
    + rewrite (Hzero _ Hc). cbn [Z.ltb Z.compare].
      unfold sum_at, at_pos. cbn [filter map vsum fold_right].
      destruct (e_row e =? r); cbn [andb]; [|reflexivity].
      destruct (e_col e =? dj) eqn:Ec; [|reflexivity].
      apply Nat.eqb_eq in Ec. exfalso. apply Hc. rewrite Ec.
      eapply nth_error_In. exact Hj.
Qed.

(** *** From the local matrices to the preconditioner *)

(** A local matrix and a jump matrix that go together: the matrix is
    well-formed and square with at least one row, the jump matrix is
    well-formed with no more columns than the matrix. *)
Definition subdomain_fits (jm : JumpMatrix) (mat : SparseMatrix) : Prop :=
  wf jm /\ wf mat /\ sm_rows mat = sm_cols mat /\ sm_rows mat <> 0
  /\ sm_cols jm <= sm_cols mat.

Section Pipeline.

Variable makeSparseCholeskySolver : SparseMatrix -> Outcome Op.

(** The factorization of the interior block of [mat] succeeds. *)
Definition factorizes (jm : JumpMatrix) (mat : SparseMatrix) : Prop :=
  forall b, matrixBlocks mat (skeletonDofs jm) = Ok b ->
            exists solver, makeSparseCholeskySolver (A11 b) = Ok solver.

Lemma restrictToSkeleton_ok (jm : JumpMatrix) (mat : SparseMatrix) :
  subdomain_fits jm mat -> factorizes jm mat ->
  exists R op,
    restrictToSkeleton makeSparseCholeskySolver jm mat = Ok (R, op)
    /\ restrictToSkeleton_dofs makeSparseCholeskySolver jm mat (skeletonDofs jm) = Ok (R, op)
    /\ wf R /\ sm_rows R = sm_rows jm /\ sm_cols R = length (skeletonDofs jm)
    /\ op_rows op = sm_cols R /\ op_cols op = sm_cols R
    /\ columns_fit R op.
Proof.
  intros (Hwf & Hwfm & Hsq & Hpos & Hle) Hfact. unfold factorizes, skeletonDofs in *.
  destruct (skeleton_restriction jm Hwf) as (R & HR & HwfR & Hrows & Hcols & _).
  destruct (schurComplement_ok makeSparseCholeskySolver mat (getSkeletonDofs jm))
    as (op & Hop & Hor & Hoc); try assumption.
  { apply StronglySorted_lt_NoDup, skeleton_sorted. }
  { pose proof (skeleton_in_range jm Hwf) as H.
    eapply Forall_impl; [|exact H]. simpl. intros d Hd. lia. }
  exists R, op. unfold restrictToSkeleton, restrictToSkeleton_dofs.
  rewrite HR, Hop. cbn [bind].
  repeat (split; [first [reflexivity | assumption | congruence]|]).
  unfold columns_fit. apply Forall_forall. intros e He.
  pose proof (stored_in_range R e HwfR He). lia.
Qed.

(** X19.  For a well-formed jump matrix and a well-formed square local matrix
    with at least one row and no fewer columns than the jump matrix, whose
    interior block the solver factorizes, [restrictToSkeleton] returns;
    its two results fit each other: the restricted jump matrix has one
    column per skeleton dof and the Schur operator acts on vectors of that
    length, so every stored column index is a row of the operator.  The
    variant of the header taking the dofs returns the same for the dofs of
    [skeletonDofs]. *)
Theorem restrictToSkeleton_fits (jm : JumpMatrix) (mat : SparseMatrix) :
  wf jm -> wf mat -> sm_rows mat = sm_cols mat -> sm_rows mat <> 0 ->
  sm_cols jm <= sm_cols mat ->
  (forall b, matrixBlocks mat (skeletonDofs jm) = Ok b ->
             exists solver, makeSparseCholeskySolver (A11 b) = Ok solver) ->
  exists R op,
    restrictToSkeleton makeSparseCholeskySolver jm mat = Ok (R, op)
    /\ restrictToSkeleton_dofs makeSparseCholeskySolver jm mat (skeletonDofs jm) = Ok (R, op)
    /\ wf R /\ sm_rows R = sm_rows jm /\ sm_cols R = length (skeletonDofs jm)
    /\ op_rows op = sm_cols R /\ op_cols op = sm_cols R
    /\ columns_fit R op.
Proof.
  intros Hwf Hwfm Hsq Hpos Hle Hfact.
  apply restrictToSkeleton_ok; [|exact Hfact].
  exact (conj Hwf (conj Hwfm (conj Hsq (conj Hpos Hle)))).
Qed.

Lemma foldM_ext (A B : Type) (f g : A -> B -> Outcome A) (l : list B) (a : A) :
  (forall x y, f x y = g x y) -> foldM f l a = foldM g l a.
Proof.
  intros H. revert a. induction l as [|b l IH]; intros a; cbn [foldM]; [reflexivity|].
  rewrite H. destruct (g a b); cbn [bind]; [apply IH | reflexivity].
Qed.

(** X20.  Local matrices and jump matrices that go together, with interior
    blocks the solver factorizes, go through the whole set-up:
    [restrictToSkeleton] for each subdomain, [addSubdomain] with each
    pair, [setupMultiplicityScaling] and [preconditioner] all return, for
    any number of subdomains. *)
Theorem skeleton_pipeline_succeeds (pairs : list (JumpMatrix * SparseMatrix)) :
  Forall (fun p => subdomain_fits (fst p) (snd p) /\ factorizes (fst p) (snd p)) pairs ->
  exists data st st' P,
    mapM (fun p => restrictToSkeleton makeSparseCholeskySolver (fst p) (snd p)) pairs = Ok data
    /\ foldM (fun st d => addSubdomain_pair d st) data empty = Ok st
    /\ length (m_jumpMatrices st) = length pairs
    /\ setupMultiplicityScaling st = Ok st'
    /\ preconditioner st' = Ok P.
Proof.
  intros Hall.
  destruct (mapM_Forall2 (JumpMatrix * SparseMatrix) (JumpMatrix * OpPtr)
              (fun p => restrictToSkeleton makeSparseCholeskySolver (fst p) (snd p))
              (fun _ d => columns_fit (fst d) (snd d)) pairs)
    as (data & Hdata & HF).
  { intros [jm mat] Hin. rewrite Forall_forall in Hall.
    destruct (Hall (jm, mat) Hin) as [Hfit Hfact]. cbn [fst snd] in *.
    destruct (restrictToSkeleton_ok jm mat Hfit Hfact)
      as (R & op & HR & _ & _ & _ & _ & _ & _ & Hcf).
    exists (R, op). auto. }
  assert (Hfit : Forall (fun d => columns_fit (fst d) (snd d)) data).
  { clear - HF. induction HF; constructor; auto. }
  assert (Hreg : foldM (fun st d => addSubdomain_pair d st) data empty = Ok (registered data)).
  { rewrite <- registerAll_empty. unfold registerAll. apply foldM_ext. reflexivity. }
  assert (Hlen : length (m_jumpMatrices (registered data))
                 = length (m_localSchurOps (registered data))).
  { unfold registered. cbn [m_jumpMatrices m_localSchurOps]. now rewrite !length_map. }
  destruct (setup_ok (registered data) Hlen) as (st' & Hs & _).
  { unfold registered. cbn [m_jumpMatrices m_localSchurOps].
    clear - Hfit. induction Hfit; cbn [map]; constructor; auto. }
  destruct (preconditioner_after_setup (registered data) st' Hs) as (_ & _ & P & HP).
  exists data, (registered data), st', P.
  split; [exact Hdata|]. split; [exact Hreg|]. split.
  - unfold registered. cbn [m_jumpMatrices]. rewrite length_map.
    symmetry. exact (Forall2_length HF).
  - split; assumption.
Qed.

End Pipeline.

(** *** The theorems at concrete matrices *)

Definition pick (l : list nat) (x : Vec) : Vec := map (fun d => nth d x 0%Qc) l.

Definition restricted (B : JumpMatrix) (dofs : list nat) : JumpMatrix :=
  match restrictJumpMatrix B dofs with
  | Ok R => R
  | Fault _ => B
  end.

Lemma restricted_transpose_product_witness :
  mulvecT (restricted twoByFour [3; 1]) [1%Qc; (1 + 1)%Qc]
  = map (fun d => nth d (mulvecT twoByFour [1%Qc; (1 + 1)%Qc]) 0%Qc) [3; 1].
Proof.
  apply (restricted_transpose_product twoByFour (restricted twoByFour [3; 1]) [3; 1]).
  - exact twoByFour_wf.
  - repeat constructor; simpl; intuition discriminate.
  - repeat constructor.
  - vm_compute. reflexivity.
Defined.

Lemma skeleton_restriction_keeps_product_witness :
  mulvec (restricted twoByFour (skeletonDofs twoByFour))
         (map (fun d => nth d [1%Qc; (1 + 1)%Qc; 1%Qc; (1 + 1 + 1)%Qc] 0%Qc)
              (skeletonDofs twoByFour))
  = mulvec twoByFour [1%Qc; (1 + 1)%Qc; 1%Qc; (1 + 1 + 1)%Qc].
Proof.
  apply (skeleton_restriction_keeps_product twoByFour).
  - exact twoByFour_wf.
  - vm_compute. reflexivity.
Defined.

Lemma restricted_skeleton_is_everything_witness :
  skeletonDofs (restricted twoByFour (skeletonDofs twoByFour))
  = seq 0 (sm_cols (restricted twoByFour (skeletonDofs twoByFour)))
  /\ (forall r c, occupied twoByFour r c ->
        exists j, j < sm_cols (restricted twoByFour (skeletonDofs twoByFour))
                  /\ occupied (restricted twoByFour (skeletonDofs twoByFour)) r j).
Proof.
  apply (restricted_skeleton_is_everything twoByFour).
  - exact twoByFour_wf.
  - vm_compute. reflexivity.
Defined.

Lemma matrixBlocks_coefficients_witness :
  exists b,
    matrixBlocks sym2 [1] = Ok b
    /\ StronglySorted lt (interior (sm_cols sym2) [1])
    /\ (forall c, In c (interior (sm_cols sym2) [1]) <-> c < sm_cols sym2 /\ ~ In c [1])
    /\ sm_rows (A00 b) = length [1] /\ sm_cols (A00 b) = length [1]
    /\ sm_rows (A11 b) = sm_cols sym2 - length [1]
    /\ sm_cols (A11 b) = sm_cols sym2 - length [1]
    /\ forall i j di dj,
         (nth_error [1] i = Some di -> nth_error [1] j = Some dj ->
          coeff (A00 b) i j = coeff sym2 di dj)
         /\ (nth_error [1] i = Some di ->
             nth_error (interior (sm_cols sym2) [1]) j = Some dj ->
             coeff (A01 b) i j = coeff sym2 di dj)
         /\ (nth_error (interior (sm_cols sym2) [1]) i = Some di ->
             nth_error [1] j = Some dj ->
             coeff (A10 b) i j = coeff sym2 di dj)
         /\ (nth_error (interior (sm_cols sym2) [1]) i = Some di ->
             nth_error (interior (sm_cols sym2) [1]) j = Some dj ->
             coeff (A11 b) i j = (- coeff sym2 di dj)%Qc).
Proof.
  apply (matrixBlocks_coefficients sym2 [1]).
  - exact sym2_wf.
  - reflexivity.
  - discriminate.
  - repeat constructor. intros [].
  - repeat constructor.
Defined.

Lemma restrict_repeated_dofs_witness :
  coeff (restricted twoByFour [3; 1; 3]) 1 0 = 0%Qc
  /\ coeff (restricted twoByFour [3; 1; 3]) 1 2 = coeff twoByFour 1 3.
Proof.
  assert (Hin : Forall (fun d => d < sm_cols twoByFour) [3; 1; 3]) by (repeat constructor).
  assert (HR : restrictJumpMatrix twoByFour [3; 1; 3] = Ok (restricted twoByFour [3; 1; 3])).
  { vm_compute. reflexivity. }
  split.
  - apply (restrict_repeated_dofs twoByFour (restricted twoByFour [3; 1; 3]) [3; 1; 3]
                                  twoByFour_wf Hin HR 1 0 3); [simpl; lia | reflexivity].
  - apply (restrict_repeated_dofs twoByFour (restricted twoByFour [3; 1; 3]) [3; 1; 3]
                                  twoByFour_wf Hin HR 1 2 3); [simpl; lia | reflexivity].
Defined.

(** The symmetric positive definite local matrix
    [[2, 0, 1], [0, 2, 1], [1, 1, 2]]: with the third dof on the skeleton
    its interior block is the diagonal matrix [[2, 0], [0, 2]]. *)
Definition arrow3 : SparseMatrix :=
  mkSparse ColMajor 3 3
    [ mkEntry 0 0 (1 + 1)%Qc; mkEntry 2 0 1%Qc;
      mkEntry 1 1 (1 + 1)%Qc; mkEntry 2 1 1%Qc;
      mkEntry 0 2 1%Qc; mkEntry 1 2 1%Qc; mkEntry 2 2 (1 + 1)%Qc ].

Lemma arrow3_wf : wf arrow3.
Proof.
  split; simpl.
  - repeat constructor.
  - repeat constructor; simpl; intuition congruence.
Qed.

Lemma arrow3_fits (jm : JumpMatrix) : wf jm -> sm_cols jm = 3 -> subdomain_fits jm arrow3.
Proof.
  intros Hwf Hc. unfold subdomain_fits. rewrite Hc.
  split; [exact Hwf|]. split; [exact arrow3_wf|]. split; [reflexivity|].
  split; [discriminate | apply Nat.le_refl].
Qed.

Lemma arrow3_factorizes (jm : JumpMatrix) :
  skeletonDofs jm = [2] -> factorizes diagonalSolver jm arrow3.
Proof.
  intros Hs b Hb. rewrite Hs in Hb. vm_compute in Hb. inversion Hb; subst b. clear Hb.
  cbn [A11].
  match goal with |- exists _, diagonalSolver ?N = _ => set (N0 := N) end.
  exists (diagonalOp N0). unfold diagonalSolver.
  replace (forallb (fun i => negb (T_eqb (coeff N0 i i) 0%Qc)) (seq 0 (sm_rows N0)))
    with true by (vm_compute; reflexivity).
  reflexivity.
Qed.

Lemma restrictToSkeleton_fits_witness :
  exists R op,
    restrictToSkeleton diagonalSolver jump_plus arrow3 = Ok (R, op)
    /\ restrictToSkeleton_dofs diagonalSolver jump_plus arrow3 (skeletonDofs jump_plus)
       = Ok (R, op)
    /\ wf R /\ sm_rows R = sm_rows jump_plus
    /\ sm_cols R = length (skeletonDofs jump_plus)
    /\ op_rows op = sm_cols R /\ op_cols op = sm_cols R
    /\ columns_fit R op.
Proof.
  apply (restrictToSkeleton_fits diagonalSolver).
  - exact jump_plus_wf.
  - exact arrow3_wf.
  - reflexivity.
  - discriminate.
  - vm_compute. lia.
  - apply (arrow3_factorizes jump_plus). reflexivity.
Defined.

Lemma skeleton_pipeline_succeeds_witness :
  exists data st st' P,
    mapM (fun p => restrictToSkeleton diagonalSolver (fst p) (snd p))
         [(jump_plus, arrow3); (jump_minus, arrow3)] = Ok data
    /\ foldM (fun st d => addSubdomain_pair d st) data empty = Ok st
    /\ length (m_jumpMatrices st) = length [(jump_plus, arrow3); (jump_minus, arrow3)]
    /\ setupMultiplicityScaling st = Ok st'
    /\ preconditioner st' = Ok P.
Proof.
  apply (skeleton_pipeline_succeeds diagonalSolver).
  apply Forall_cons.
  { split; [apply arrow3_fits; [exact jump_plus_wf | reflexivity]|].
    apply arrow3_factorizes. reflexivity. }
  apply Forall_cons.
  { split; [apply arrow3_fits; [exact jump_minus_wf | reflexivity]|].
    apply arrow3_factorizes. reflexivity. }
  apply Forall_nil.
Defined.

End SkeletonRestrictionFacts.
